(** * Canvelete TypeScript SDK: retry engine, completion waits, webhook
      signatures, the HTTP client, the render requests and the validators

    A shallow embedding of
      - [src/utils/retry.ts]     ([withRetry], [retryOnRateLimit]),
      - [src/utils/webhooks.ts]  ([verifyWebhookSignature],
                                  [generateWebhookSignature],
                                  [parseWebhookPayload],
                                  [constructWebhookEvent]),
      - [src/client.ts]          (the constructor, [getAuthHeaders],
                                  [request], [handleResponseErrors]),
      - [src/resources/render.ts] ([create], [createAsync], [getStatus],
                                  [getHistory], [batchCreate], [list],
                                  [iterateAll], [waitForCompletion],
                                  [waitForBatch]),
      - [src/utils/validation.ts] ([validateCanvasDimensions],
                                  [validateRenderOptions], [validateColor]),
      - [src/errors.ts]          (the error classes),
    followed by the properties the specification states about them and
    by further properties of the code.

    Conventions of the embedding.
      - A JavaScript string is the [string] of its UTF-8 bytes.  The
        separators the code splits on, the digits, signs and letters it
        inspects are all ASCII, and UTF-8 never uses an ASCII byte inside a
        multi-byte sequence, so splitting and scanning bytes agrees with
        splitting and scanning UTF-16 code units.
      - A JavaScript number that the code treats as an integer is a [Z];
        [NaN] is kept apart ([jsnum]).  IEEE doubles are exact on integers up
        to 2^53, which covers clocks, timeouts and retry delays; the
        embedding does not round beyond that, and does not tell -0 from 0.
        The backoff factor of a retry policy is taken integral, as the
        default 2 is.  The validators compare numbers of any size: there a
        number is a rational, an infinity or NaN.
      - [Date.now()], the network, the file system and the retried
        operation are inputs: the clock is the sequence of its successive
        readings, a remote endpoint is the sequence of its successive
        answers, [fetch] is a function of the number of requests made
        before and of the request.  What the code hands to [fetch] and to
        [writeFileSync] is logged.  A request body is kept as a value;
        whether [JSON.stringify] throws on it is an input too.
      - A loop takes fuel, one unit per iteration; [None] says that the
        loop is still running when the fuel is spent. *)

From stdpp Require Import gmap strings list.
From Stdlib Require Import ZArith QArith Lia Ascii.

#[local] Set Warnings "-clear-no-such-hyp,-register-all,-notation-for-abbreviation".

Local Open Scope Z_scope.

(** ** The JavaScript runtime the sources rely on *)

Module JS.

(** A number as the sources use it: an integer or NaN. *)
Inductive jsnum : Type :=
| Num (z : Z)
| NaN.

(** [a - b]: NaN is contagious. *)
Definition sub (a b : jsnum) : jsnum :=
  match a, b with
  | Num x, Num y => Num (x - y)
  | _, _ => NaN
  end.

(** [Math.abs]. *)
Definition abs (a : jsnum) : jsnum :=
  match a with
  | Num x => Num (Z.abs x)
  | NaN => NaN
  end.

(** [a > b]: every comparison with NaN is false. *)
Definition gt (a b : jsnum) : bool :=
  match a, b with
  | Num x, Num y => y <? x
  | _, _ => false
  end.

(** Truthiness of a number: 0 and NaN are falsy. *)
Definition truthy (a : jsnum) : bool :=
  match a with
  | Num x => negb (x =? 0)
  | NaN => false
  end.

(** Truthiness of a string: only the empty string is falsy. *)
Definition nonempty (s : string) : bool :=
  match s with
  | EmptyString => false
  | String _ _ => true
  end.

(** Truthiness of [string | null | undefined]. *)
Definition nonempty_opt (s : option string) : bool :=
  match s with
  | Some s => nonempty s
  | None => false
  end.

(** [a || b] on optional strings. *)
Definition or_else (a : option string) (b : string) : string :=
  match a with
  | Some s => if nonempty s then s else b
  | None => b
  end.

(** [x || d] on optional numbers, as in [options.timeout || 300000]. *)
Definition num_or (x : option jsnum) (d : Z) : jsnum :=
  match x with
  | Some n => if truthy n then n else Num d
  | None => Num d
  end.

(** Every byte of [s] satisfies [p]. *)
Fixpoint str_all (p : ascii → bool) (s : string) : bool :=
  match s with
  | EmptyString => true
  | String c s' => p c && str_all p s'
  end.

(** [s.split(sep)] for a one-character separator: the pieces between
    the separators, at least one piece. *)
Fixpoint split (sep : ascii) (s : string) : list string :=
  match s with
  | EmptyString => [EmptyString]
  | String c s' =>
      if Ascii.eqb c sep then EmptyString :: split sep s'
      else match split sep s' with
           | [] => [String c EmptyString]
           | piece :: pieces => String c piece :: pieces
           end
  end.

(** [s.includes(needle)]. *)
Fixpoint includes (needle s : string) : bool :=
  String.prefix needle s ||
  match s with
  | EmptyString => false
  | String _ s' => includes needle s'
  end.

(** [s.toLowerCase()] on the ASCII letters.  Bytes of non-ASCII code
    points are kept: no such code point lowers to one of the ASCII
    letters the sources search for afterwards. *)
Definition lower_ascii (c : ascii) : ascii :=
  let n := N_of_ascii c in
  if ((65 <=? n) && (n <=? 90))%N then ascii_of_N (n + 32) else c.

Fixpoint toLowerCase (s : string) : string :=
  match s with
  | EmptyString => EmptyString
  | String c s' => String (lower_ascii c) (toLowerCase s')
  end.

(** Character classes. *)
Definition isnt (sep : ascii) : ascii → bool := λ c, negb (Ascii.eqb c sep).

Definition isDigit (c : ascii) : bool :=
  let n := N_of_ascii c in ((48 <=? n) && (n <=? 57))%N.

(** *** Number to string *)

Definition digitChar (d : Z) : ascii :=
  ascii_of_N (48 + Z.to_N (d mod 10)).

(** Decimal digits of [n >= 0], most significant first, in front
    of [acc]. *)
Fixpoint digits_go (fuel : nat) (n : Z) (acc : string) : string :=
  match fuel with
  | O => acc
  | S fuel' =>
      let acc' := String (digitChar n) acc in
      if n <? 10 then acc' else digits_go fuel' (n / 10) acc'
  end.

Definition digits (n : Z) : string :=
  digits_go (S (Z.to_nat (Z.log2 n))) n EmptyString.

(** [String(n)], [`${n}`] for an integer: decimal digits, a leading
    minus sign for a negative one (no exponent below 10^21). *)
Definition numberToString (n : Z) : string :=
  if n <? 0 then String "-"%char (digits (- n)) else digits n.

(** *** [parseInt] *)

(** One white space or line terminator at the head of [s] is dropped:
    TAB, LF, VT, FF, CR, SP, and in UTF-8 U+00A0, U+1680,
    U+2000..U+200A, U+2028, U+2029, U+202F, U+205F, U+3000, U+FEFF. *)
Definition dropSpace (s : string) : option string :=
  match s with
  | String c1 r1 =>
      let n1 := N_of_ascii c1 in
      if ((n1 =? 32) || ((9 <=? n1) && (n1 <=? 13)))%N then Some r1
      else match r1 with
      | String c2 r2 =>
          let n2 := N_of_ascii c2 in
          if ((n1 =? 194) && (n2 =? 160))%N then Some r2
          else match r2 with
          | String c3 r3 =>
              let n3 := N_of_ascii c3 in
              if ((n1 =? 225) && (n2 =? 154) && (n3 =? 128))%N then Some r3
              else if ((n1 =? 226) && (n2 =? 128) &&
                       (((128 <=? n3) && (n3 <=? 138)) ||
                        (n3 =? 168) || (n3 =? 169) || (n3 =? 175)))%N
                   then Some r3
              else if ((n1 =? 226) && (n2 =? 129) && (n3 =? 159))%N then Some r3
              else if ((n1 =? 227) && (n2 =? 128) && (n3 =? 128))%N then Some r3
              else if ((n1 =? 239) && (n2 =? 187) && (n3 =? 191))%N then Some r3
              else None
          | EmptyString => None
          end
      | EmptyString => None
      end
  | EmptyString => None
  end.

(** Leading white space removed. *)
Fixpoint trimStart_go (fuel : nat) (s : string) : string :=
  match fuel with
  | O => s
  | S fuel' =>
      match dropSpace s with
      | Some s' => trimStart_go fuel' s'
      | None => s
      end
  end.

Definition trimStart (s : string) : string :=
  trimStart_go (String.length s) s.

(** Value of a digit or letter as a digit of some radix up to 36. *)
Definition digitValue (c : ascii) : option Z :=
  let n := Z.of_N (N_of_ascii c) in
  if (48 <=? n) && (n <=? 57) then Some (n - 48)
  else if (97 <=? n) && (n <=? 122) then Some (n - 87)
  else if (65 <=? n) && (n <=? 90) then Some (n - 55)
  else None.

(** The longest prefix of radix-[R] digits of [s], read from the left
    with [acc] the value so far and [seen] whether a digit was read. *)
Fixpoint readDigits (R : Z) (s : string) (acc : Z) (seen : bool) : option Z :=
  match s with
  | EmptyString => if seen then Some acc else None
  | String c s' =>
      match digitValue c with
      | Some d =>
          if d <? R then readDigits R s' (acc * R + d) true
          else if seen then Some acc else None
      | None => if seen then Some acc else None
      end
  end.

(** [parseInt(s, radix)], [radix = None] when the argument is left out.
    ECMA-262 parseInt: trim, sign, radix and the 0x prefix, longest
    digit prefix, NaN when there is no digit. *)
Definition parseInt (s : string) (radix : option Z) : jsnum :=
  let S0 := trimStart s in
  let '(sign, S1) :=
    match S0 with
    | String c r =>
        if Ascii.eqb c "-"%char then (-1, r)
        else if Ascii.eqb c "+"%char then (1, r)
        else (1, S0)
    | EmptyString => (1, S0)
    end in
  let R0 := match radix with Some r => r | None => 0 end in
  if negb (R0 =? 0) && ((R0 <? 2) || (36 <? R0)) then NaN
  else
    let stripPrefix := (R0 =? 0) || (R0 =? 16) in
    let R1 := if R0 =? 0 then 10 else R0 in
    let '(R, S2) :=
      match S1 with
      | String c1 (String c2 r) =>
          if stripPrefix && Ascii.eqb c1 "0"%char &&
             (Ascii.eqb c2 "x"%char || Ascii.eqb c2 "X"%char)
          then (16, r) else (R1, S1)
      | _ => (R1, S1)
      end in
    match readDigits R S2 0 false with
    | Some v => Num (sign * v)
    | None => NaN
    end.

End JS.

(** ** Node's [crypto]: HMAC-SHA-256 and [timingSafeEqual]

    [createHmac('sha256', key).update(msg).digest('hex')] is not code of
    the repository; it is modelled by FIPS 180-4 (SHA-256) and RFC 2104
    (HMAC) on the UTF-8 bytes of [key] and [msg], so that signatures can be
    computed.  Words are integers in [0, 2^32). *)

Module Crypto.

Definition w32 (x : Z) : Z := x mod 2 ^ 32.

Definition rotr (n x : Z) : Z :=
  w32 (Z.lor (Z.shiftr x n) (Z.shiftl x (32 - n))).

Definition xor3 (a b c : Z) : Z := Z.lxor a (Z.lxor b c).

Definition Ch (x y z : Z) : Z :=
  Z.lxor (Z.land x y) (Z.land (2 ^ 32 - 1 - x) z).

Definition Maj (x y z : Z) : Z :=
  xor3 (Z.land x y) (Z.land x z) (Z.land y z).

Definition bigSigma0 (x : Z) : Z := xor3 (rotr 2 x) (rotr 13 x) (rotr 22 x).
Definition bigSigma1 (x : Z) : Z := xor3 (rotr 6 x) (rotr 11 x) (rotr 25 x).
Definition smallSigma0 (x : Z) : Z := xor3 (rotr 7 x) (rotr 18 x) (Z.shiftr x 3).
Definition smallSigma1 (x : Z) : Z := xor3 (rotr 17 x) (rotr 19 x) (Z.shiftr x 10).

(** The first 64 primes, whose square and cube roots give the initial
    hash value and the round constants. *)
Definition primes : list Z :=
  [2; 3; 5; 7; 11; 13; 17; 19; 23; 29; 31; 37; 41; 43; 47; 53;
   59; 61; 67; 71; 73; 79; 83; 89; 97; 101; 103; 107; 109; 113; 127; 131;
   137; 139; 149; 151; 157; 163; 167; 173; 179; 181; 191; 193; 197; 199;
   211; 223; 227; 229; 233; 239; 241; 251; 257; 263; 269; 271; 277; 281;
   283; 293; 307; 311].

(** Integer cube root by bisection: the largest [r] in [lo, hi) with
    [r^3 <= n]. *)
Fixpoint cbrt_go (fuel : nat) (n lo hi : Z) : Z :=
  match fuel with
  | O => lo
  | S fuel' =>
      if hi - lo <=? 1 then lo
      else let mid := (lo + hi) / 2 in
           if mid * mid * mid <=? n then cbrt_go fuel' n mid hi
           else cbrt_go fuel' n lo mid
  end.

(** First 32 bits of the fractional part of the cube root of [p]. *)
Definition cbrt_frac32 (p : Z) : Z :=
  w32 (cbrt_go 64 (p * 2 ^ 96) 0 (2 ^ 36)).

(** First 32 bits of the fractional part of the square root of [p]. *)
Definition sqrt_frac32 (p : Z) : Z :=
  w32 (Z.sqrt (p * 2 ^ 64)).

(** Round constants K_0 .. K_63. *)
Definition K : list Z := Eval vm_compute in map cbrt_frac32 primes.

(** The hash value: eight words. *)
Record hash : Type := Hash {
  h0 : Z; h1 : Z; h2 : Z; h3 : Z; h4 : Z; h5 : Z; h6 : Z; h7 : Z
}.

Definition H_init : hash :=
  Eval vm_compute in
    match map sqrt_frac32 (take 8 primes) with
    | [a; b; c; d; e; f; g; h] => Hash a b c d e f g h
    | _ => Hash 0 0 0 0 0 0 0 0
    end.

(** Big-endian bytes of a word, and of a 64-bit length. *)
Definition bytes_of_word (w : Z) : list Z :=
  [Z.shiftr w 24 mod 256; Z.shiftr w 16 mod 256; Z.shiftr w 8 mod 256; w mod 256].

Definition bytes_of_len64 (n : Z) : list Z :=
  bytes_of_word (Z.shiftr n 32 mod 2 ^ 32) ++ bytes_of_word (n mod 2 ^ 32).

Definition word_of_bytes (b3 b2 b1 b0 : Z) : Z :=
  Z.lor (Z.shiftl b3 24) (Z.lor (Z.shiftl b2 16) (Z.lor (Z.shiftl b1 8) b0)).

(** The message followed by 0x80, zeros up to 56 modulo 64, and its
    length in bits. *)
Definition pad (msg : list Z) : list Z :=
  let len := Z.of_nat (length msg) in
  let zeros := Z.to_nat ((55 - len) mod 64) in
  msg ++ [128] ++ replicate zeros 0 ++ bytes_of_len64 (8 * len).

(** Bytes to big-endian words. *)
Fixpoint words_of_bytes (bs : list Z) : list Z :=
  match bs with
  | b3 :: b2 :: b1 :: b0 :: rest => word_of_bytes b3 b2 b1 b0 :: words_of_bytes rest
  | _ => []
  end.

(** Blocks of sixteen words. *)
Fixpoint blocks (fuel : nat) (ws : list Z) : list (list Z) :=
  match fuel with
  | O => []
  | S fuel' =>
      match ws with
      | [] => []
      | _ => take 16 ws :: blocks fuel' (drop 16 ws)
      end
  end.

(** The message schedule: [rev_w] holds W_{t-1}, W_{t-2}, ... and is
    extended by [n] more words. *)
Fixpoint schedule (n : nat) (rev_w : list Z) : list Z :=
  match n with
  | O => rev_w
  | S n' =>
      let w i := nth i rev_w 0 in
      let next := w32 (smallSigma1 (w 1%nat) + w 6%nat + smallSigma0 (w 14%nat) + w 15%nat) in
      schedule n' (next :: rev_w)
  end.

(** One round of the compression function. *)
Definition round (s : hash) (kw : Z * Z) : hash :=
  let '(k, w) := kw in
  let t1 := h7 s + bigSigma1 (h4 s) + Ch (h4 s) (h5 s) (h6 s) + k + w in
  let t2 := bigSigma0 (h0 s) + Maj (h0 s) (h1 s) (h2 s) in
  Hash (w32 (t1 + t2)) (h0 s) (h1 s) (h2 s) (w32 (h3 s + t1)) (h4 s) (h5 s) (h6 s).

(** The compression function on one block. *)
Definition compress (H : hash) (block : list Z) : hash :=
  let W := rev (schedule 48 (rev block)) in
  let s := fold_left round (zip K W) H in
  Hash (w32 (h0 H + h0 s)) (w32 (h1 H + h1 s)) (w32 (h2 H + h2 s))
       (w32 (h3 H + h3 s)) (w32 (h4 H + h4 s)) (w32 (h5 H + h5 s))
       (w32 (h6 H + h6 s)) (w32 (h7 H + h7 s)).

Definition digest_bytes (H : hash) : list Z :=
  bytes_of_word (h0 H) ++ bytes_of_word (h1 H) ++ bytes_of_word (h2 H) ++
  bytes_of_word (h3 H) ++ bytes_of_word (h4 H) ++ bytes_of_word (h5 H) ++
  bytes_of_word (h6 H) ++ bytes_of_word (h7 H).

(** SHA-256 of a byte sequence: 32 bytes. *)
Definition sha256 (msg : list Z) : list Z :=
  let ws := words_of_bytes (pad msg) in
  digest_bytes (fold_left compress (blocks (S (length ws)) ws) H_init).

(** HMAC (RFC 2104) with SHA-256, block size 64. *)
Definition hmac_sha256 (key msg : list Z) : list Z :=
  let k0 := if (64 <? length key)%nat then sha256 key else key in
  let k := k0 ++ replicate (64 - length k0) 0 in
  let ipad := map (Z.lxor 54) k in
  let opad := map (Z.lxor 92) k in
  sha256 (opad ++ sha256 (ipad ++ msg)).

(** Lowercase hexadecimal, two digits per byte. *)
Definition hexChars : list ascii :=
  ["0"; "1"; "2"; "3"; "4"; "5"; "6"; "7"; "8"; "9"; "a"; "b"; "c"; "d"; "e"; "f"]%char.

Definition hexDigit (n : Z) : ascii :=
  nth (Z.to_nat (n mod 16)) hexChars "f"%char.

Fixpoint hex (bs : list Z) : string :=
  match bs with
  | [] => EmptyString
  | b :: bs' => String (hexDigit (b / 16)) (String (hexDigit b) (hex bs'))
  end.

Definition bytes_of_string (s : string) : list Z :=
  map (λ c, Z.of_N (N_of_ascii c)) (String.list_ascii_of_string s).

(** The characters of a hexadecimal digest. *)
Definition isHex (c : ascii) : bool :=
  existsb (Ascii.eqb c) hexChars.

(** [createHmac('sha256', key).update(msg).digest('hex')]. *)
Definition createHmacSha256Hex (key msg : string) : string :=
  hex (hmac_sha256 (bytes_of_string key) (bytes_of_string msg)).

(** [Buffer.from(s).length]. *)
Definition byteLength (s : string) : nat := String.length s.

(** [timingSafeEqual(Buffer.from(a), Buffer.from(b))]: throws (here
    [None]) when the byte lengths differ, otherwise tells whether the
    bytes are equal. *)
Definition timingSafeEqual (a b : string) : option bool :=
  if (byteLength a =? byteLength b)%nat then Some (String.eqb a b) else None.

End Crypto.

(** ** [src/errors.ts]: the error classes *)

(** The classes an error can be an instance of; [JsError] is JavaScript's
    own [Error], the root of the hierarchy. *)
Inductive ErrorClass : Type :=
| JsError
| CanveleteError
| AuthenticationError
| ValidationError
| NotFoundError
| RateLimitError
| ServerError
| InsufficientScopeError.

Global Instance ErrorClass_eq_dec : EqDecision ErrorClass.
Proof. solve_decision. Defined.

(** What the error mapper reads of a fetch [Response]: the status, the
    [Retry-After] header ([headers.get] gives null when it is absent) and
    the JSON body ([None] when [response.json()] rejects). *)
Record ErrorBody : Type := {
  body_error : option string;
  body_message : option string
}.

Record Response : Type := {
  status : Z;
  retryAfterHeader : option string;
  json : option ErrorBody
}.

(** An error object: its class and the fields the constructors set.
    [retryAfter] exists on a [RateLimitError] only; on the other classes
    reading it gives undefined, here [None]. *)
Record error : Type := {
  cls : ErrorClass;
  message : string;
  statusCode : option Z;
  response : option Response;
  retryAfter : option JS.jsnum
}.

(** The constructors, with their defaulted arguments. *)
Definition mkError (c : ErrorClass) (msg : string)
    (code : option Z) (resp : option Response) : error :=
  {| cls := c; message := msg; statusCode := code; response := resp;
     retryAfter := None |}.

Definition newError (msg : string) : error := mkError JsError msg None None.

Definition newRateLimitError (msg : string) (after : option JS.jsnum)
    (code : option Z) (resp : option Response) : error :=
  {| cls := RateLimitError; message := msg; statusCode := code;
     response := resp; retryAfter := after |}.

(** [e instanceof C]: every class of the SDK extends [CanveleteError],
    which extends [Error]. *)
Definition instanceOf (e : error) (C : ErrorClass) : bool :=
  match C with
  | JsError => true
  | CanveleteError => negb (bool_decide (cls e = JsError))
  | _ => bool_decide (cls e = C)
  end.

(** How a promise settles. *)
Inductive outcome (T : Type) : Type :=
| Resolved (v : T)
| Rejected (e : error).
Arguments Resolved {T} v.
Arguments Rejected {T} e.

(** ** [src/utils/retry.ts] *)

Record RetryConfig : Type := {
  maxAttempts : Z;
  backoffFactor : Z;
  initialDelay : Z;
  maxDelay : Z;
  retryOn : list ErrorClass
}.

(** [Partial<RetryConfig>]: [None] for a key that is left out. *)
Record PartialRetryConfig : Type := {
  opt_maxAttempts : option Z;
  opt_backoffFactor : option Z;
  opt_initialDelay : option Z;
  opt_maxDelay : option Z;
  opt_retryOn : option (list ErrorClass)
}.

Definition emptyConfig : PartialRetryConfig :=
  {| opt_maxAttempts := None; opt_backoffFactor := None;
     opt_initialDelay := None; opt_maxDelay := None; opt_retryOn := None |}.

Definition defaultConfig : RetryConfig :=
  {| maxAttempts := 3; backoffFactor := 2; initialDelay := 1000;
     maxDelay := 60000; retryOn := [RateLimitError; ServerError] |}.

(** [{ ...defaultConfig, ...config }]. *)
Definition mergeConfig (config : PartialRetryConfig) : RetryConfig :=
  {| maxAttempts := default (maxAttempts defaultConfig) (opt_maxAttempts config);
     backoffFactor := default (backoffFactor defaultConfig) (opt_backoffFactor config);
     initialDelay := default (initialDelay defaultConfig) (opt_initialDelay config);
     maxDelay := default (maxDelay defaultConfig) (opt_maxDelay config);
     retryOn := default (retryOn defaultConfig) (opt_retryOn config) |}.

(** What a call of [withRetry] did: how it settled, how often it invoked
    [fn], and the arguments of its [sleep] calls in order. *)
Record retryRun (T : Type) : Type := {
  settled : outcome T;
  invocations : nat;
  sleeps : list Z
}.
Arguments settled {T} r.
Arguments invocations {T} r.
Arguments sleeps {T} r.

Definition slept {T} (ms : Z) (r : retryRun T) : retryRun T :=
  {| settled := settled r; invocations := invocations r;
     sleeps := ms :: sleeps r |}.

(** [cfg.retryOn.some(ErrorClass => error instanceof ErrorClass)]. *)
Definition shouldRetry (cfg : RetryConfig) (e : error) : bool :=
  existsb (instanceOf e) (retryOn cfg).

(** [error instanceof RateLimitError && error.retryAfter], and then
    [error.retryAfter * 1000]. *)
Definition retryAfterDelay (e : error) : option Z :=
  if instanceOf e RateLimitError then
    match retryAfter e with
    | Some (JS.Num r) => if r =? 0 then None else Some (r * 1000)
    | _ => None
    end
  else None.

(** The [while] loop of [withRetry].  [fn k] is how the [k]-th invocation
    of the operation settles; [attempt] and [delay] are the loop's
    variables, [calls] the invocations so far.  One unit of [fuel] per
    iteration.  The [console.warn] lines are left out. *)
Fixpoint withRetry_loop {T} (fuel : nat) (cfg : RetryConfig)
    (fn : nat → outcome T) (attempt delay : Z) (calls : nat)
    : option (retryRun T) :=
  match fuel with
  | O => None
  | S fuel' =>
      if attempt <? maxAttempts cfg then
        match fn calls with
        | Resolved v =>
            Some {| settled := Resolved v; invocations := S calls; sleeps := [] |}
        | Rejected e =>
            let attempt := attempt + 1 in
            if negb (shouldRetry cfg e) || (maxAttempts cfg <=? attempt) then
              Some {| settled := Rejected e; invocations := S calls; sleeps := [] |}
            else
              let delay := default delay (retryAfterDelay e) in
              let next := Z.min (delay * backoffFactor cfg) (maxDelay cfg) in
              slept delay <$> withRetry_loop fuel' cfg fn attempt next (S calls)
        end
      else
        Some {| settled := Rejected (mkError CanveleteError
                              "Max retry attempts reached" None None);
                invocations := calls; sleeps := [] |}
  end.

(** [withRetry(fn, config)].  The loop runs at most [maxAttempts]
    iterations, and one more test of its condition. *)
Definition withRetry {T} (fn : nat → outcome T) (config : PartialRetryConfig)
    : option (retryRun T) :=
  let cfg := mergeConfig config in
  withRetry_loop (S (Z.to_nat (maxAttempts cfg))) cfg fn 0 (initialDelay cfg) 0.

(** The waits of a run obey the recurrence of the loop: each wait is
    the hint of the error just caught, or else the current delay, and the
    delay that follows a wait is that wait times the backoff factor,
    capped.  [k] is the invocation the first wait follows. *)
Fixpoint waitsFrom {T} (fn : nat → outcome T) (cfg : RetryConfig)
    (k : nat) (delay : Z) (ws : list Z) : Prop :=
  match ws with
  | [] => True
  | w :: ws' =>
      ∃ e, fn k = Rejected e ∧
           w = default delay (retryAfterDelay e) ∧
           waitsFrom fn cfg (S k)
             (Z.min (w * backoffFactor cfg) (maxDelay cfg)) ws'
  end.

(** The geometric schedule: the delay before retry [i] when no wait was
    hinted. *)
Fixpoint backoffDelay (cfg : RetryConfig) (i : nat) : Z :=
  match i with
  | O => initialDelay cfg
  | S i' => Z.min (backoffDelay cfg i' * backoffFactor cfg) (maxDelay cfg)
  end.

(** [retryOnRateLimit(fn)]. *)
Definition retryOnRateLimit {T} (fn : nat → outcome T) : option (retryRun T) :=
  withRetry fn {| opt_maxAttempts := Some 5; opt_backoffFactor := Some 2;
                  opt_initialDelay := None; opt_maxDelay := None;
                  opt_retryOn := Some [RateLimitError; ServerError] |}.

(** An operation that settles as scripted, like the mocks of the test
    suite ([mockRejectedValueOnce] ... [mockResolvedValue]). *)
Definition mockFn {T} (script : list (outcome T)) (then_ : outcome T)
    : nat → outcome T :=
  λ k, nth k script then_.

Definition rateLimited (after : option JS.jsnum) : error :=
  newRateLimitError "Rate limited" after (Some 429) None.

Definition serverDown : error :=
  mkError ServerError "Server error" (Some 500) None.

(** Following the specification's words (4.2, steps 4 and 5, and
    "Determinism"): after each error of [errs] the wait is the hint of a
    RateLimit error with a non-null [retryAfterSeconds], times 1000, or
    else the current delay; a hinted wait does not take part in the
    geometric sequence, the next wait without a hint being the delay
    reached before it. *)
Fixpoint spec_waits (cfg : RetryConfig) (delay : Z) (errs : list error)
    : list Z :=
  match errs with
  | [] => []
  | e :: errs' =>
      match (if instanceOf e RateLimitError then retryAfter e else None) with
      | Some (JS.Num r) => r * 1000 :: spec_waits cfg delay errs'
      | _ => delay ::
             spec_waits cfg (Z.min (delay * backoffFactor cfg) (maxDelay cfg)) errs'
      end
  end.

(** ** [src/client.ts]: [handleResponseErrors] *)

(** The message of the error: [errorData.error || errorData.message ||
    `HTTP ${response.status}`], the last alone when the body is no JSON. *)
Definition errorMessage (response : Response) : string :=
  let message := "HTTP " +:+ JS.numberToString (status response) in
  match json response with
  | Some errorData =>
      JS.or_else (body_error errorData)
        (JS.or_else (body_message errorData) message)
  | None => message
  end.

(** [None] when the method returns, [Some e] when it throws [e]. *)
Definition handleResponseErrors (response : Response) : option error :=
  if status response <? 400 then None
  else
    let message := errorMessage response in
    let st := status response in
    Some (
      if st =? 401 then mkError AuthenticationError message (Some 401) (Some response)
      else if st =? 403 then
        if JS.includes "scope" (JS.toLowerCase message)
        then mkError InsufficientScopeError message (Some 403) (Some response)
        else mkError AuthenticationError message (Some 403) (Some response)
      else if st =? 404 then mkError NotFoundError message (Some 404) (Some response)
      else if st =? 422 then mkError ValidationError message (Some 422) (Some response)
      else if st =? 429 then
        let retryAfter := retryAfterHeader response in
        newRateLimitError message
          (if JS.nonempty_opt retryAfter
           then Some (JS.parseInt (default "" retryAfter) None)
           else None)
          (Some 429) (Some response)
      else if 500 <=? st then mkError ServerError message (Some st) (Some response)
      else mkError CanveleteError message (Some st) (Some response)).

(** [needle] occurs in [s] when letter case is ignored: some substring
    of [s] lowers to [needle]. *)
Definition containsIgnoringCase (needle s : string) : Prop :=
  ∃ pre mid post, s = pre +:+ mid +:+ post ∧ JS.toLowerCase mid = needle.

(** ** [src/utils/webhooks.ts] *)

Record WebhookVerifyOptions : Type := {
  payload : string;
  signature : string;
  secret : string;
  tolerance : option Z
}.

(** The loop that fills [signatureParts]: of each comma-separated part,
    the first two pieces around "=" when both are non-empty; a later part
    overwrites an earlier one with the same key.  The object is read at
    the keys "t" and "v1" only, which [Object.prototype] does not have, so
    a finite map of the assigned keys reads the same. *)
Definition signatureParts (signature : string) : gmap string string :=
  fold_left
    (λ (parts : gmap string string) part,
       match JS.split "=" part with
       | key :: value :: _ =>
           if JS.nonempty key && JS.nonempty value
           then <[key := value]> parts else parts
       | _ => parts
       end)
    (JS.split "," signature) ∅.

(** The header has a part [key=value...] with a non-empty value. *)
Definition hasPair (key signature : string) : Prop :=
  ∃ part value rest,
    part ∈ JS.split "," signature ∧
    JS.split "=" part = key :: value :: rest ∧
    value ≠ "".

(** [verifyWebhookSignature(options)], with [nowMs] the value of
    [Date.now()]. *)
Definition verifyWebhookSignature (nowMs : Z) (options : WebhookVerifyOptions)
    : bool :=
  let tolerance := default 300 (tolerance options) in
  let parts := signatureParts (signature options) in
  let timestamp := parts !! "t" in
  let v1Signature := parts !! "v1" in
  if negb (JS.nonempty_opt timestamp) || negb (JS.nonempty_opt v1Signature)
  then false
  else
    let timestamp := default "" timestamp in
    let v1Signature := default "" v1Signature in
    let timestampNum := JS.parseInt timestamp (Some 10) in
    let now := nowMs / 1000 in
    if JS.gt (JS.abs (JS.sub (JS.Num now) timestampNum)) (JS.Num tolerance)
    then false
    else
      let signedPayload := timestamp +:+ "." +:+ payload options in
      let expectedSignature :=
        Crypto.createHmacSha256Hex (secret options) signedPayload in
      match Crypto.timingSafeEqual v1Signature expectedSignature with
      | Some equal => equal
      | None => false
      end.

(** [generateWebhookSignature(payload, secret)], with [nowMs] the value
    of [Date.now()]. *)
Definition generateWebhookSignature (nowMs : Z) (payload secret : string)
    : string :=
  let timestamp := nowMs / 1000 in
  let signedPayload := JS.numberToString timestamp +:+ "." +:+ payload in
  let signature := Crypto.createHmacSha256Hex secret signedPayload in
  "t=" +:+ JS.numberToString timestamp +:+ ",v1=" +:+ signature.

(** Following the specification's words (section 6: "keys t and v1,
    values raw digits and lowercase hex respectively"): the header has a
    part [key=value] whose value is not empty and made of the characters
    [ok] only. *)
Definition spec_wellFormedKey (key : string) (ok : ascii → bool)
    (signature : string) : bool :=
  existsb
    (λ part,
       match JS.split "=" part with
       | [k; v] => String.eqb k key && JS.nonempty v && JS.str_all ok v
       | _ => false
       end)
    (JS.split "," signature).

(** ** [src/resources/render.ts]: the completion waits *)

Record RenderRecord : Type := {
  id : string;
  designId : string;
  format : string;
  job_status : string;
  outputUrl : option string;
  fileSize : Z;
  createdAt : string;
  completedAt : option string;
  job_error : option string
}.

(** The answer of the batch status endpoint. *)
Record BatchStatus : Type := {
  jobs : list RenderRecord;
  completed : bool
}.

(** The [options] argument of both waits; [None] for a key left out. *)
Record WaitOptions : Type := {
  timeout : option JS.jsnum;
  pollInterval : option JS.jsnum
}.

Definition noOptions : WaitOptions := {| timeout := None; pollInterval := None |}.

(** [x || d] once more, for a result that is then used as a number of
    milliseconds. *)
Definition msOr (x : option JS.jsnum) (d : Z) : Z :=
  match JS.num_or x d with
  | JS.Num z => z
  | JS.NaN => d
  end.

(** The environment of a wait: [clock k] is the [k]-th reading of
    [Date.now()], [statusOf jobId k] how the [k]-th request for the status
    of [jobId] settles, [batchStatusOf batchId k] the same for a batch. *)
Record world : Type := {
  clock : nat → Z;
  statusOf : string → nat → outcome RenderRecord;
  batchStatusOf : string → nat → outcome BatchStatus
}.

(** What a wait does, in order. *)
Inductive event : Type :=
| ReadClock (now : Z)
| Fetch (k : nat)
| Sleep (ms : Z).

Definition after {T} (evs : list event) (r : outcome T * list event)
    : outcome T * list event :=
  (r.1, evs ++ r.2).

(** The events of [n] rounds of polling that start with poll [j] and
    find nothing final: the clock is read, the status fetched, the
    interval slept. *)
Definition rounds (w : world) (pollInterval : Z) (j n : nat) : list event :=
  flat_map (λ i, [ReadClock (clock w (S i)); Fetch i; Sleep pollInterval])
           (seq j n).

(** Milliseconds between the start of a wait and the clock reading that
    precedes poll [k]. *)
Definition elapsed (w : world) (k : nat) : Z := clock w (S k) - clock w 0.

(** The [while] loop of [waitForCompletion]: [reads] clock readings and
    [fetches] status requests were made before.  One unit of [fuel] per
    iteration. *)
Fixpoint waitForCompletion_loop (fuel : nat) (w : world) (jobId : string)
    (timeout pollInterval startTime : Z) (reads fetches : nat)
    : option (outcome RenderRecord * list event) :=
  match fuel with
  | O => None
  | S fuel' =>
      let now := clock w reads in
      if now - startTime <? timeout then
        match statusOf w jobId fetches with
        | Rejected e => Some (Rejected e, [ReadClock now; Fetch fetches])
        | Resolved st =>
            if String.eqb (job_status st) "completed" then
              Some (Resolved st, [ReadClock now; Fetch fetches])
            else if String.eqb (job_status st) "failed" then
              Some (Rejected (newError ("Render job failed: " +:+
                                JS.or_else (job_error st) "Unknown error")),
                    [ReadClock now; Fetch fetches])
            else
              after [ReadClock now; Fetch fetches; Sleep pollInterval] <$>
                waitForCompletion_loop fuel' w jobId timeout pollInterval
                  startTime (S reads) (S fetches)
        end
      else
        Some (Rejected (newError ("Render job timed out after " +:+
                          JS.numberToString timeout +:+ "ms")),
              [ReadClock now])
  end.

(** [waitForCompletion(jobId, options)]. *)
Definition waitForCompletion (fuel : nat) (w : world) (jobId : string)
    (options : WaitOptions) : option (outcome RenderRecord * list event) :=
  let timeout := msOr (timeout options) 300000 in
  let pollInterval := msOr (pollInterval options) 2000 in
  let startTime := clock w 0 in
  after [ReadClock startTime] <$>
    waitForCompletion_loop fuel w jobId timeout pollInterval startTime 1 0.

(** The [while] loop of [waitForBatch]. *)
Fixpoint waitForBatch_loop (fuel : nat) (w : world) (batchId : string)
    (timeout pollInterval startTime : Z) (reads fetches : nat)
    : option (outcome (list RenderRecord) * list event) :=
  match fuel with
  | O => None
  | S fuel' =>
      let now := clock w reads in
      if now - startTime <? timeout then
        match batchStatusOf w batchId fetches with
        | Rejected e => Some (Rejected e, [ReadClock now; Fetch fetches])
        | Resolved resp =>
            if completed resp then
              Some (Resolved (jobs resp), [ReadClock now; Fetch fetches])
            else
              after [ReadClock now; Fetch fetches; Sleep pollInterval] <$>
                waitForBatch_loop fuel' w batchId timeout pollInterval
                  startTime (S reads) (S fetches)
        end
      else
        Some (Rejected (newError ("Batch render timed out after " +:+
                          JS.numberToString timeout +:+ "ms")),
              [ReadClock now])
  end.

(** [waitForBatch(batchId, options)]. *)
Definition waitForBatch (fuel : nat) (w : world) (batchId : string)
    (options : WaitOptions) : option (outcome (list RenderRecord) * list event) :=
  let timeout := msOr (timeout options) 600000 in
  let pollInterval := msOr (pollInterval options) 5000 in
  let startTime := clock w 0 in
  after [ReadClock startTime] <$>
    waitForBatch_loop fuel w batchId timeout pollInterval startTime 1 0.

(** A status that ends no wait. *)
Definition pending (st : RenderRecord) : Prop :=
  job_status st ≠ "completed" ∧ job_status st ≠ "failed".

(** How a batch wait that returns has ended, when every request is
    answered: at the first answer whose flag is true, with its jobs, or
    at the first clock reading at or past the deadline. *)
Definition batchEnding (w : world) (target : string) (limit interval : Z)
    (j : nat) (r : outcome (list RenderRecord) * list event) : Prop :=
  ∃ k, (j <= k)%nat ∧
    (∀ i resp, (j <= i < k)%nat → batchStatusOf w target i = Resolved resp →
               completed resp = false) ∧
    (∀ i, (j <= i < k)%nat → elapsed w i < limit) ∧
    ((∃ resp, batchStatusOf w target k = Resolved resp ∧
              completed resp = true ∧ elapsed w k < limit ∧
              r = (Resolved (jobs resp),
                   rounds w interval j (k - j) ++
                   [ReadClock (clock w (S k)); Fetch k])) ∨
     (limit <= elapsed w k ∧
      r = (Rejected (newError ("Batch render timed out after " +:+
                        JS.numberToString limit +:+ "ms")),
           rounds w interval j (k - j) ++ [ReadClock (clock w (S k))]))).

(** A fake clock that advances by [step] ms at each reading, and
    endpoints that answer as scripted, as in the test suite. *)
Definition job (st : string) (err : option string) : RenderRecord :=
  {| id := "job-123"; designId := "design-1"; format := "png";
     job_status := st; outputUrl := None; fileSize := 0;
     createdAt := "2024-01-15T10:00:00Z"; completedAt := None;
     job_error := err |}.

Definition fakeWorld (step : Z)
    (statuses : list (outcome RenderRecord)) (lastStatus : outcome RenderRecord)
    (batches : list (outcome BatchStatus)) (lastBatch : outcome BatchStatus)
    : world :=
  {| clock := λ k, step * Z.of_nat k;
     statusOf := λ _, mockFn statuses lastStatus;
     batchStatusOf := λ _, mockFn batches lastBatch |}.

(** ** [src/utils/webhooks.ts]: events *)

(** [parseWebhookPayload(payload)].  [JSON.parse] is the platform's and is
    taken as [jsonParse]; it rejects with a SyntaxError on text that is no
    JSON.  The cast to [WebhookEvent] checks nothing. *)
Definition parseWebhookPayload {Ev} (jsonParse : string → outcome Ev)
    (payload : string) : outcome Ev :=
  jsonParse payload.

(** [constructWebhookEvent(payload, signature, secret)], with [nowMs] the
    value of [Date.now()]. *)
Definition constructWebhookEvent {Ev} (jsonParse : string → outcome Ev)
    (nowMs : Z) (payload signature secret : string) : outcome Ev :=
  if negb (verifyWebhookSignature nowMs
             {| payload := payload; signature := signature;
                secret := secret; tolerance := None |})
  then Rejected (newError "Invalid webhook signature")
  else parseWebhookPayload jsonParse payload.

(** ** [src/client.ts]: the client and [request] *)

Module Client.

(** [ClientOptions]; [None] for a key left out. *)
Record ClientOptions : Type := {
  opt_apiKey : option string;
  opt_baseUrl : option string;
  opt_timeout : option JS.jsnum
}.

Record CanveleteClient : Type := {
  apiKey : string;
  baseUrl : string;
  timeout : Z
}.

(** [s.replace(/\/$/, '')]: one slash at the very end is removed. *)
Fixpoint dropTrailingSlash (s : string) : string :=
  match s with
  | EmptyString => EmptyString
  | String c s' =>
      if Ascii.eqb c "/"%char && negb (JS.nonempty s') then EmptyString
      else String c (dropTrailingSlash s')
  end.

(** [new CanveleteClient(options)]. *)
Definition new (options : ClientOptions) : CanveleteClient :=
  {| apiKey := JS.or_else (opt_apiKey options) "";
     baseUrl := dropTrailingSlash
                  (JS.or_else (opt_baseUrl options) "https://www.canvelete.com");
     timeout := msOr (opt_timeout options) 30000 |}.

(** [getAuthHeaders()]: the headers, in the order they are set, or the
    error thrown when there is no API key. *)
Definition getAuthHeaders (c : CanveleteClient)
    : outcome (list (string * string)) :=
  if JS.nonempty (apiKey c) then
    Resolved [("Content-Type", "application/json");
              ("User-Agent", "canvelete-ts/2.0.0");
              ("Authorization", "Bearer " +:+ apiKey c)]
  else Rejected (mkError AuthenticationError "No API key provided" None None).

(** [new URLSearchParams(params).toString()], the platform's
    application/x-www-form-urlencoded serializer on UTF-8 bytes: letters,
    digits and [*-._] stay, a space becomes [+], any other byte becomes
    [%XX]. *)
Definition upperHexDigit (n : N) : ascii :=
  if (n <? 10)%N then ascii_of_N (48 + n) else ascii_of_N (55 + n).

Definition formEncodeByte (c : ascii) : string :=
  let n := N_of_ascii c in
  if (((48 <=? n) && (n <=? 57)) || ((65 <=? n) && (n <=? 90)) ||
      ((97 <=? n) && (n <=? 122)) ||
      (n =? 42) || (n =? 45) || (n =? 46) || (n =? 95))%N
  then String c EmptyString
  else if (n =? 32)%N then "+"
  else String "%" (String (upperHexDigit (n / 16)%N)
                     (String (upperHexDigit (n mod 16)%N) EmptyString)).

Fixpoint formEncode (s : string) : string :=
  match s with
  | EmptyString => EmptyString
  | String c s' => formEncodeByte c +:+ formEncode s'
  end.

(** [pieces.join(sep)]. *)
Fixpoint join (sep : string) (pieces : list string) : string :=
  match pieces with
  | [] => EmptyString
  | [piece] => piece
  | piece :: rest => piece +:+ sep +:+ join sep rest
  end.

(** The entries of [params] are those of the object, in the order in
    which the code sets its keys. *)
Definition searchParams (params : list (string * string)) : string :=
  join "&" (map (λ kv, formEncode kv.1 +:+ "=" +:+ formEncode kv.2) params).

(** [RequestOptions]; the JSON body is kept as a value of type [B], of
    which the code sends [JSON.stringify]. *)
Record RequestOptions (B : Type) : Type := {
  params : option (list (string * string));
  json : option B;
  binary : bool
}.
Arguments params {B} _.
Arguments json {B} _.
Arguments binary {B} _.

(** What is handed to [fetch]; the abort signal is left out. *)
Record HttpRequest (B : Type) : Type := {
  req_method : string;
  req_url : string;
  req_headers : list (string * string);
  req_body : option B
}.
Arguments req_method {B} _.
Arguments req_url {B} _.
Arguments req_headers {B} _.
Arguments req_body {B} _.

(** What [fetch], [response.json()] and [response.arrayBuffer()] reject
    with: the DOMException named AbortError when the timeout aborts the
    request, or another error with its message. *)
Inductive fetchError : Type :=
| AbortError
| OtherError (message : string).

(** What [fetch] resolves with: the response as the error mapper reads
    it, and how reading its body as JSON or as bytes settles. *)
Record fetchResponse (T : Type) : Type := {
  resp : Response;
  resp_json : fetchError + T;
  resp_arrayBuffer : fetchError + T
}.
Arguments resp {T} _.
Arguments resp_json {T} _.
Arguments resp_arrayBuffer {T} _.

(** The network: how the [k]-th call of [fetch] settles, given the
    request. *)
Definition network (B T : Type) : Type :=
  nat → HttpRequest B → fetchError + fetchResponse T.

(** The [catch] block of [request]. *)
Definition catchRequestError (c : CanveleteClient) (thrown : error + fetchError)
    : error :=
  match thrown with
  | inr AbortError =>
      mkError CanveleteError
        ("Request timeout after " +:+ JS.numberToString (timeout c) +:+ "ms")
        None None
  | inl e =>
      if instanceOf e CanveleteError then e
      else mkError CanveleteError ("Request failed: " +:+ message e) None None
  | inr (OtherError msg) =>
      mkError CanveleteError ("Request failed: " +:+ msg) None None
  end.

(** What [JSON.stringify] does with a body: [None] when it returns
    the text, [Some e] when it throws [e], a TypeError on a BigInt or on
    an object with a cycle. *)
Definition stringifier (B : Type) : Type := B → option error.

(** [request(method, endpoint, options)].  [log] holds the requests
    handed to [fetch] so far; the result comes with the log after the
    call.  The body is stringified after the headers are made and before
    the [try] block: what [JSON.stringify] throws is not caught, and
    nothing has been handed to [fetch] then. *)
Definition request {B T} (stringify : stringifier B) (net : network B T)
    (c : CanveleteClient) (method endpoint : string)
    (options : RequestOptions B) (log : list (HttpRequest B))
    : outcome T * list (HttpRequest B) :=
  match getAuthHeaders c with
  | Rejected e => (Rejected e, log)
  | Resolved headers =>
      let url := baseUrl c +:+ endpoint in
      let url :=
        match params options with
        | Some ps => url +:+ "?" +:+ searchParams ps
        | None => url
        end in
      match json options ≫= stringify with
      | Some e => (Rejected e, log)
      | None =>
          let req := {| req_method := method; req_url := url;
                        req_headers := headers; req_body := json options |} in
          let log' := log ++ [req] in
          match net (length log) req with
          | inl failure => (Rejected (catchRequestError c (inr failure)), log')
          | inr response =>
              match handleResponseErrors (resp response) with
              | Some e => (Rejected (catchRequestError c (inl e)), log')
              | None =>
                  match (if binary options then resp_arrayBuffer response
                         else resp_json response) with
                  | inl failure =>
                      (Rejected (catchRequestError c (inr failure)), log')
                  | inr v => (Resolved v, log')
                  end
              end
          end
      end
  end.

End Client.

(** ** [src/resources/render.ts]: the requests *)

Module Render.

(** A JavaScript value as the request bodies hold them, before
    [JSON.stringify]; the fields of an object are in the order in which
    its keys were set. *)
Inductive value : Type :=
| VUndefined
| VBool (b : bool)
| VNum (n : JS.jsnum)
| VStr (s : string)
| VArr (items : list value)
| VObj (fields : list (string * value)).

Notation object := (list (string * value)) (only parsing).

(** [RenderOptions]; [None] for a key left out. *)
Record RenderOptions : Type := {
  designId : option string;
  templateId : option string;
  dynamicData : option object;
  dynamicElements : option object;
  format : option string;
  width : option JS.jsnum;
  height : option JS.jsnum;
  quality : option JS.jsnum;
  outputFile : option string
}.

Record BatchRenderOptions : Type := {
  renders : option (list RenderOptions);
  webhook : option string
}.

Record ListRenderOptions : Type := {
  page : option JS.jsnum;
  limit : option JS.jsnum
}.

(** [PaginatedResponse<T>] as the server sends it. *)
Record Pagination : Type := {
  pagination_page : option JS.jsnum;
  pagination_limit : option JS.jsnum;
  total : option JS.jsnum;
  totalPages : option JS.jsnum
}.

Record PaginatedResponse (T : Type) : Type := {
  data : option (list T);
  pagination : option Pagination
}.
Arguments data {T} _.
Arguments pagination {T} _.

(** [if (x) data.key = x], for a string, a number and an object. *)
Definition setString (key : string) (x : option string) (data : object)
    : object :=
  match x with
  | Some s => if JS.nonempty s then data ++ [(key, VStr s)] else data
  | None => data
  end.

Definition setNumber (key : string) (x : option JS.jsnum) (data : object)
    : object :=
  match x with
  | Some n => if JS.truthy n then data ++ [(key, VNum n)] else data
  | None => data
  end.

Definition setObject (key : string) (x : option object) (data : object)
    : object :=
  match x with
  | Some o => data ++ [(key, VObj o)]
  | None => data
  end.

(** The platform of [writeFile]: whether the code runs in Node.js, and
    how [writeFileSync] of [fs] settles there. *)
Record platform (T : Type) : Type := {
  isNode : bool;
  writeFileSync : string → T → option error
}.
Arguments isNode {T} _.
Arguments writeFileSync {T} _ _ _.

(** [writeFile(path, data)]; [written] holds the files written so far. *)
Definition writeFile {T} (pf : platform T) (path : string) (contents : T)
    (written : list (string * T)) : option error * list (string * T) :=
  if negb (isNode pf) then
    (Some (newError "File writing is only available in Node.js environments"),
     written)
  else
    match writeFileSync pf path contents with
    | Some e => (Some e, written)
    | None => (None, written ++ [(path, contents)])
    end.

(** [JSON.stringify] on a body of the render requests: a [value] holds
    no BigInt and has no cycle, so that nothing is thrown. *)
Definition stringify : Client.stringifier object := λ _, None.

(** The body of a synchronous render. *)
Definition createData (options : RenderOptions) : object :=
  let data := [("format", VStr (JS.or_else (format options) "png"));
               ("quality", VNum (JS.num_or (quality options) 90))] in
  let data := setString "designId" (designId options) data in
  let data := setString "templateId" (templateId options) data in
  let data := setObject "dynamicData" (dynamicData options) data in
  let data := setObject "dynamicElements" (dynamicElements options) data in
  let data := setNumber "width" (width options) data in
  setNumber "height" (height options) data.

(** [create(options)]: the result, the requests made and the files
    written. *)
Definition create {T} (net : Client.network object T) (pf : platform T)
    (c : Client.CanveleteClient) (options : RenderOptions)
    (log : list (Client.HttpRequest object)) (written : list (string * T))
    : outcome T * list (Client.HttpRequest object) * list (string * T) :=
  if negb (JS.nonempty_opt (designId options)) &&
     negb (JS.nonempty_opt (templateId options))
  then (Rejected (mkError ValidationError
                    "Either designId or templateId is required" None None),
        log, written)
  else
    match Client.request stringify net c "POST" "/api/v1/render"
            {| Client.params := None; Client.json := Some (createData options);
               Client.binary := true |} log with
    | (Rejected e, log') => (Rejected e, log', written)
    | (Resolved imageData, log') =>
        match outputFile options with
        | Some path =>
            if JS.nonempty path then
              match writeFile pf path imageData written with
              | (Some e, written') => (Rejected e, log', written')
              | (None, written') => (Resolved imageData, log', written')
              end
            else (Resolved imageData, log', written)
        | None => (Resolved imageData, log', written)
        end
    end.

(** The body of an asynchronous render. *)
Definition createAsyncData (options : RenderOptions) : object :=
  let data := [("format", VStr (JS.or_else (format options) "png"));
               ("quality", VNum (JS.num_or (quality options) 90));
               ("async", VBool true)] in
  let data := setString "designId" (designId options) data in
  let data := setString "templateId" (templateId options) data in
  let data := setObject "dynamicData" (dynamicData options) data in
  let data := setNumber "width" (width options) data in
  setNumber "height" (height options) data.

(** [createAsync(options)]. *)
Definition createAsync {T} (net : Client.network object T)
    (c : Client.CanveleteClient) (options : RenderOptions)
    (log : list (Client.HttpRequest object))
    : outcome T * list (Client.HttpRequest object) :=
  if negb (JS.nonempty_opt (designId options)) &&
     negb (JS.nonempty_opt (templateId options))
  then (Rejected (mkError ValidationError
                    "Either designId or templateId is required" None None),
        log)
  else
    Client.request stringify net c "POST" "/api/v1/render/async"
      {| Client.params := None; Client.json := Some (createAsyncData options);
         Client.binary := false |} log.

(** [getStatus(jobId)]. *)
Definition getStatus {B} (net : Client.network B RenderRecord)
    (c : Client.CanveleteClient) (jobId : string)
    (log : list (Client.HttpRequest B))
    : outcome RenderRecord * list (Client.HttpRequest B) :=
  Client.request (λ _, None) net c "GET" ("/api/v1/render/status/" +:+ jobId)
    {| Client.params := None; Client.json := None; Client.binary := false |}
    log.

(** [String(n)]. *)
Definition toString (n : JS.jsnum) : string :=
  match n with
  | JS.Num z => JS.numberToString z
  | JS.NaN => "NaN"
  end.

(** The query of [list] and of [getHistory]. *)
Definition listParams (options : ListRenderOptions) : list (string * string) :=
  [("page", toString (JS.num_or (page options) 1));
   ("limit", toString (JS.num_or (limit options) 20))].

(** [getHistory(options)]. *)
Definition getHistory {B} (net : Client.network B (PaginatedResponse RenderRecord))
    (c : Client.CanveleteClient) (options : ListRenderOptions)
    (log : list (Client.HttpRequest B))
    : outcome (PaginatedResponse RenderRecord) * list (Client.HttpRequest B) :=
  Client.request (λ _, None) net c "GET" "/api/v1/render/history"
    {| Client.params := Some (listParams options); Client.json := None;
       Client.binary := false |} log.

(** One item of a batch, as [batchCreate] maps it: every key is set,
    to undefined when the option is left out. *)
Definition optString (x : option string) : value :=
  match x with Some s => VStr s | None => VUndefined end.

Definition optNumber (x : option JS.jsnum) : value :=
  match x with Some n => VNum n | None => VUndefined end.

Definition optObject (x : option object) : value :=
  match x with Some o => VObj o | None => VUndefined end.

Definition batchItem (r : RenderOptions) : value :=
  VObj [("designId", optString (designId r));
        ("templateId", optString (templateId r));
        ("dynamicData", optObject (dynamicData r));
        ("format", VStr (JS.or_else (format r) "png"));
        ("quality", VNum (JS.num_or (quality r) 90));
        ("width", optNumber (width r));
        ("height", optNumber (height r))].

(** [batchCreate(options)]. *)
Definition batchCreate {T} (net : Client.network object T)
    (c : Client.CanveleteClient) (options : BatchRenderOptions)
    (log : list (Client.HttpRequest object))
    : outcome T * list (Client.HttpRequest object) :=
  match renders options with
  | None | Some [] =>
      (Rejected (mkError ValidationError "At least one render is required"
                   None None), log)
  | Some rs =>
      let payload := [("renders", VArr (map batchItem rs))] in
      let payload := setString "webhook" (webhook options) payload in
      Client.request stringify net c "POST" "/api/v1/render/batch"
        {| Client.params := None; Client.json := Some payload;
           Client.binary := false |} log
  end.

(** [list(options)]. *)
Definition list_ {B} (net : Client.network B (PaginatedResponse RenderRecord))
    (c : Client.CanveleteClient) (options : ListRenderOptions)
    (log : list (Client.HttpRequest B))
    : outcome (PaginatedResponse RenderRecord) * list (Client.HttpRequest B) :=
  Client.request (λ _, None) net c "GET" "/api/v1/render/history"
    {| Client.params := Some (listParams options); Client.json := None;
       Client.binary := false |} log.

(** [a >= b] for a counter [a]. *)
Definition ge (a : Z) (b : JS.jsnum) : bool :=
  match b with
  | JS.Num z => z <=? a
  | JS.NaN => false
  end.

(** What a consumer that reads the generator [iterateAll] to its end
    sees: the records yielded, in order, the error thrown if it ends by
    one, and the requests made. *)
Record iteration (B : Type) : Type := {
  yielded : list RenderRecord;
  thrown : option error;
  requests : list (Client.HttpRequest B)
}.
Arguments yielded {B} _.
Arguments thrown {B} _.
Arguments requests {B} _.

Definition yieldFirst {B} (rs : list RenderRecord) (it : iteration B)
    : iteration B :=
  {| yielded := rs ++ yielded it; thrown := thrown it;
     requests := requests it |}.

(** The [while (true)] loop of [iterateAll], one unit of [fuel] per
    page. *)
Fixpoint iterateAll_loop {B} (fuel : nat)
    (net : Client.network B (PaginatedResponse RenderRecord))
    (c : Client.CanveleteClient) (page : Z) (limit : JS.jsnum)
    (log : list (Client.HttpRequest B)) : option (iteration B) :=
  match fuel with
  | O => None
  | S fuel' =>
      match list_ net c {| page := Some (JS.Num page); limit := Some limit |}
              log with
      | (Rejected e, log') =>
          Some {| yielded := []; thrown := Some e; requests := log' |}
      | (Resolved response, log') =>
          let renders := default [] (data response) in
          if (length renders =? 0)%nat then
            Some {| yielded := []; thrown := None; requests := log' |}
          else if ge page (JS.num_or (pagination response ≫= totalPages) 1)
          then Some {| yielded := renders; thrown := None; requests := log' |}
          else yieldFirst renders <$>
                 iterateAll_loop fuel' net c (page + 1) limit log'
      end
  end.

(** [iterateAll(options)]. *)
Definition iterateAll {B} (fuel : nat)
    (net : Client.network B (PaginatedResponse RenderRecord))
    (c : Client.CanveleteClient) (options : ListRenderOptions)
    (log : list (Client.HttpRequest B)) : option (iteration B) :=
  iterateAll_loop fuel net c 1 (JS.num_or (limit options) 50) log.

End Render.

(** [Boolean(v)]: undefined, false, 0, NaN and the empty string are
    falsy. *)
Definition toBoolean (v : Render.value) : bool :=
  match v with
  | Render.VUndefined => false
  | Render.VBool b => b
  | Render.VNum n => JS.truthy n
  | Render.VStr s => JS.nonempty s
  | Render.VArr _ | Render.VObj _ => true
  end.

(** The operation [() => client.request(method, endpoint, options)] as
    [withRetry] invokes it: [logAfter k] holds the requests made once [k]
    invocations have settled, and invocation [k] starts from there. *)
Fixpoint logAfter {B T} (stringify : Client.stringifier B)
    (net : Client.network B T) (c : Client.CanveleteClient)
    (method endpoint : string) (options : Client.RequestOptions B)
    (log : list (Client.HttpRequest B)) (k : nat) : list (Client.HttpRequest B) :=
  match k with
  | O => log
  | S k' =>
      (Client.request stringify net c method endpoint options
         (logAfter stringify net c method endpoint options log k')).2
  end.

Definition requestAttempt {B T} (stringify : Client.stringifier B)
    (net : Client.network B T) (c : Client.CanveleteClient)
    (method endpoint : string) (options : Client.RequestOptions B)
    (log : list (Client.HttpRequest B)) (k : nat) : outcome T :=
  (Client.request stringify net c method endpoint options
     (logAfter stringify net c method endpoint options log k)).1.

(** The request for one page of the render history, as [fetch] gets
    it. *)
Definition historyRequest {B} (c : Client.CanveleteClient) (page limit : Z)
    : Client.HttpRequest B :=
  {| Client.req_method := "GET";
     Client.req_url :=
       Client.baseUrl c +:+ "/api/v1/render/history?page=" +:+
       JS.numberToString page +:+ "&limit=" +:+ JS.numberToString limit;
     Client.req_headers :=
       [("Content-Type", "application/json");
        ("User-Agent", "canvelete-ts/2.0.0");
        ("Authorization", "Bearer " +:+ Client.apiKey c)];
     Client.req_body := None |}.

(** The requests for the pages 1 to [n], after those of [log]. *)
Definition historyWalk {B} (c : Client.CanveleteClient) (limit : Z)
    (log : list (Client.HttpRequest B)) (n : nat)
    : list (Client.HttpRequest B) :=
  log ++ map (λ i, historyRequest c (Z.of_nat (S i)) limit) (seq 0 n).

(** The server answers the request for page [i + 1], made after those of
    [log] and those for the pages before, with a status below 400 and the
    body [answer]. *)
Definition serves {B}
    (net : Client.network B (Render.PaginatedResponse RenderRecord))
    (c : Client.CanveleteClient) (limit : Z)
    (log : list (Client.HttpRequest B)) (i : nat)
    (answer : Render.PaginatedResponse RenderRecord) : Prop :=
  ∃ r, net (length log + i)%nat (historyRequest c (Z.of_nat (S i)) limit)
         = inr r ∧
       status (Client.resp r) < 400 ∧
       Client.resp_json r = inr answer.

(** The records of a page. *)
Definition pageOf (answer : Render.PaginatedResponse RenderRecord)
    : list RenderRecord :=
  default [] (Render.data answer).

(** Page [i + 1] has records and announces more pages than [i + 1]. *)
Definition hasNext (answer : Render.PaginatedResponse RenderRecord) (i : nat)
    : Prop :=
  pageOf answer ≠ [] ∧
  ∃ pages, Render.pagination answer ≫= Render.totalPages = Some (JS.Num pages) ∧
           Z.of_nat (S i) < pages.

(** Page [i + 1] is empty, or announces no page after it: no count of
    pages, one that is 0 or NaN, or one of at most [i + 1]. *)
Definition isLast (answer : Render.PaginatedResponse RenderRecord) (i : nat)
    : Prop :=
  pageOf answer = [] ∨
  ∀ pages, Render.pagination answer ≫= Render.totalPages = Some (JS.Num pages) →
           pages <= Z.of_nat (S i).

(** ** [src/utils/validation.ts] *)

Module Validation.

(** A JavaScript number by its value: the finite doubles are rationals
    (both zeros are 0), and there are two infinities and NaN. *)
Inductive number : Type :=
| Finite (q : Q)
| PosInfinity
| NegInfinity
| NaN.

(** [a < b] and [a <= b]: false as soon as one side is NaN. *)
Definition less (a b : number) : bool :=
  match a, b with
  | Finite p, Finite q => negb (Qle_bool q p)
  | Finite _, PosInfinity => true
  | NegInfinity, Finite _ => true
  | NegInfinity, PosInfinity => true
  | _, _ => false
  end.

Definition lessEq (a b : number) : bool :=
  match a, b with
  | Finite p, Finite q => Qle_bool p q
  | Finite _, PosInfinity => true
  | NegInfinity, Finite _ => true
  | NegInfinity, PosInfinity => true
  | PosInfinity, PosInfinity => true
  | NegInfinity, NegInfinity => true
  | _, _ => false
  end.

Definition greater (a b : number) : bool := less b a.

Definition ofZ (z : Z) : number := Finite (inject_Z z).

(** An argument or a key of type number that may be missing: a missing
    one is undefined, which compares as NaN. *)
Definition toNumber (v : option number) : number := default NaN v.

(** [typeof v !== 'number']. *)
Definition notNumber (v : option number) : bool :=
  match v with
  | Some _ => false
  | None => true
  end.

(** [if (cond) errors.push(msg)]. *)
Definition push (cond : bool) (msg : string) (errors : list string)
    : list string :=
  if cond then errors ++ [msg] else errors.

(** The end of each validator: it throws when there are errors. *)
Definition throwIfAny (what : string) (errors : list string) : option error :=
  if (0 <? length errors)%nat then
    Some (mkError ValidationError
            (what +:+ " validation failed: " +:+ Client.join "; " errors)
            None None)
  else None.

(** [validateCanvasDimensions(width, height)]: [None] when it returns,
    [Some e] when it throws [e]. *)
Definition validateCanvasDimensions (width height : option number)
    : option error :=
  let errors := [] in
  let errors := push (notNumber width || lessEq (toNumber width) (ofZ 0))
                  "Width must be a positive number" errors in
  let errors := push (notNumber height || lessEq (toNumber height) (ofZ 0))
                  "Height must be a positive number" errors in
  let errors := push (greater (toNumber width) (ofZ 10000))
                  "Width cannot exceed 10000 pixels" errors in
  let errors := push (greater (toNumber height) (ofZ 10000))
                  "Height cannot exceed 10000 pixels" errors in
  throwIfAny "Canvas" errors.

(** The keys that [validateRenderOptions] reads, with the types that
    [RenderOptions] gives them; [None] for a key left out. *)
Record RenderOptionsInput : Type := {
  designId : option string;
  templateId : option string;
  format : option string;
  quality : option number
}.

Definition VALID_FORMATS : list string := ["png"; "jpg"; "jpeg"; "pdf"; "svg"].

(** [array.includes(s)] for an array of strings. *)
Definition arrayIncludes (array : list string) (s : string) : bool :=
  existsb (String.eqb s) array.

(** [validateRenderOptions(options)]. *)
Definition validateRenderOptions (options : RenderOptionsInput) : option error :=
  let errors := [] in
  let errors := push (negb (JS.nonempty_opt (designId options)) &&
                      negb (JS.nonempty_opt (templateId options)))
                  "Either designId or templateId is required" errors in
  let errors := push (JS.nonempty_opt (format options) &&
                      negb (arrayIncludes VALID_FORMATS (default "" (format options))))
                  "Invalid format. Valid formats: png, jpg, jpeg, pdf, svg"
                  errors in
  let errors := push (match quality options with
                      | Some q => less q (ofZ 1) || greater q (ofZ 100)
                      | None => false
                      end)
                  "Quality must be between 1 and 100" errors in
  throwIfAny "Render options" errors.

(** *** The patterns of [validateColor] *)

(** A regular expression over the bytes of a string.  The patterns of
    the source are made of character classes, sequences, alternatives and
    repetitions, and are anchored by [^] and [$]: [test] asks whether the
    whole string matches. *)
Inductive regex : Type :=
| Never
| Empty
| Class (p : ascii → bool)
| Seq (r1 r2 : regex)
| Alt (r1 r2 : regex)
| Star (r : regex).

(** Whether [r] matches the empty string. *)
Fixpoint nullable (r : regex) : bool :=
  match r with
  | Never => false
  | Empty => true
  | Class _ => false
  | Seq r1 r2 => nullable r1 && nullable r2
  | Alt r1 r2 => nullable r1 || nullable r2
  | Star _ => true
  end.

(** What is left of [r] to match after the byte [c]. *)
Fixpoint derive (c : ascii) (r : regex) : regex :=
  match r with
  | Never => Never
  | Empty => Never
  | Class p => if p c then Empty else Never
  | Seq r1 r2 =>
      if nullable r1 then Alt (Seq (derive c r1) r2) (derive c r2)
      else Seq (derive c r1) r2
  | Alt r1 r2 => Alt (derive c r1) (derive c r2)
  | Star r' => Seq (derive c r') (Star r')
  end.

(** [/^r$/.test(s)]. *)
Fixpoint test (r : regex) (s : string) : bool :=
  match s with
  | EmptyString => nullable r
  | String c s' => test (derive c r) s'
  end.

(** [r+], [r?], [r{n}], a literal character and a sequence of
    patterns. *)
Definition Plus (r : regex) : regex := Seq r (Star r).

Definition Opt (r : regex) : regex := Alt r Empty.

Fixpoint times (n : nat) (r : regex) : regex :=
  match n with
  | O => Empty
  | S n' => Seq r (times n' r)
  end.

Definition char (c : ascii) : regex := Class (Ascii.eqb c).

Definition byte (n : N) : regex := Class (λ c, (N_of_ascii c =? n)%N).

Definition seqs (rs : list regex) : regex := foldr Seq Empty rs.

(** [\d], [[\d.]] and [[0-9A-Fa-f]]. *)
Definition digit : regex := Class JS.isDigit.

Definition digitOrDot (c : ascii) : bool := JS.isDigit c || Ascii.eqb c ".".

Definition isHexDigit (c : ascii) : bool :=
  let n := N_of_ascii c in
  (((48 <=? n) && (n <=? 57)) || ((65 <=? n) && (n <=? 70)) ||
   ((97 <=? n) && (n <=? 102)))%N.

(** [\s]: TAB, LF, VT, FF, CR, SP, and in UTF-8 U+00A0, U+1680,
    U+2000..U+200A, U+2028, U+2029, U+202F, U+205F, U+3000, U+FEFF. *)
Definition space : regex :=
  Alt (Class (λ c, let n := N_of_ascii c in
                   ((n =? 32) || ((9 <=? n) && (n <=? 13)))%N))
 (Alt (seqs [byte 194; byte 160])
 (Alt (seqs [byte 225; byte 154; byte 128])
 (Alt (seqs [byte 226; byte 128;
             Class (λ c, let n := N_of_ascii c in
                         (((128 <=? n) && (n <=? 138)) ||
                          (n =? 168) || (n =? 169) || (n =? 175))%N)])
 (Alt (seqs [byte 226; byte 129; byte 159])
 (Alt (seqs [byte 227; byte 128; byte 128])
      (seqs [byte 239; byte 187; byte 191])))))).

(** [/^#([0-9A-Fa-f]{3}|[0-9A-Fa-f]{6}|[0-9A-Fa-f]{8})$/] *)
Definition hexColor : regex :=
  Seq (char "#")
      (Alt (times 3 (Class isHexDigit))
           (Alt (times 6 (Class isHexDigit)) (times 8 (Class isHexDigit)))).

(** [/^rgba?\(\s*\d+\s*,\s*\d+\s*,\s*\d+(,\s*[\d.]+)?\s*\)$/] *)
Definition rgbColor : regex :=
  seqs [char "r"; char "g"; char "b"; Opt (char "a"); char "(";
        Star space; Plus digit; Star space; char ",";
        Star space; Plus digit; Star space; char ",";
        Star space; Plus digit;
        Opt (seqs [char ","; Star space; Plus (Class digitOrDot)]);
        Star space; char ")"].

(** [/^hsla?\(\s*\d+\s*,\s*\d+%\s*,\s*\d+%(,\s*[\d.]+)?\s*\)$/] *)
Definition hslColor : regex :=
  seqs [char "h"; char "s"; char "l"; Opt (char "a"); char "(";
        Star space; Plus digit; Star space; char ",";
        Star space; Plus digit; char "%"; Star space; char ",";
        Star space; Plus digit; char "%";
        Opt (seqs [char ","; Star space; Plus (Class digitOrDot)]);
        Star space; char ")"].

Definition namedColors : list string :=
  ["transparent"; "black"; "white"; "red"; "green"; "blue";
   "yellow"; "orange"; "purple"; "pink"; "gray"; "grey"].

(** [color.toLowerCase()], as far as the comparison with the named
    colors can tell: the ASCII letters are lowered, and so is the Kelvin
    sign U+212A, whose lower case is the letter k.  The bytes of any
    other code point are kept: the lower case of none of them is made of
    ASCII letters only. *)
Fixpoint lowerCase (s : string) : string :=
  match s with
  | EmptyString => EmptyString
  | String c1 r1 =>
      match r1 with
      | String c2 (String c3 r3) =>
          if ((N_of_ascii c1 =? 226) && (N_of_ascii c2 =? 132) &&
              (N_of_ascii c3 =? 170))%N
          then String "k" (lowerCase r3)
          else String (JS.lower_ascii c1) (lowerCase r1)
      | _ => String (JS.lower_ascii c1) (lowerCase r1)
      end
  end.

(** [validateColor(color)]. *)
Definition validateColor (color : string) : bool :=
  if test hexColor color then true
  else if test rgbColor color then true
  else if test hslColor color then true
  else if arrayIncludes namedColors (lowerCase color) then true
  else false.

End Validation.

(** The strings that a pattern matches. *)
Inductive lang : Validation.regex → string → Prop :=
| lang_Empty : lang Validation.Empty ""
| lang_Class p c : p c = true → lang (Validation.Class p) (String c "")
| lang_Seq r1 r2 a b :
    lang r1 a → lang r2 b → lang (Validation.Seq r1 r2) (a +:+ b)
| lang_AltL r1 r2 s : lang r1 s → lang (Validation.Alt r1 r2) s
| lang_AltR r1 r2 s : lang r2 s → lang (Validation.Alt r1 r2) s
| lang_StarNil r : lang (Validation.Star r) ""
| lang_StarCons r a b :
    lang r a → lang (Validation.Star r) b → lang (Validation.Star r) (a +:+ b).

(** Whether a string that [r] matches can start with the byte [c]. *)
Fixpoint canStart (r : Validation.regex) (c : ascii) : bool :=
  match r with
  | Validation.Never | Validation.Empty => false
  | Validation.Class p => p c
  | Validation.Seq r1 r2 =>
      canStart r1 c || (Validation.nullable r1 && canStart r2 c)
  | Validation.Alt r1 r2 => canStart r1 c || canStart r2 c
  | Validation.Star r' => canStart r' c
  end.

(** The options of a render as [validateRenderOptions] reads them. *)
Definition asNumber (n : JS.jsnum) : Validation.number :=
  match n with
  | JS.Num z => Validation.ofZ z
  | JS.NaN => Validation.NaN
  end.

Definition asInput (options : Render.RenderOptions)
    : Validation.RenderOptionsInput :=
  {| Validation.designId := Render.designId options;
     Validation.templateId := Render.templateId options;
     Validation.format := Render.format options;
     Validation.quality := asNumber <$> Render.quality options |}.

(** A dimension that [validateCanvasDimensions] lets through: a number
    that is NaN, or above 0 and at most 10000. *)
Definition dimensionOk (v : option Validation.number) : Prop :=
  ∃ n, v = Some n ∧
       (n = Validation.NaN ∨
        ∃ q, n = Validation.Finite q ∧ (0 < q)%Q ∧ (q <= 10000)%Q).

(** * Properties *)

(** Appending to a literal prefix computes. *)
#[local] Arguments String.append !_ _ / : simpl nomatch.

(** ** Strings: [split], digits and [parseInt] *)

Lemma append_assoc (a b c : string) : (a +:+ b) +:+ c = a +:+ (b +:+ c).
Proof. induction a as [|x a IH]; simpl; [done|]. by rewrite IH. Qed.

Lemma append_nil_r (a : string) : a +:+ "" = a.
Proof. induction a as [|x a IH]; simpl; [done|]. by rewrite IH. Qed.

Lemma length_append (a b : string) :
  String.length (a +:+ b) = (String.length a + String.length b)%nat.
Proof. induction a as [|x a IH]; simpl; [done|]. by rewrite IH. Qed.

Lemma str_all_app p a b :
  JS.str_all p (a +:+ b) = JS.str_all p a && JS.str_all p b.
Proof.
  induction a as [|c a IH]; simpl; [done|].
  rewrite IH. by destruct (p c).
Qed.

Lemma str_all_impl (p q : ascii → bool) s :
  (∀ c, p c = true → q c = true) →
  JS.str_all p s = true → JS.str_all q s = true.
Proof.
  intros Hpq. induction s as [|c s IH]; simpl; [done|].
  intros [Hc Hs]%andb_prop. rewrite (Hpq _ Hc). simpl. by apply IH.
Qed.

(** A string without the separator is a single piece. *)
Lemma split_none sep s :
  JS.str_all (JS.isnt sep) s = true → JS.split sep s = [s].
Proof.
  induction s as [|c s IH]; simpl; [done|].
  unfold JS.isnt at 1. intros [Hc Hs]%andb_prop.
  apply negb_true_iff in Hc. rewrite Hc, (IH Hs). done.
Qed.

(** The first piece ends at the first separator. *)
Lemma split_first sep a b :
  JS.str_all (JS.isnt sep) a = true →
  JS.split sep (a +:+ String sep b) = a :: JS.split sep b.
Proof.
  induction a as [|c a IH]; simpl.
  - intros _. by rewrite Ascii.eqb_refl.
  - unfold JS.isnt at 1. intros [Hc Hs]%andb_prop.
    apply negb_true_iff in Hc. rewrite Hc, (IH Hs). done.
Qed.

Lemma digitChar_isDigit d : JS.isDigit (JS.digitChar d) = true.
Proof.
  unfold JS.isDigit, JS.digitChar.
  assert (0 <= d mod 10 < 10) as Hd by (apply Z.mod_pos_bound; lia).
  rewrite N_ascii_embedding by lia.
  apply andb_true_intro; split; apply N.leb_le; lia.
Qed.

Lemma digitChar_value d :
  JS.digitValue (JS.digitChar d) = Some (d mod 10).
Proof.
  unfold JS.digitValue, JS.digitChar.
  assert (0 <= d mod 10 < 10) as Hd by (apply Z.mod_pos_bound; lia).
  rewrite N_ascii_embedding by lia.
  replace (Z.of_N (48 + Z.to_N (d mod 10))) with (48 + d mod 10) by lia.
  destruct (Z.leb_spec 48 (48 + d mod 10)); [|lia].
  destruct (Z.leb_spec (48 + d mod 10) 57); [|lia].
  simpl. f_equal. lia.
Qed.

(** Reading digits continues over a first run of digits.  *)
Lemma readDigits_go fuel : ∀ n acc rest a seen,
  0 <= n < 2 ^ Z.of_nat fuel → (0 < fuel)%nat →
  ∃ ds : string,
    JS.digits_go fuel n acc = ds +:+ acc ∧
    JS.str_all JS.isDigit ds = true ∧
    JS.nonempty ds = true ∧
    JS.readDigits 10 (ds +:+ rest) a seen =
      JS.readDigits 10 rest (a * 10 ^ Z.of_nat (String.length ds) + n) true.
Proof.
  induction fuel as [|fuel IH]; intros n acc rest a seen Hn Hfuel; [lia|].
  simpl. destruct (Z.ltb_spec n 10) as [Hlt|Hge].
  - exists (String (JS.digitChar n) EmptyString). simpl.
    rewrite digitChar_isDigit, digitChar_value.
    rewrite (Z.mod_small n 10) by lia.
    destruct (Z.ltb_spec n 10); [|lia].
    repeat split; try done; try (f_equal; lia).
  - assert (0 <= n / 10 < 2 ^ Z.of_nat fuel) as Hq.
    { split; [apply Z.div_pos; lia|].
      apply Z.div_lt_upper_bound; [lia|].
      rewrite Nat2Z.inj_succ, Z.pow_succ_r in Hn by lia. lia. }
    assert (0 < fuel)%nat as Hf.
    { destruct fuel; [|lia]. simpl in Hq.
      assert (1 <= n / 10) by (apply Z.div_le_lower_bound; lia). lia. }
    destruct (IH (n / 10) (String (JS.digitChar n) acc)
                (String (JS.digitChar n) rest) a seen Hq Hf)
      as (ds & Hgo & Hall & Hne & Hread).
    exists (ds +:+ String (JS.digitChar n) EmptyString).
    rewrite Hgo, str_all_app, Hall. simpl. rewrite digitChar_isDigit.
    rewrite !append_assoc. simpl.
    repeat split; try done.
    + by destruct ds.
    + rewrite Hread. simpl. rewrite digitChar_value.
      assert (0 <= n mod 10 < 10) as Hd by (apply Z.mod_pos_bound; lia).
      destruct (Z.ltb_spec (n mod 10) 10); [|lia].
      f_equal. rewrite length_append. simpl.
      rewrite Nat2Z.inj_add, Z.pow_add_r by lia.
      change (Z.of_nat 1) with 1. rewrite Z.pow_1_r.
      pose proof (Z.div_mod n 10). lia.
Qed.

Lemma digits_spec n rest a seen :
  0 <= n →
  ∃ ds : string,
    JS.digits n = ds ∧
    JS.str_all JS.isDigit ds = true ∧
    JS.nonempty ds = true ∧
    JS.readDigits 10 (ds +:+ rest) a seen =
      JS.readDigits 10 rest (a * 10 ^ Z.of_nat (String.length ds) + n) true.
Proof.
  intros Hn. unfold JS.digits.
  destruct (readDigits_go (S (Z.to_nat (Z.log2 n))) n EmptyString rest a seen)
    as (ds & Hgo & Hrest); [|lia|].
  - split; [done|].
    rewrite Nat2Z.inj_succ, Z2Nat.id by apply Z.log2_nonneg.
    destruct (Z.eq_dec n 0) as [->|]; [done|].
    apply Z.log2_spec. lia.
  - exists ds. split; [|done].
    by rewrite Hgo, append_nil_r.
Qed.

(** A printable ASCII character is no white space. *)
Lemma dropSpace_printable c r :
  (33 <= N_of_ascii c < 128)%N → JS.dropSpace (String c r) = None.
Proof.
  intros Hc. unfold JS.dropSpace.
  replace ((N_of_ascii c =? 32)%N) with false by (symmetry; apply N.eqb_neq; lia).
  replace ((N_of_ascii c <=? 13)%N) with false by (symmetry; apply N.leb_gt; lia).
  replace ((N_of_ascii c =? 194)%N) with false by (symmetry; apply N.eqb_neq; lia).
  replace ((N_of_ascii c =? 225)%N) with false by (symmetry; apply N.eqb_neq; lia).
  replace ((N_of_ascii c =? 226)%N) with false by (symmetry; apply N.eqb_neq; lia).
  replace ((N_of_ascii c =? 227)%N) with false by (symmetry; apply N.eqb_neq; lia).
  replace ((N_of_ascii c =? 239)%N) with false by (symmetry; apply N.eqb_neq; lia).
  rewrite andb_false_r. simpl.
  destruct r as [|c2 [|c3 r3]]; reflexivity.
Qed.

Lemma trimStart_printable c r :
  (33 <= N_of_ascii c < 128)%N → JS.trimStart (String c r) = String c r.
Proof.
  intros Hc. unfold JS.trimStart. simpl String.length.
  unfold JS.trimStart_go. by rewrite dropSpace_printable.
Qed.

Lemma isDigit_range c : JS.isDigit c = true → (48 <= N_of_ascii c <= 57)%N.
Proof.
  unfold JS.isDigit. intros [H1 H2]%andb_prop.
  apply N.leb_le in H1. apply N.leb_le in H2. lia.
Qed.

Lemma isDigit_isnt c sep :
  JS.isDigit sep = false → JS.isDigit c = true → JS.isnt sep c = true.
Proof.
  intros Hsep Hc. unfold JS.isnt. apply negb_true_iff.
  destruct (Ascii.eqb_spec c sep) as [->|]; [congruence|done].
Qed.

(** Parsing, in radix 10, a string that is a sign and digits. *)
Lemma parseInt_digits ds v :
  JS.str_all JS.isDigit ds = true → JS.nonempty ds = true →
  JS.readDigits 10 ds 0 false = Some v →
  JS.parseInt ds (Some 10) = JS.Num v ∧
  JS.parseInt (String "-" ds) (Some 10) = JS.Num (- v).
Proof.
  intros Hall Hne Hread.
  destruct ds as [|c ds]; [done|]. simpl in Hall.
  apply andb_prop in Hall as [Hc%isDigit_range _].
  split.
  - unfold JS.parseInt. rewrite trimStart_printable by lia.
    replace (Ascii.eqb c "-") with false
      by (symmetry; apply Ascii.eqb_neq; intros ->; simpl in Hc; lia).
    replace (Ascii.eqb c "+") with false
      by (symmetry; apply Ascii.eqb_neq; intros ->; simpl in Hc; lia).
    cbn -[JS.readDigits]. destruct ds; rewrite Hread; f_equal; lia.
  - unfold JS.parseInt. rewrite trimStart_printable by (simpl; lia).
    cbn -[JS.readDigits Z.mul]. destruct ds; rewrite Hread; f_equal; lia.
Qed.

(** The same without a radix, where a leading 0x would switch to
    radix 16: digits do not. *)
Lemma parseInt_auto_digits ds v :
  JS.str_all JS.isDigit ds = true → JS.nonempty ds = true →
  JS.readDigits 10 ds 0 false = Some v →
  JS.parseInt ds None = JS.Num v.
Proof.
  intros Hall Hne Hread.
  destruct ds as [|c ds]; [done|]. simpl in Hall.
  apply andb_prop in Hall as [Hc%isDigit_range Hall].
  unfold JS.parseInt. rewrite trimStart_printable by lia.
  replace (Ascii.eqb c "-") with false
    by (symmetry; apply Ascii.eqb_neq; intros ->; simpl in Hc; lia).
  replace (Ascii.eqb c "+") with false
    by (symmetry; apply Ascii.eqb_neq; intros ->; simpl in Hc; lia).
  destruct ds as [|c2 ds].
  - cbn -[JS.readDigits]. rewrite Hread. f_equal. lia.
  - simpl in Hall. apply andb_prop in Hall as [Hc2%isDigit_range _].
    replace (Ascii.eqb c2 "x") with false
      by (symmetry; apply Ascii.eqb_neq; intros ->; simpl in Hc2; lia).
    replace (Ascii.eqb c2 "X") with false
      by (symmetry; apply Ascii.eqb_neq; intros ->; simpl in Hc2; lia).
    cbn -[JS.readDigits Ascii.eqb]. rewrite andb_false_r.
    rewrite Hread. f_equal. lia.
Qed.

Lemma parseInt_auto_numberToString n :
  0 <= n → JS.parseInt (JS.numberToString n) None = JS.Num n.
Proof.
  intros Hn. unfold JS.numberToString.
  destruct (Z.ltb_spec n 0); [lia|].
  destruct (digits_spec n "" 0 false) as (ds & -> & Hall & Hne & Hread); [lia|].
  rewrite append_nil_r in Hread. simpl in Hread.
  by apply parseInt_auto_digits.
Qed.

(** [parseInt] reads back what [String(n)] prints. *)
Lemma parseInt_numberToString n :
  JS.parseInt (JS.numberToString n) (Some 10) = JS.Num n.
Proof.
  unfold JS.numberToString. destruct (Z.ltb_spec n 0) as [Hneg|Hpos].
  - destruct (digits_spec (- n) "" 0 false) as (ds & -> & Hall & Hne & Hread);
      [lia|].
    rewrite append_nil_r in Hread. simpl in Hread.
    destruct (parseInt_digits ds (- n) Hall Hne Hread) as [_ ->].
    f_equal. lia.
  - destruct (digits_spec n "" 0 false) as (ds & -> & Hall & Hne & Hread);
      [lia|].
    rewrite append_nil_r in Hread. simpl in Hread.
    by destruct (parseInt_digits ds n Hall Hne Hread) as [-> _].
Qed.

(** What [String(n)] prints holds no comma and no equals sign, and is
    not empty. *)
Lemma numberToString_chars n sep :
  JS.isDigit sep = false → sep ≠ "-"%char →
  JS.str_all (JS.isnt sep) (JS.numberToString n) = true.
Proof.
  intros Hsep Hminus. unfold JS.numberToString.
  destruct (Z.ltb_spec n 0) as [Hneg|Hpos].
  - destruct (digits_spec (- n) "" 0 false) as (ds & -> & Hall & _); [lia|].
    simpl. apply andb_true_intro; split.
    + unfold JS.isnt. apply negb_true_iff, Ascii.eqb_neq. congruence.
    + eapply str_all_impl; [|exact Hall]. intros c. by apply isDigit_isnt.
  - destruct (digits_spec n "" 0 false) as (ds & -> & Hall & _); [lia|].
    eapply str_all_impl; [|exact Hall]. intros c. by apply isDigit_isnt.
Qed.

Lemma numberToString_nonempty n : JS.nonempty (JS.numberToString n) = true.
Proof.
  unfold JS.numberToString. destruct (Z.ltb_spec n 0) as [Hneg|Hpos]; [done|].
  by destruct (digits_spec n "" 0 false) as (ds & -> & _ & Hne & _); [lia|].
Qed.


(** ** The digest is 64 lowercase hexadecimal characters *)

(** Published test vectors: SHA-256 of "abc" (FIPS 180-4) and of a
    two-block message, an HMAC-SHA-256 vector (RFC 4231, case 2), and two
    more digests, one under a key longer than a block. *)
Example sha256_abc :
  Crypto.hex (Crypto.sha256 (Crypto.bytes_of_string "abc")) =
  "ba7816bf8f01cfea414140de5dae2223b00361a396177a9cb410ff61f20015ad".
Proof. vm_compute. reflexivity. Qed.

Example sha256_two_blocks :
  Crypto.hex (Crypto.sha256 (Crypto.bytes_of_string
    "abcdbcdecdefdefgefghfghighijhijkijkljklmklmnlmnomnopnopq")) =
  "248d6a61d20638b8e5c026930c3e6039a33ce45964ff2167f6ecedd419db06c1".
Proof. vm_compute. reflexivity. Qed.

Example hmac_rfc4231_2 :
  Crypto.createHmacSha256Hex "Jefe" "what do ya want for nothing?" =
  "5bdcc146bf60754e6a042426089575c75a003f089d2739839dec58b964ec3843".
Proof. vm_compute. reflexivity. Qed.

Example hmac_long_key :
  Crypto.createHmacSha256Hex
    "kkkkkkkkkkkkkkkkkkkkkkkkkkkkkkkkkkkkkkkkkkkkkkkkkkkkkkkkkkkkkkkkkkkkkkkkkkkkkkkkkkkkkkkkkkkkkkkkkkkk"
    "abc.{}abc.{}abc.{}abc.{}abc.{}abc.{}abc.{}abc.{}abc.{}abc.{}abc.{}abc.{}abc.{}abc.{}abc.{}abc.{}abc.{}abc.{}abc.{}abc.{}abc.{}abc.{}abc.{}abc.{}abc.{}abc.{}abc.{}abc.{}abc.{}abc.{}" =
  "51e2f07a3f67003ac5407bb53943bb8e2a0c6c4ab24adaaa1af5345ed03906e7".
Proof. vm_compute. reflexivity. Qed.

Example hmac_fox :
  Crypto.createHmacSha256Hex "key" "The quick brown fox jumps over the lazy dog" =
  "f7bc83f430538424b13298e6aa6fb143ef4d59a14946175997479dbc2d1a3cd8".
Proof. vm_compute. reflexivity. Qed.


Lemma hexDigit_isHex n : Crypto.isHex (Crypto.hexDigit n) = true.
Proof.
  unfold Crypto.hexDigit.
  assert (∀ (i : nat) l d, forallb Crypto.isHex l = true → Crypto.isHex d = true →
            Crypto.isHex (nth i l d) = true) as Hnth.
  { intros i l. revert i. induction l as [|x l IH]; intros [|i] d Hl Hd;
      simpl in *; try done.
    - by apply andb_prop in Hl as [? _].
    - apply andb_prop in Hl as [_ ?]. by apply IH. }
  by apply Hnth.
Qed.

Lemma hex_isHex bs : JS.str_all Crypto.isHex (Crypto.hex bs) = true.
Proof.
  induction bs as [|b bs IH]; simpl; [done|].
  by rewrite !hexDigit_isHex, IH.
Qed.

Lemma hex_length bs : String.length (Crypto.hex bs) = (2 * length bs)%nat.
Proof. induction bs as [|b bs IH]; simpl; [done|]. rewrite IH. lia. Qed.

Lemma sha256_length msg : length (Crypto.sha256 msg) = 32%nat.
Proof.
  unfold Crypto.sha256.
  by generalize (fold_left Crypto.compress
    (Crypto.blocks (S (length (Crypto.words_of_bytes (Crypto.pad msg))))
       (Crypto.words_of_bytes (Crypto.pad msg))) Crypto.H_init).
Qed.

Lemma digest_length key msg :
  String.length (Crypto.createHmacSha256Hex key msg) = 64%nat.
Proof.
  unfold Crypto.createHmacSha256Hex, Crypto.hmac_sha256.
  by rewrite hex_length, sha256_length.
Qed.

Lemma digest_isHex key msg :
  JS.str_all Crypto.isHex (Crypto.createHmacSha256Hex key msg) = true.
Proof. apply hex_isHex. Qed.

Lemma digest_nonempty key msg :
  JS.nonempty (Crypto.createHmacSha256Hex key msg) = true.
Proof.
  pose proof (digest_length key msg) as Hlen.
  by destruct (Crypto.createHmacSha256Hex key msg).
Qed.

(** Neither separator of the signature header occurs in a digest. *)
Lemma digest_chars key msg sep :
  Crypto.isHex sep = false →
  JS.str_all (JS.isnt sep) (Crypto.createHmacSha256Hex key msg) = true.
Proof.
  intros Hsep. eapply str_all_impl; [|apply digest_isHex].
  intros c Hc. unfold JS.isnt. apply negb_true_iff.
  destruct (Ascii.eqb_spec c sep) as [->|]; [congruence|done].
Qed.

Lemma timingSafeEqual_refl a : Crypto.timingSafeEqual a a = Some true.
Proof.
  unfold Crypto.timingSafeEqual.
  by rewrite Nat.eqb_refl, String.eqb_refl.
Qed.

(** The comparison is true exactly on equal strings, whether it
    returns or throws. *)
Lemma timingSafeEqual_true a b :
  default false (Crypto.timingSafeEqual a b) = true ↔ a = b.
Proof.
  unfold Crypto.timingSafeEqual. split.
  - destruct (Nat.eqb_spec (Crypto.byteLength a) (Crypto.byteLength b));
      simpl; [|done]. by intros ?%String.eqb_eq.
  - intros ->. by rewrite Nat.eqb_refl, String.eqb_refl.
Qed.


(** ** Webhook signatures *)

Section WebhookFacts.

(** One turn of the loop that fills [signatureParts]. *)
Let addPart (parts : gmap string string) (part : string) :=
  match JS.split "=" part with
  | key :: value :: _ =>
      if JS.nonempty key && JS.nonempty value
      then <[key := value]> parts else parts
  | _ => parts
  end.

Lemma nonempty_true s : JS.nonempty s = true ↔ s ≠ "".
Proof. by destruct s. Qed.

Lemma addPart_lookup_None key parts part :
  key ≠ "" →
  addPart parts part !! key = None ↔
  parts !! key = None ∧
  ∀ value rest, JS.split "=" part = key :: value :: rest → value = "".
Proof.
  intros Hkey. unfold addPart.
  destruct (JS.split "=" part) as [|k [|v rest]]; [naive_solver..|].
  destruct (JS.nonempty k) eqn:Hk, (JS.nonempty v) eqn:Hv; simpl.
  - apply nonempty_true in Hv.
    destruct (decide (k = key)) as [->|Hne].
    + rewrite lookup_insert_eq. naive_solver.
    + rewrite lookup_insert_ne by done. naive_solver.
  - destruct v; naive_solver.
  - destruct k; naive_solver.
  - destruct k; naive_solver.
Qed.

Lemma fold_lookup_None key pieces : ∀ parts,
  key ≠ "" →
  fold_left addPart pieces parts !! key = None ↔
  parts !! key = None ∧
  ∀ part value rest,
    part ∈ pieces → JS.split "=" part = key :: value :: rest → value = "".
Proof.
  induction pieces as [|p pieces IH]; intros parts Hkey; simpl.
  - split; [|naive_solver]. intros ?. split; [done|].
    intros ??? []%elem_of_nil.
  - rewrite IH, addPart_lookup_None by done. split.
    + intros [[? Hp] Hrest]. split; [done|].
      intros part value rest [->|?]%elem_of_cons; eauto.
    + intros [? Hall]. repeat split; [done|..].
      * intros value rest. apply Hall. by left.
      * intros part value rest ?. apply Hall. by right.
Qed.

(** A key is missing from [signatureParts] exactly when the header has
    no part for it with a non-empty value. *)
Lemma signatureParts_None key signature :
  key ≠ "" →
  signatureParts signature !! key = None ↔ ¬ hasPair key signature.
Proof.
  intros Hkey. unfold signatureParts. fold addPart.
  rewrite fold_lookup_None by done. unfold hasPair. split.
  - intros [_ Hall] (part & value & rest & Hin & Hsplit & Hne).
    apply Hne. eauto.
  - intros Hno. split; [apply lookup_empty|].
    intros part value rest Hin Hsplit.
    destruct (decide (value = "")) as [|Hne]; [done|].
    destruct Hno. by exists part, value, rest.
Qed.

(** The parts of a header in the format of [generateWebhookSignature]. *)
Lemma signatureParts_standard ts v1 :
  JS.str_all (JS.isnt ",") ts = true → JS.str_all (JS.isnt "=") ts = true →
  JS.str_all (JS.isnt ",") v1 = true → JS.str_all (JS.isnt "=") v1 = true →
  JS.nonempty ts = true → JS.nonempty v1 = true →
  signatureParts ("t=" +:+ ts +:+ ",v1=" +:+ v1) =
    <["v1" := v1]> (<["t" := ts]> ∅).
Proof.
  intros Hts1 Hts2 Hv1 Hv2 Hts Hv. unfold signatureParts.
  assert (JS.split "," ("t=" +:+ ts +:+ ",v1=" +:+ v1) =
            ["t=" +:+ ts; "v1=" +:+ v1]) as ->.
  { change ("t=" +:+ ts +:+ ",v1=" +:+ v1)
      with (("t=" +:+ ts) +:+ String "," ("v1=" +:+ v1)).
    rewrite split_first by (simpl; by rewrite Hts1).
    rewrite split_none by (simpl; by rewrite Hv1). done. }
  assert (JS.split "=" ("t=" +:+ ts) = ["t"; ts]) as Ht.
  { change ("t=" +:+ ts) with ("t" +:+ String "=" ts).
    rewrite split_first by done. by rewrite split_none. }
  assert (JS.split "=" ("v1=" +:+ v1) = ["v1"; v1]) as Hv1'.
  { change ("v1=" +:+ v1) with ("v1" +:+ String "=" v1).
    rewrite split_first by done. by rewrite split_none. }
  cbn [fold_left]. rewrite Ht, Hv1', Hts, Hv. done.
Qed.

(** Verification of a header in that format: the tolerance test on
    what [parseInt] reads, and the comparison with the digest. *)
Lemma verify_standard nowMs p k tol ts v1 :
  JS.str_all (JS.isnt ",") ts = true → JS.str_all (JS.isnt "=") ts = true →
  JS.str_all (JS.isnt ",") v1 = true → JS.str_all (JS.isnt "=") v1 = true →
  JS.nonempty ts = true → JS.nonempty v1 = true →
  verifyWebhookSignature nowMs
    {| payload := p; signature := "t=" +:+ ts +:+ ",v1=" +:+ v1;
       secret := k; tolerance := tol |} =
  negb (JS.gt (JS.abs (JS.sub (JS.Num (nowMs / 1000)) (JS.parseInt ts (Some 10))))
              (JS.Num (default 300 tol))) &&
  default false
    (Crypto.timingSafeEqual v1
       (Crypto.createHmacSha256Hex k (ts +:+ "." +:+ p))).
Proof.
  intros Hts1 Hts2 Hv1 Hv2 Hts Hv. unfold verifyWebhookSignature.
  cbn [signature payload secret tolerance].
  rewrite signatureParts_standard by done.
  rewrite lookup_insert_ne, lookup_insert_eq, lookup_insert_eq by done.
  cbn [JS.nonempty_opt default]. rewrite Hts, Hv. cbn [negb orb].
  destruct (JS.gt _ _); [done|]. cbn [negb andb].
  by destruct (Crypto.timingSafeEqual _ _).
Qed.

(** C1. For every payload and secret, a signature produced by
    [generateWebhookSignature] is accepted by [verifyWebhookSignature]
    under the same secret and the default tolerance, when the verifier's
    clock is equal to the generation time or within 300 seconds of it. *)
Theorem verify_generated_signature (p k : string) (genMs verMs : Z) :
  Z.abs (verMs / 1000 - genMs / 1000) <= 300 →
  verifyWebhookSignature verMs
    {| payload := p; signature := generateWebhookSignature genMs p k;
       secret := k; tolerance := None |} = true.
Proof.
  intros Hclock. unfold generateWebhookSignature.
  rewrite verify_standard;
    [|by apply numberToString_chars|by apply numberToString_chars
     |by apply digest_chars|by apply digest_chars
     |apply numberToString_nonempty|apply digest_nonempty].
  rewrite parseInt_numberToString, timingSafeEqual_refl. simpl.
  rewrite andb_true_r. apply negb_true_iff, Z.ltb_ge. done.
Qed.

Lemma verify_generated_signature_witness :
  Z.abs (1700000250999 / 1000 - 1700000000123 / 1000) <= 300 ∧
  verifyWebhookSignature 1700000250999
    {| payload := "hello";
       signature := generateWebhookSignature 1700000000123 "hello" "whsec_test";
       secret := "whsec_test"; tolerance := None |} = true.
Proof.
  split; [vm_compute; discriminate|].
  apply (verify_generated_signature "hello" "whsec_test"
           1700000000123 1700000250999).
  vm_compute; discriminate.
Defined.

(** C2, the claim as stated, fails: neither header has a well-formed
    [t] (a value of digits only), and both are accepted.  In the first,
    [parseInt] reads the leading 1700000000; in the second it reads
    nothing, and the comparison of NaN with the tolerance is false. *)
Lemma verify_accepts_malformed_timestamp :
  let trailing :=
    "t=1700000000abc,v1=3e6a9450ac24c5f51eaeaf851a6d9b18e1ad5748e480aff324fceb8e5695fd0e" in
  let unreadable :=
    "t=abc,v1=153da9a1c28317f1a14e8644592a8718ed9d55599c958955a49e9515ee80877c" in
  (spec_wellFormedKey "t" JS.isDigit trailing = false ∧
   verifyWebhookSignature 1700000000000
     {| payload := "hello"; signature := trailing;
        secret := "whsec_test"; tolerance := None |} = true) ∧
  (spec_wellFormedKey "t" JS.isDigit unreadable = false ∧
   verifyWebhookSignature 1700000000000
     {| payload := "hello"; signature := unreadable;
        secret := "whsec_test"; tolerance := None |} = true).
Proof. repeat split; vm_compute; reflexivity. Qed.

(** C2, amended. [verifyWebhookSignature] returns false whenever the
    header has no part [t=value] or no part [v1=value] with a non-empty
    value, and whenever the integer that [parseInt] reads at the start of
    the [t] value is further than the tolerance from the clock, whatever
    [v1] is (the correct HMAC included).  The [t] value is not required
    to be all digits. *)
Theorem verify_rejects (nowMs : Z) (options : WebhookVerifyOptions) :
  (¬ hasPair "t" (signature options) ∨ ¬ hasPair "v1" (signature options) →
   verifyWebhookSignature nowMs options = false) ∧
  (∀ ts n,
     signatureParts (signature options) !! "t" = Some ts →
     JS.parseInt ts (Some 10) = JS.Num n →
     Z.abs (nowMs / 1000 - n) > default 300 (tolerance options) →
     verifyWebhookSignature nowMs options = false).
Proof.
  split.
  - intros Hmissing. unfold verifyWebhookSignature.
    destruct Hmissing as [Ht|Hv];
      apply signatureParts_None in Ht || apply signatureParts_None in Hv;
      try done.
    + by rewrite Ht.
    + rewrite Hv. simpl. by rewrite orb_true_r.
  - intros ts n Hts Hparse Hold. unfold verifyWebhookSignature.
    cbv zeta. rewrite Hts. change (default "" (Some ts)) with ts.
    destruct (negb _ || negb _); [done|].
    rewrite Hparse. simpl.
    destruct (Z.ltb_spec (default 300 (tolerance options))
                (Z.abs (nowMs / 1000 - n))); [done|lia].
Qed.

(** A valid digest for an old timestamp is still rejected; so is a
    header without [v1]. *)
Lemma verify_rejects_witness :
  let old :=
    {| payload := "hello";
       signature := "t=1600000000,v1=9d24b3d9f4adf91db1e5e707fd12789ab76eec0919e2b80a66cc92125cb5b38d";
       secret := "whsec_test"; tolerance := None |} in
  let bare :=
    {| payload := "hello"; signature := "t=1700000000";
       secret := "whsec_test"; tolerance := None |} in
  Crypto.createHmacSha256Hex "whsec_test" "1600000000.hello" =
    "9d24b3d9f4adf91db1e5e707fd12789ab76eec0919e2b80a66cc92125cb5b38d" ∧
  verifyWebhookSignature 1700000000000 old = false ∧
  verifyWebhookSignature 1700000000000 bare = false.
Proof.
  split; [vm_compute; reflexivity|]. split.
  - apply (proj2 (verify_rejects 1700000000000 _) "1600000000" 1600000000);
      vm_compute; reflexivity.
  - apply (proj1 (verify_rejects 1700000000000 _)). right.
    apply signatureParts_None; [done|]. vm_compute. reflexivity.
Defined.

(** Whatever is accepted carries, as [v1], the digest of its own [t]
    value and the payload under the secret: a header whose [v1] differs
    in any character is rejected. *)
Theorem verify_accepts_only_digest (nowMs : Z) (options : WebhookVerifyOptions) :
  verifyWebhookSignature nowMs options = true →
  ∃ ts v1,
    signatureParts (signature options) !! "t" = Some ts ∧
    signatureParts (signature options) !! "v1" = Some v1 ∧
    v1 = Crypto.createHmacSha256Hex (secret options)
           (ts +:+ "." +:+ payload options).
Proof.
  unfold verifyWebhookSignature. cbv zeta.
  destruct (signatureParts (signature options) !! "t") as [ts|]; [|done].
  destruct (signatureParts (signature options) !! "v1") as [v1|];
    [|by rewrite orb_true_r].
  destruct (negb _ || negb _); [done|].
  destruct (JS.gt _ _); [done|].
  change (default "" (Some ts)) with ts. change (default "" (Some v1)) with v1.
  intros Hequal. exists ts, v1. split_and!; [done..|].
  apply timingSafeEqual_true.
  by destruct (Crypto.timingSafeEqual _ _).
Qed.

Lemma verify_accepts_only_digest_witness :
  ∃ ts v1,
    signatureParts (generateWebhookSignature 1700000000123 "hello" "whsec_test")
      !! "t" = Some ts ∧
    signatureParts (generateWebhookSignature 1700000000123 "hello" "whsec_test")
      !! "v1" = Some v1 ∧
    v1 = Crypto.createHmacSha256Hex "whsec_test" (ts +:+ "." +:+ "hello").
Proof.
  apply (verify_accepts_only_digest 1700000000123
           {| payload := "hello";
              signature := generateWebhookSignature 1700000000123 "hello" "whsec_test";
              secret := "whsec_test"; tolerance := None |}).
  vm_compute. reflexivity.
Defined.

(** A [t] value in which [parseInt] finds no integer passes the
    tolerance test at every clock value, since no comparison with NaN
    holds: such a header is accepted exactly when [v1] is the digest of
    that [t] value and the payload. *)
Theorem verify_unreadable_timestamp nowMs p k tol ts v1 :
  JS.str_all (JS.isnt ",") ts = true → JS.str_all (JS.isnt "=") ts = true →
  JS.str_all (JS.isnt ",") v1 = true → JS.str_all (JS.isnt "=") v1 = true →
  JS.nonempty ts = true → JS.nonempty v1 = true →
  JS.parseInt ts (Some 10) = JS.NaN →
  verifyWebhookSignature nowMs
    {| payload := p; signature := "t=" +:+ ts +:+ ",v1=" +:+ v1;
       secret := k; tolerance := tol |} =
  default false
    (Crypto.timingSafeEqual v1
       (Crypto.createHmacSha256Hex k (ts +:+ "." +:+ p))).
Proof.
  intros ?????? Hnan. rewrite verify_standard by done. by rewrite Hnan.
Qed.

Lemma verify_unreadable_timestamp_witness :
  verifyWebhookSignature 4102444800000
    {| payload := "hello";
       signature := "t=abc,v1=153da9a1c28317f1a14e8644592a8718ed9d55599c958955a49e9515ee80877c";
       secret := "whsec_test"; tolerance := None |} = true.
Proof.
  etransitivity.
  - apply (verify_unreadable_timestamp 4102444800000 "hello" "whsec_test" None
             "abc" "153da9a1c28317f1a14e8644592a8718ed9d55599c958955a49e9515ee80877c");
      vm_compute; reflexivity.
  - vm_compute. reflexivity.
Defined.

End WebhookFacts.

(** ** The retry engine *)

Section RetryFacts.

Context {T : Type} (fn : nat → outcome T) (cfg : RetryConfig).

(** The loop needs one unit of fuel per remaining attempt, and one for
    the last test of its condition. *)
Lemma withRetry_loop_total fuel : ∀ attempt delay calls,
  (Z.to_nat (maxAttempts cfg - attempt) < fuel)%nat →
  is_Some (withRetry_loop fuel cfg fn attempt delay calls).
Proof.
  induction fuel as [|fuel IH]; intros attempt delay calls Hfuel; [lia|].
  simpl. destruct (Z.ltb_spec attempt (maxAttempts cfg)); [|done].
  destruct (fn calls) as [v|e]; [done|].
  destruct (negb (shouldRetry cfg e)); simpl; [done|].
  destruct (Z.leb_spec (maxAttempts cfg) (attempt + 1)); [done|].
  apply fmap_is_Some, IH. lia.
Qed.

(** The loop stops at this invocation: the facts about the run are
    read off the record it returns. *)
Local Ltac loop_stops H :=
  injection H as <-; simpl;
  rewrite ?Nat.sub_0_r, ?Nat.sub_diag;
  repeat split; try done; try lia; try (intros; lia).

(** What a run of the loop that starts below [maxAttempts] did. *)
Lemma withRetry_loop_spec fuel : ∀ attempt delay calls run,
  withRetry_loop fuel cfg fn attempt delay calls = Some run →
  attempt < maxAttempts cfg →
  (calls < invocations run)%nat ∧
  Z.of_nat (invocations run - calls) <= maxAttempts cfg - attempt ∧
  settled run = fn (invocations run - 1)%nat ∧
  length (sleeps run) = (invocations run - 1 - calls)%nat ∧
  (∀ i, (calls <= i < invocations run - 1)%nat →
        ∃ e, fn i = Rejected e ∧ shouldRetry cfg e = true) ∧
  (Z.of_nat (invocations run - calls) < maxAttempts cfg - attempt →
   match settled run with
   | Resolved _ => True
   | Rejected e => shouldRetry cfg e = false
   end).
Proof.
  induction fuel as [|fuel IH]; intros attempt delay calls run Hrun Hlt;
    [done|].
  simpl in Hrun. destruct (Z.ltb_spec attempt (maxAttempts cfg)); [|lia].
  destruct (fn calls) as [v|e] eqn:Hfn.
  { loop_stops Hrun. }
  destruct (shouldRetry cfg e) eqn:Hretry; simpl in Hrun.
  2:{ loop_stops Hrun. }
  destruct (Z.leb_spec (maxAttempts cfg) (attempt + 1)).
  { loop_stops Hrun. }
  destruct (withRetry_loop fuel cfg fn (attempt + 1) _ (S calls))
    as [run'|] eqn:Hrest; [|done].
  injection Hrun as <-. simpl.
  destruct (IH _ _ _ _ Hrest) as (Hcalls & Hcount & Hlast & Hsleeps & Hall & Hearly);
    [lia|].
  repeat split; try done; try lia.
  - intros i Hi. destruct (decide (i = calls)) as [->|]; [eauto|].
    apply Hall. lia.
  - intros Hshort. apply Hearly. lia.
Qed.

Lemma withRetry_loop_waits fuel : ∀ attempt delay calls run,
  withRetry_loop fuel cfg fn attempt delay calls = Some run →
  waitsFrom fn cfg calls delay (sleeps run).
Proof.
  induction fuel as [|fuel IH]; intros attempt delay calls run Hrun; [done|].
  simpl in Hrun. destruct (attempt <? maxAttempts cfg).
  2:{ by injection Hrun as <-. }
  destruct (fn calls) as [v|e] eqn:Hfn.
  { by injection Hrun as <-. }
  destruct (negb (shouldRetry cfg e) || (maxAttempts cfg <=? attempt + 1)).
  { by injection Hrun as <-. }
  destruct (withRetry_loop fuel cfg fn (attempt + 1) _ (S calls))
    as [run'|] eqn:Hrest; [|done].
  injection Hrun as <-. simpl.
  exists e. repeat split; [done|]. by eapply IH.
Qed.

(** The recurrence, wait by wait. *)
Lemma waitsFrom_lookup ws : ∀ k delay j w,
  waitsFrom fn cfg k delay ws → ws !! j = Some w →
  ∃ e, fn (k + j)%nat = Rejected e ∧
       (∀ ms, retryAfterDelay e = Some ms → w = ms) ∧
       (∀ w', ws !! S j = Some w' →
              ∃ e', fn (k + S j)%nat = Rejected e' ∧
                    w' = default (Z.min (w * backoffFactor cfg) (maxDelay cfg))
                           (retryAfterDelay e')).
Proof.
  induction ws as [|w0 ws IH]; intros k delay j w Hws Hj; [done|].
  destruct Hws as (e & Hfn & Hw0 & Hrest). destruct j as [|j].
  - injection Hj as <-. exists e. rewrite Nat.add_0_r.
    repeat split; [done|..].
    + intros ms Hms. by rewrite Hw0, Hms.
    + intros w' Hw'. destruct ws as [|w1 ws]; [done|].
      injection Hw' as <-. destruct Hrest as (e' & Hfn' & -> & _).
      exists e'. by rewrite Nat.add_1_r.
  - simpl in Hj. destruct (IH _ _ _ _ Hrest Hj) as (e' & Hfn' & Hhint & Hnext).
    exists e'. replace (k + S j)%nat with (S k + j)%nat by lia.
    repeat split; [done..|].
    intros w' Hw'. replace (k + S (S j))%nat with (S k + S j)%nat by lia.
    by apply Hnext.
Qed.

End RetryFacts.

Section RetryClaims.

Context {T : Type} (fn : nat → outcome T) (config : PartialRetryConfig).

Let cfg := mergeConfig config.

(** [withRetry] returns: the fuel it gives its loop is enough. *)
Lemma withRetry_total : is_Some (withRetry fn config).
Proof. unfold withRetry. apply withRetry_loop_total. lia. Qed.

(** C6. For every policy with [maxAttempts >= 1] and every operation,
    [withRetry] settles the way the last invocation of the operation
    settled, so an error that propagates is the underlying error itself
    and never the synthetic "Max retry attempts reached"; a first failure
    that is not retryable propagates after exactly one invocation; with
    an empty retryable set the operation is invoked exactly once; and
    when every attempt fails with a retryable error, [maxAttempts]
    invocations are made and the last error propagates. *)
Theorem withRetry_propagates_last_error :
  1 <= maxAttempts cfg →
  ∃ run,
    withRetry fn config = Some run ∧
    (1 <= invocations run)%nat ∧
    Z.of_nat (invocations run) <= maxAttempts cfg ∧
    settled run = fn (invocations run - 1)%nat ∧
    (∀ e, fn 0%nat = Rejected e → shouldRetry cfg e = false →
          invocations run = 1%nat ∧ settled run = Rejected e) ∧
    (retryOn cfg = [] → invocations run = 1%nat) ∧
    ((∀ k, Z.of_nat k < maxAttempts cfg →
           ∃ e, fn k = Rejected e ∧ shouldRetry cfg e = true) →
     Z.of_nat (invocations run) = maxAttempts cfg ∧
     settled run = fn (Z.to_nat (maxAttempts cfg) - 1)%nat).
Proof.
  intros Hmax. destruct withRetry_total as [run Hrun]. exists run.
  split; [done|]. unfold withRetry in Hrun.
  apply withRetry_loop_spec in Hrun as (Hcalls & Hcount & Hlast & _ & Hall & Hearly);
    [|fold cfg; lia].
  fold cfg in Hcount, Hall, Hearly.
  rewrite Nat.sub_0_r in Hcount, Hearly.
  assert (∀ e, fn 0%nat = Rejected e → shouldRetry cfg e = false →
               invocations run = 1%nat) as Hfirst.
  { intros e Hfn Hno.
    destruct (decide (invocations run = 1%nat)) as [|Hmore]; [done|].
    destruct (Hall 0%nat) as (e' & Hfn' & Hyes); [lia|]. congruence. }
  split_and!; [lia|lia|done|..].
  - intros e Hfn Hno. rewrite Hlast, (Hfirst e Hfn Hno). done.
  - intros Hempty.
    destruct (decide (invocations run = 1%nat)) as [|Hmore]; [done|].
    destruct (Hall 0%nat) as (e' & _ & Hyes); [lia|].
    unfold shouldRetry in Hyes. by rewrite Hempty in Hyes.
  - intros Hfail.
    assert (Z.of_nat (invocations run) = maxAttempts cfg) as Heq.
    { destruct (decide (Z.of_nat (invocations run) = maxAttempts cfg)); [done|].
      destruct (Hfail (invocations run - 1)%nat) as (e & Hfn & Hyes); [lia|].
      rewrite Hlast, Hfn in Hearly. rewrite Hearly in Hyes by lia. done. }
    split; [done|]. rewrite Hlast. do 2 f_equal. lia.
Qed.

(** C3, amended. Each invocation but the last is followed by one wait.
    When the error of invocation [i] is a RateLimit error whose
    [retryAfter] is a number [r] other than 0 and a next attempt is made,
    the wait before it is exactly [r * 1000] ms, not the current delay;
    that wait replaces the current delay, so it takes part in the
    geometric sequence: a following retry without a hint waits
    [min (r * 1000 * backoffFactor) maxDelay]. *)
Theorem withRetry_hinted_wait :
  ∃ run,
    withRetry fn config = Some run ∧
    ∀ i e r,
      (i < length (sleeps run))%nat →
      fn i = Rejected e →
      cls e = RateLimitError → retryAfter e = Some (JS.Num r) → r ≠ 0 →
      sleeps run !! i = Some (r * 1000) ∧
      ∀ e', (S i < length (sleeps run))%nat →
            fn (S i) = Rejected e' → retryAfterDelay e' = None →
            sleeps run !! S i =
              Some (Z.min (r * 1000 * backoffFactor cfg) (maxDelay cfg)).
Proof.
  destruct withRetry_total as [run Hrun]. exists run. split; [done|].
  unfold withRetry in Hrun. apply withRetry_loop_waits in Hrun.
  fold cfg in Hrun.
  intros i e r Hi Hfn Hcls Hafter Hr.
  assert (retryAfterDelay e = Some (r * 1000)) as Hhint.
  { unfold retryAfterDelay, instanceOf. rewrite Hcls, Hafter. simpl.
    by destruct (Z.eqb_spec r 0). }
  destruct (lookup_lt_is_Some_2 _ _ Hi) as [w Hw].
  destruct (waitsFrom_lookup _ _ _ _ _ _ _ Hrun Hw) as (e0 & Hfn0 & Hms & Hnext).
  simpl in Hfn0. rewrite Hfn in Hfn0. injection Hfn0 as <-.
  rewrite (Hms _ Hhint) in Hw, Hnext. split; [done|].
  intros e' Hi' Hfn' Hnone.
  destruct (lookup_lt_is_Some_2 _ _ Hi') as [w' Hw'].
  destruct (Hnext _ Hw') as (e1 & Hfn1 & ->).
  simpl in Hfn1. rewrite Hfn' in Hfn1. injection Hfn1 as <-.
  by rewrite Hw', Hnone.
Qed.

(** When no error carries a usable hint, the waits are the geometric
    schedule: [initialDelay], then each time the backoff factor more, capped
    at [maxDelay]. *)
Theorem withRetry_backoff_schedule :
  (∀ i e, fn i = Rejected e → retryAfterDelay e = None) →
  ∃ run,
    withRetry fn config = Some run ∧
    ∀ i, (i < length (sleeps run))%nat →
         sleeps run !! i = Some (backoffDelay cfg i).
Proof.
  intros Hplain. destruct withRetry_total as [run Hrun]. exists run.
  split; [done|]. unfold withRetry in Hrun.
  apply withRetry_loop_waits in Hrun. fold cfg in Hrun.
  change (initialDelay cfg) with (backoffDelay cfg 0) in Hrun.
  assert (∀ ws k, waitsFrom fn cfg k (backoffDelay cfg k) ws →
            ∀ i, (i < length ws)%nat →
                 ws !! i = Some (backoffDelay cfg (k + i))) as Hschedule.
  { induction ws as [|w0 ws IH]; intros k Hws i Hi; [simpl in Hi; lia|].
    destruct Hws as (e & Hfn & -> & Hrest).
    rewrite (Hplain _ _ Hfn) in Hrest |- *. simpl in Hrest.
    destruct i as [|i]; simpl.
    - by rewrite Nat.add_0_r.
    - simpl in Hi. rewrite (IH (S k) Hrest i) by lia.
      by rewrite Nat.add_succ_comm. }
  intros i Hi. by rewrite (Hschedule _ 0%nat Hrun i Hi).
Qed.

End RetryClaims.

Lemma withRetry_propagates_last_error_witness :
  ∃ run : retryRun string,
    withRetry (mockFn [] (Rejected serverDown)) emptyConfig = Some run ∧
    (1 <= invocations run)%nat ∧
    Z.of_nat (invocations run) <= 3 ∧
    settled run = Rejected serverDown.
Proof.
  destruct (withRetry_propagates_last_error
              (mockFn [] (Rejected serverDown : outcome string)) emptyConfig)
    as (run & Hrun & Hmin & Hmax & Hlast & _); [vm_compute; discriminate|].
  exists run. split_and!; [done|done|done|].
  rewrite Hlast. unfold mockFn. by destruct (invocations run - 1)%nat.
Defined.

Lemma withRetry_hinted_wait_witness :
  let fn := mockFn [Rejected (rateLimited (Some (JS.Num 5)));
                    Rejected serverDown] (Resolved "ok") in
  ∃ run : retryRun string,
    withRetry fn emptyConfig = Some run ∧
    (0 < length (sleeps run))%nat ∧
    sleeps run !! 0%nat = Some 5000 ∧
    sleeps run !! 1%nat = Some 10000.
Proof.
  intros fn.
  destruct (withRetry_hinted_wait fn emptyConfig) as (run & Hrun & Hwaits).
  exists run. split; [done|].
  assert (length (sleeps run) = 2%nat) as Hlen.
  { vm_compute in Hrun. by injection Hrun as <-. }
  destruct (Hwaits 0%nat (rateLimited (Some (JS.Num 5))) 5) as [H0 H1];
    [lia|done..|].
  split; [lia|]. split; [done|].
  apply (H1 serverDown); [lia|done..].
Defined.

(** The sequence of the specification: 1000, 2000, 4000, ... capped at
    60000. *)
Lemma withRetry_backoff_schedule_witness :
  ∃ run : retryRun string,
    withRetry (mockFn [] (Rejected serverDown))
      {| opt_maxAttempts := Some 9; opt_backoffFactor := None;
         opt_initialDelay := None; opt_maxDelay := None; opt_retryOn := None |}
      = Some run ∧
    sleeps run = [1000; 2000; 4000; 8000; 16000; 32000; 60000; 60000].
Proof.
  destruct (withRetry_backoff_schedule
              (mockFn [] (Rejected serverDown : outcome string))
              {| opt_maxAttempts := Some 9; opt_backoffFactor := None;
                 opt_initialDelay := None; opt_maxDelay := None;
                 opt_retryOn := None |})
    as (run & Hrun & _).
  - intros i e Hfn. unfold mockFn in Hfn.
    assert (e = serverDown) as -> by (destruct i; simpl in Hfn; congruence).
    reflexivity.
  - exists run. split; [done|]. vm_compute in Hrun. by injection Hrun as <-.
Defined.

(** C3, the claim as stated, fails on both counts.  With the default
    policy, a RateLimit error with [retryAfter = 5] followed by a server
    error makes the waits 5000 and then 10000 (the hint times the backoff
    factor), where the claim has 5000 and then 1000; and a RateLimit error
    with [retryAfter = 0] is followed by a wait of the current delay,
    1000, where the claim has 0. *)
Lemma withRetry_hint_enters_backoff :
  let hinted := mockFn [Rejected (rateLimited (Some (JS.Num 5)));
                        Rejected serverDown] (Resolved "ok") in
  let zero := mockFn [Rejected (rateLimited (Some (JS.Num 0)))] (Resolved "ok") in
  (sleeps <$> withRetry hinted emptyConfig = Some [5000; 10000] ∧
   spec_waits defaultConfig 1000
     [rateLimited (Some (JS.Num 5)); serverDown] = [5000; 1000]) ∧
  (sleeps <$> withRetry zero emptyConfig = Some [1000] ∧
   spec_waits defaultConfig 1000 [rateLimited (Some (JS.Num 0))] = [0]).
Proof. vm_compute. done. Qed.

(** ** The HTTP error mapper *)

Lemma prefix_spec needle s :
  String.prefix needle s = true ↔ ∃ post, s = needle +:+ post.
Proof.
  revert s. induction needle as [|c needle IH]; intros s.
  - split; [eauto|]. by destruct s.
  - destruct s as [|d s]; simpl.
    + split; [done|]. by intros [post ?].
    + destruct (ascii_dec c d) as [->|Hne].
      * rewrite IH. split; intros [post Hpost]; exists post; congruence.
      * split; [done|]. intros [post Hpost]. congruence.
Qed.

(** [includes] finds exactly the substrings. *)
Lemma includes_spec needle s :
  JS.includes needle s = true ↔ ∃ pre post, s = pre +:+ needle +:+ post.
Proof.
  induction s as [|c s IH]; cbn [JS.includes].
  - rewrite orb_false_r, prefix_spec. split.
    + intros [post ->]. by exists "", post.
    + intros (pre & post & Heq). destruct pre; [by exists post|done].
  - rewrite orb_true_iff, prefix_spec, IH. split.
    + intros [[post ->]|(pre & post & ->)].
      * by exists "", post.
      * by exists (String c pre), post.
    + intros (pre & post & Heq). destruct pre as [|d pre].
      * left. by exists post.
      * right. injection Heq as -> ->. by exists pre, post.
Qed.

Lemma toLowerCase_app a b :
  JS.toLowerCase (a +:+ b) = JS.toLowerCase a +:+ JS.toLowerCase b.
Proof. induction a as [|c a IH]; simpl; [done|]. by rewrite IH. Qed.

Lemma toLowerCase_split a : ∀ s b,
  JS.toLowerCase s = a +:+ b →
  ∃ a' b', s = a' +:+ b' ∧ JS.toLowerCase a' = a ∧ JS.toLowerCase b' = b.
Proof.
  induction a as [|c a IH]; intros s b Hs.
  - by exists "", s.
  - destruct s as [|d s]; [done|]. simpl in Hs. injection Hs as Hc Hs.
    destruct (IH _ _ Hs) as (a' & b' & -> & Ha & Hb).
    exists (String d a'), b'. simpl. by rewrite Hc, Ha.
Qed.

(** The test of the mapper, [message.toLowerCase().includes(needle)],
    is containment with letter case ignored. *)
Lemma includes_toLowerCase needle s :
  JS.includes needle (JS.toLowerCase s) = true ↔ containsIgnoringCase needle s.
Proof.
  rewrite includes_spec. unfold containsIgnoringCase. split.
  - intros (pre & post & Heq).
    apply toLowerCase_split in Heq as (pre' & rest & -> & _ & Hrest).
    apply toLowerCase_split in Hrest as (mid & post' & -> & Hmid & _).
    by exists pre', mid, post'.
  - intros (pre & mid & post & -> & <-).
    exists (JS.toLowerCase pre), (JS.toLowerCase post).
    by rewrite !toLowerCase_app.
Qed.

(** C5. For every response, the mapper raises nothing below status
    400 and otherwise exactly one error, whose class follows the table:
    401 Authentication; 403 InsufficientScope when the message contains
    "scope" in any letter case and Authentication otherwise; 404
    NotFound; 422 Validation; 429 RateLimit; 500 and above Server; any
    other status from 400 on the generic CanveleteError.  The error
    carries the parsed message. *)
Theorem handleResponseErrors_kind (response : Response) :
  let st := status response in
  let msg := errorMessage response in
  let thrown := handleResponseErrors response in
  (st < 400 → thrown = None) ∧
  (400 <= st → ∃ e, thrown = Some e ∧ message e = msg) ∧
  (st = 401 → cls <$> thrown = Some AuthenticationError) ∧
  (st = 403 → containsIgnoringCase "scope" msg →
     cls <$> thrown = Some InsufficientScopeError) ∧
  (st = 403 → ¬ containsIgnoringCase "scope" msg →
     cls <$> thrown = Some AuthenticationError) ∧
  (st = 404 → cls <$> thrown = Some NotFoundError) ∧
  (st = 422 → cls <$> thrown = Some ValidationError) ∧
  (st = 429 → cls <$> thrown = Some RateLimitError) ∧
  (500 <= st → cls <$> thrown = Some ServerError) ∧
  (400 <= st < 500 → st ∉ [401; 403; 404; 422; 429] →
     cls <$> thrown = Some CanveleteError).
Proof.
  intros st msg thrown. subst thrown. unfold handleResponseErrors.
  fold st msg.
  pose proof (includes_toLowerCase "scope" msg) as Hscope.
  split_and!.
  - intros ?. by destruct (Z.ltb_spec st 400); [|lia].
  - intros ?. destruct (Z.ltb_spec st 400); [lia|].
    eexists; split; [done|].
    repeat case_match; done.
  - intros ->. done.
  - intros -> Hyes. simpl. apply Hscope in Hyes. by rewrite Hyes.
  - intros -> Hno. simpl.
    destruct (JS.includes "scope" (JS.toLowerCase msg)); [|done].
    destruct Hno. by apply Hscope.
  - intros ->. done.
  - intros ->. done.
  - intros ->. done.
  - intros ?. destruct (Z.ltb_spec st 400); [lia|].
    repeat match goal with
           | |- context [st =? ?n] => destruct (Z.eqb_spec st n); [lia|]
           end.
    by destruct (Z.leb_spec 500 st); [|lia].
  - intros ? Hother. destruct (Z.ltb_spec st 400); [lia|].
    repeat match goal with
           | |- context [st =? ?n] =>
               destruct (Z.eqb_spec st n) as [Heq|];
               [destruct Hother; rewrite Heq; set_solver|]
           end.
    by destruct (Z.leb_spec 500 st); [lia|].
Qed.

(** The two 403 scenarios of the specification. *)
Lemma handleResponseErrors_kind_witness :
  let forbidden msg :=
    {| status := 403; retryAfterHeader := None;
       json := Some {| body_error := Some msg; body_message := None |} |} in
  cls <$> handleResponseErrors (forbidden "insufficient scope for this action")
    = Some InsufficientScopeError ∧
  cls <$> handleResponseErrors (forbidden "forbidden")
    = Some AuthenticationError.
Proof.
  intros forbidden. split.
  - apply (handleResponseErrors_kind
             (forbidden "insufficient scope for this action")); [done|].
    by exists "insufficient ", "scope", " for this action".
  - apply (handleResponseErrors_kind (forbidden "forbidden")); [done|].
    intros Hscope%includes_toLowerCase. vm_compute in Hscope. done.
Defined.

(** The 429 scenario of the specification. *)
Example handleResponseErrors_429 :
  handleResponseErrors
    {| status := 429; retryAfterHeader := Some "10";
       json := Some {| body_error := Some "slow down"; body_message := None |} |}
  = Some (newRateLimitError "slow down" (Some (JS.Num 10)) (Some 429)
            (Some {| status := 429; retryAfterHeader := Some "10";
                     json := Some {| body_error := Some "slow down";
                                     body_message := None |} |})).
Proof. reflexivity. Qed.

(** C4 fails on a [Retry-After] header that is not a number, such as
    the HTTP date form: [retryAfter] is then NaN, where the claim has
    null. *)
Lemma handleResponseErrors_unparsable_retry_after :
  retryAfter <$> handleResponseErrors
    {| status := 429;
       retryAfterHeader := Some "Wed, 21 Oct 2015 07:28:00 GMT";
       json := Some {| body_error := Some "slow down"; body_message := None |} |}
  = Some (Some JS.NaN).
Proof. reflexivity. Qed.

(** For a 429 response, [retryAfter] is null when the [Retry-After]
    header is absent or empty, and the number of seconds when the header
    is that number in decimal. *)
Theorem handleResponseErrors_retry_after (response : Response) :
  status response = 429 →
  (retryAfterHeader response = None ∨ retryAfterHeader response = Some "" →
   retryAfter <$> handleResponseErrors response = Some None) ∧
  (∀ n, 0 <= n →
        retryAfterHeader response = Some (JS.numberToString n) →
        retryAfter <$> handleResponseErrors response = Some (Some (JS.Num n))).
Proof.
  intros Hstatus. unfold handleResponseErrors. rewrite Hstatus. simpl. split.
  - by intros [->| ->].
  - intros n Hn ->. simpl.
    rewrite numberToString_nonempty, parseInt_auto_numberToString by done.
    done.
Qed.

Lemma handleResponseErrors_retry_after_witness :
  retryAfter <$> handleResponseErrors
    {| status := 429; retryAfterHeader := Some "10";
       json := Some {| body_error := Some "slow down"; body_message := None |} |}
  = Some (Some (JS.Num 10)).
Proof.
  apply (handleResponseErrors_retry_after
           {| status := 429; retryAfterHeader := Some "10";
              json := Some {| body_error := Some "slow down";
                              body_message := None |} |});
    [reflexivity|lia|reflexivity].
Defined.


(** ** The completion waits *)

Section WaitFacts.

Context (w : world) (target : string) (limit interval : Z).

Lemma after_after {T} evs evs' (r : outcome T * list event) :
  after evs (after evs' r) = after (evs ++ evs') r.
Proof. unfold after. simpl. by rewrite app_assoc. Qed.

Lemma rounds_S j n :
  rounds w interval j (S n) =
    [ReadClock (clock w (S j)); Fetch j; Sleep interval] ++
    rounds w interval (S j) n.
Proof. reflexivity. Qed.

(** [n] rounds in which the deadline has not passed and the status is
    not final take [n] units of fuel and leave the loop at poll
    [j + n]. *)
Lemma waitForCompletion_loop_rounds n : ∀ fuel j,
  (∀ i, (j <= i < j + n)%nat →
        elapsed w i < limit ∧
        ∃ st, statusOf w target i = Resolved st ∧ pending st) →
  waitForCompletion_loop (n + fuel) w target limit interval (clock w 0) (S j) j =
    after (rounds w interval j n) <$>
      waitForCompletion_loop fuel w target limit interval (clock w 0)
        (S (j + n)) (j + n).
Proof.
  induction n as [|n IH]; intros fuel j Hpending.
  - rewrite Nat.add_0_r. simpl.
    destruct (waitForCompletion_loop _ _ _ _ _ _ _ _) as [[??]|]; done.
  - destruct (Hpending j) as (Hclock & st & Hst & Hno1 & Hno2); [lia|].
    unfold elapsed in Hclock.
    cbn [Nat.add waitForCompletion_loop].
    destruct (Z.ltb_spec (clock w (S j) - clock w 0) limit); [|lia].
    rewrite Hst.
    destruct (String.eqb_spec (job_status st) "completed"); [done|].
    destruct (String.eqb_spec (job_status st) "failed"); [done|].
    rewrite IH by (intros i ?; apply Hpending; lia).
    rewrite rounds_S, <- Nat.add_succ_comm.
    destruct (waitForCompletion_loop _ _ _ _ _ _ _ _) as [r|]; [|done].
    simpl. by rewrite after_after.
Qed.

(** The same for the batch loop, whose rounds go on while the
    [completed] flag of the answer is false. *)
Lemma waitForBatch_loop_rounds n : ∀ fuel j,
  (∀ i, (j <= i < j + n)%nat →
        elapsed w i < limit ∧
        ∃ resp, batchStatusOf w target i = Resolved resp ∧
                completed resp = false) →
  waitForBatch_loop (n + fuel) w target limit interval (clock w 0) (S j) j =
    after (rounds w interval j n) <$>
      waitForBatch_loop fuel w target limit interval (clock w 0)
        (S (j + n)) (j + n).
Proof.
  induction n as [|n IH]; intros fuel j Hpending.
  - rewrite Nat.add_0_r. simpl.
    destruct (waitForBatch_loop _ _ _ _ _ _ _ _) as [[??]|]; done.
  - destruct (Hpending j) as (Hclock & resp & Hresp & Hflag); [lia|].
    unfold elapsed in Hclock.
    cbn [Nat.add waitForBatch_loop].
    destruct (Z.ltb_spec (clock w (S j) - clock w 0) limit); [|lia].
    rewrite Hresp, Hflag.
    rewrite IH by (intros i ?; apply Hpending; lia).
    rewrite rounds_S, <- Nat.add_succ_comm.
    destruct (waitForBatch_loop _ _ _ _ _ _ _ _) as [r|]; [|done].
    simpl. by rewrite after_after.
Qed.

Lemma waitForBatch_loop_ending fuel : ∀ j r,
  (∀ k, ∃ resp, batchStatusOf w target k = Resolved resp) →
  waitForBatch_loop fuel w target limit interval (clock w 0) (S j) j = Some r →
  batchEnding w target limit interval j r.
Proof.
  induction fuel as [|fuel IH]; intros j r Hanswered Hrun; [done|].
  cbn [waitForBatch_loop] in Hrun.
  destruct (Z.ltb_spec (clock w (S j) - clock w 0) limit) as [Hin|Hout].
  2:{ injection Hrun as <-. exists j. rewrite Nat.sub_diag.
      split_and!; [lia|intros; lia|intros; lia|]. right. done. }
  destruct (Hanswered j) as [resp Hresp]. rewrite Hresp in Hrun.
  destruct (completed resp) eqn:Hflag.
  { injection Hrun as <-. exists j. rewrite Nat.sub_diag.
    split_and!; [lia|intros; lia|intros; lia|]. left. by exists resp. }
  destruct (waitForBatch_loop fuel _ _ _ _ _ _ _) as [r'|] eqn:Hrest; [|done].
  injection Hrun as <-.
  destruct (IH _ _ Hanswered Hrest) as (k & Hk & Hflags & Hclocks & Hend).
  exists k. split_and!; [lia|..].
  - intros i resp' Hi Hresp'. destruct (decide (i = j)) as [->|].
    + congruence.
    + eapply Hflags; [|done]. lia.
  - intros i Hi. destruct (decide (i = j)) as [->|]; [done|].
    apply Hclocks. lia.
  - replace (k - j)%nat with (S (k - S j)) by lia. rewrite rounds_S.
    destruct Hend as [(resp' & ? & ? & ? & ->)|[? ->]]; [left|right].
    + exists resp'. by rewrite <- app_assoc.
    + by rewrite <- app_assoc.
Qed.

End WaitFacts.

(** A batch wait returns once the deadline has passed or the flag is
    true. *)
Lemma waitForBatch_loop_progress w target limit interval n : ∀ j fuel,
  (n < fuel)%nat →
  (∀ k, ∃ resp, batchStatusOf w target k = Resolved resp) →
  limit <= elapsed w (j + n) ∨
    (∃ resp, batchStatusOf w target (j + n) = Resolved resp ∧
             completed resp = true) →
  is_Some (waitForBatch_loop fuel w target limit interval (clock w 0) (S j) j).
Proof.
  induction n as [|n IH]; intros j fuel Hfuel Hanswered Hend;
    (destruct fuel as [|fuel]; [lia|]); cbn [waitForBatch_loop];
    (destruct (Z.ltb (clock w (S j) - clock w 0) limit) eqn:Hclock; [|done]);
    destruct (Hanswered j) as [resp Hresp]; rewrite Hresp;
    (destruct (completed resp) eqn:Hflag; [done|]).
  - rewrite Nat.add_0_r in Hend. apply Z.ltb_lt in Hclock.
    destruct Hend as [Hout|(resp' & Hresp' & Hflag')].
    + unfold elapsed in Hout. lia.
    + congruence.
  - apply fmap_is_Some, IH; [lia|done|].
    by rewrite Nat.add_succ_comm.
Qed.

Section WaitClaims.

Context (w : world) (target : string) (options : WaitOptions).

(** Poll [k] of a single-job wait, after [k] rounds that ended
    nothing: what the wait does there, for limits [limit] and
    [interval]. *)
Lemma waitForCompletion_loop_at limit interval fuel k :
  let before := rounds w interval 0 k ++ [ReadClock (clock w (S k))] in
  (k < fuel)%nat →
  (∀ i, (i < k)%nat →
        elapsed w i < limit ∧
        ∃ st, statusOf w target i = Resolved st ∧ pending st) →
  (limit <= elapsed w k →
   waitForCompletion_loop fuel w target limit interval (clock w 0) 1 0 =
     Some (Rejected (newError ("Render job timed out after " +:+
                       JS.numberToString limit +:+ "ms")), before)) ∧
  (∀ st, elapsed w k < limit → statusOf w target k = Resolved st →
     (job_status st = "completed" →
      waitForCompletion_loop fuel w target limit interval (clock w 0) 1 0 =
        Some (Resolved st, before ++ [Fetch k])) ∧
     (job_status st = "failed" →
      waitForCompletion_loop fuel w target limit interval (clock w 0) 1 0 =
        Some (Rejected (newError ("Render job failed: " +:+
                          JS.or_else (job_error st) "Unknown error")),
              before ++ [Fetch k]))).
Proof.
  intros before Hfuel Hpending.
  replace fuel with (k + S (fuel - S k))%nat by lia.
  rewrite waitForCompletion_loop_rounds
    by (intros i ?; apply Hpending; lia).
  cbn [Nat.add waitForCompletion_loop]. unfold elapsed. split.
  - intros Hout.
    destruct (Z.ltb_spec (clock w (S k) - clock w 0) limit); [lia|done].
  - intros st Hin Hst.
    destruct (Z.ltb_spec (clock w (S k) - clock w 0) limit); [|lia].
    rewrite Hst. split.
    + intros ->. unfold after, before. simpl. by rewrite <- app_assoc.
    + intros ->. unfold after, before. simpl. by rewrite <- app_assoc.
Qed.

(** C7. Let polls 0 .. k-1 be made in time and give statuses other
    than "completed" and "failed".  Then the wait has slept [pollInterval]
    after each of them, read the clock before each, and at poll [k]: it
    raises the timeout error without polling when the elapsed time has
    reached [timeout]; otherwise it polls, and returns the job record when
    its status is "completed", and raises an error that carries the job's
    failure reason when its status is "failed". *)
Theorem waitForCompletion_first_final (fuel k : nat) :
  let limit := msOr (timeout options) 300000 in
  let interval := msOr (pollInterval options) 2000 in
  let before :=
    ReadClock (clock w 0) :: rounds w interval 0 k ++
    [ReadClock (clock w (S k))] in
  (k < fuel)%nat →
  (∀ i, (i < k)%nat →
        elapsed w i < limit ∧
        ∃ st, statusOf w target i = Resolved st ∧ pending st) →
  (limit <= elapsed w k →
   waitForCompletion fuel w target options =
     Some (Rejected (newError ("Render job timed out after " +:+
                       JS.numberToString limit +:+ "ms")), before)) ∧
  (∀ st, elapsed w k < limit → statusOf w target k = Resolved st →
     (job_status st = "completed" →
      waitForCompletion fuel w target options =
        Some (Resolved st, before ++ [Fetch k])) ∧
     (job_status st = "failed" →
      waitForCompletion fuel w target options =
        Some (Rejected (newError ("Render job failed: " +:+
                          JS.or_else (job_error st) "Unknown error")),
              before ++ [Fetch k]))).
Proof.
  intros limit interval before Hfuel Hpending.
  destruct (waitForCompletion_loop_at limit interval fuel k Hfuel Hpending)
    as [Hout Hpoll].
  unfold waitForCompletion. fold limit interval. split.
  - intros Hlate. by rewrite (Hout Hlate).
  - intros st Hin Hst. destruct (Hpoll st Hin Hst) as [Hdone Hfailed]. split.
    + intros Hstatus. by rewrite (Hdone Hstatus).
    + intros Hstatus. by rewrite (Hfailed Hstatus).
Qed.

(** C8. When every status request of a batch wait is answered: the
    wait is still polling after any number of rounds whose answers have
    the [completed] flag false, whatever the statuses of the jobs in them;
    a wait that returns has either resolved, with the job list of the
    first answer whose flag is true, or raised the timeout error, at the
    first clock reading that reached [timeout]; and it does return once
    one of the two happens. *)
Theorem waitForBatch_server_flag :
  let limit := msOr (timeout options) 600000 in
  let interval := msOr (pollInterval options) 5000 in
  (∀ k, ∃ resp, batchStatusOf w target k = Resolved resp) →
  (∀ n,
     (∀ i, (i < n)%nat →
           elapsed w i < limit ∧
           ∃ resp, batchStatusOf w target i = Resolved resp ∧
                   completed resp = false) →
     waitForBatch n w target options = None) ∧
  (∀ fuel out trace,
     waitForBatch fuel w target options = Some (out, trace) →
     ∃ k,
       (∀ i resp, (i < k)%nat → batchStatusOf w target i = Resolved resp →
                  completed resp = false) ∧
       ((∃ resp, batchStatusOf w target k = Resolved resp ∧
                 completed resp = true ∧ out = Resolved (jobs resp)) ∨
        (limit <= elapsed w k ∧
         out = Rejected (newError ("Batch render timed out after " +:+
                           JS.numberToString limit +:+ "ms"))))) ∧
  (∀ k fuel,
     (k < fuel)%nat →
     limit <= elapsed w k ∨
       (∃ resp, batchStatusOf w target k = Resolved resp ∧
                completed resp = true) →
     is_Some (waitForBatch fuel w target options)).
Proof.
  intros limit interval Hanswered. unfold waitForBatch. fold limit interval.
  split_and!.
  - intros n Hpending. replace n with (n + 0)%nat by lia.
    rewrite waitForBatch_loop_rounds by (intros i ?; apply Hpending; lia).
    done.
  - intros fuel out trace Hrun.
    destruct (waitForBatch_loop fuel _ _ _ _ _ _ _) as [r|] eqn:Hloop; [|done].
    apply waitForBatch_loop_ending in Hloop
      as (k & _ & Hflags & _ & Hend); [|done].
    injection Hrun as <- _. exists k. split.
    + intros i resp Hi. apply Hflags. lia.
    + destruct Hend as [(resp & ? & ? & _ & ->)|[? ->]]; [left|right]; eauto.
  - intros k fuel Hfuel Hend. apply fmap_is_Some.
    by apply (waitForBatch_loop_progress _ _ _ _ k 0).
Qed.

End WaitClaims.

(** C10. An explicit [timeout] of 0 or [pollInterval] of 0, in either
    wait, is replaced by the default, exactly as when the option is left
    out: 300000 ms and 2000 ms for a single job, 600000 ms and 5000 ms for
    a batch.  So neither wait times out at once or polls without
    pausing: a job found completed at a poll made within 300000 ms is
    returned, after waits of 2000 ms between the polls, and a batch whose
    flag is found true at a poll made within 600000 ms is returned, after
    waits of 5000 ms between the polls. *)
Theorem zero_options_mean_defaults (fuel : nat) (w : world) (target : string) :
  let zero := Some (JS.Num 0) in
  (∀ p, waitForCompletion fuel w target {| timeout := zero; pollInterval := p |} =
        waitForCompletion fuel w target {| timeout := None; pollInterval := p |}) ∧
  (∀ t, waitForCompletion fuel w target {| timeout := t; pollInterval := zero |} =
        waitForCompletion fuel w target {| timeout := t; pollInterval := None |}) ∧
  (∀ p, waitForBatch fuel w target {| timeout := zero; pollInterval := p |} =
        waitForBatch fuel w target {| timeout := None; pollInterval := p |}) ∧
  (∀ t, waitForBatch fuel w target {| timeout := t; pollInterval := zero |} =
        waitForBatch fuel w target {| timeout := t; pollInterval := None |}) ∧
  waitForCompletion fuel w target {| timeout := zero; pollInterval := zero |} =
    after [ReadClock (clock w 0)] <$>
      waitForCompletion_loop fuel w target 300000 2000 (clock w 0) 1 0 ∧
  waitForBatch fuel w target {| timeout := zero; pollInterval := zero |} =
    after [ReadClock (clock w 0)] <$>
      waitForBatch_loop fuel w target 600000 5000 (clock w 0) 1 0 ∧
  (∀ k st,
     (k < fuel)%nat →
     (∀ i, (i < k)%nat →
           elapsed w i < 300000 ∧
           ∃ st', statusOf w target i = Resolved st' ∧ pending st') →
     elapsed w k < 300000 → statusOf w target k = Resolved st →
     job_status st = "completed" →
     waitForCompletion fuel w target {| timeout := zero; pollInterval := zero |} =
       Some (Resolved st,
             ReadClock (clock w 0) :: rounds w 2000 0 k ++
             [ReadClock (clock w (S k)); Fetch k])) ∧
  (∀ k resp,
     (k < fuel)%nat →
     (∀ i, (i < k)%nat →
           elapsed w i < 600000 ∧
           ∃ resp', batchStatusOf w target i = Resolved resp' ∧
                    completed resp' = false) →
     elapsed w k < 600000 → batchStatusOf w target k = Resolved resp →
     completed resp = true →
     waitForBatch fuel w target {| timeout := zero; pollInterval := zero |} =
       Some (Resolved (jobs resp),
             ReadClock (clock w 0) :: rounds w 5000 0 k ++
             [ReadClock (clock w (S k)); Fetch k])).
Proof.
  intros zero. split_and!; try done.
  - intros k st Hfuel Hpending Hin Hst Hdone.
    destruct (waitForCompletion_loop_at w target 300000 2000 fuel k Hfuel
                Hpending) as [_ Hpoll].
    destruct (Hpoll st Hin Hst) as [Hret _].
    change (waitForCompletion fuel w target
              {| timeout := zero; pollInterval := zero |})
      with (after [ReadClock (clock w 0)] <$>
              waitForCompletion_loop fuel w target 300000 2000 (clock w 0) 1 0).
    rewrite (Hret Hdone). unfold after. simpl. by rewrite <- app_assoc.
  - intros k resp Hfuel Hpending Hin Hresp Hflag.
    change (waitForBatch fuel w target
              {| timeout := zero; pollInterval := zero |})
      with (after [ReadClock (clock w 0)] <$>
              waitForBatch_loop fuel w target 600000 5000 (clock w 0) 1 0).
    replace fuel with (k + S (fuel - S k))%nat by lia.
    rewrite waitForBatch_loop_rounds by (intros i ?; apply Hpending; lia).
    cbn [Nat.add waitForBatch_loop]. unfold elapsed in Hin.
    destruct (Z.ltb_spec (clock w (S k) - clock w 0) 600000); [|lia].
    rewrite Hresp, Hflag. unfold after. by simpl.
Qed.

(** The scenario of the test suite: "processing", then "completed". *)
Lemma waitForCompletion_first_final_witness :
  let w := fakeWorld 10 [Resolved (job "processing" None)]
             (Resolved (job "completed" None)) [] (Rejected serverDown) in
  let options := {| timeout := None; pollInterval := Some (JS.Num 10) |} in
  waitForCompletion 2 w "job-123" options =
    Some (Resolved (job "completed" None),
          [ReadClock 0; ReadClock 10; Fetch 0; Sleep 10; ReadClock 20; Fetch 1]).
Proof.
  intros w options.
  destruct (waitForCompletion_first_final w "job-123" options 2 1) as [_ Hpoll];
    [lia| |].
  - intros i Hi. assert (i = 0%nat) as -> by lia.
    split; [vm_compute; reflexivity|].
    exists (job "processing" None). by repeat split.
  - by apply (Hpoll (job "completed" None)).
Defined.

(** A job that has failed at the first poll, and a wait that times out
    without a final status. *)
Example waitForCompletion_failed :
  waitForCompletion 1
    (fakeWorld 10 [] (Resolved (job "failed" (Some "Render failed due to invalid element")))
       [] (Rejected serverDown))
    "job-123" noOptions =
  Some (Rejected (newError "Render job failed: Render failed due to invalid element"),
        [ReadClock 0; ReadClock 10; Fetch 0]).
Proof. reflexivity. Qed.

Example waitForCompletion_timeout :
  waitForCompletion 3
    (fakeWorld 40 [] (Resolved (job "processing" None)) [] (Rejected serverDown))
    "job-123" {| timeout := Some (JS.Num 100); pollInterval := Some (JS.Num 10) |} =
  Some (Rejected (newError "Render job timed out after 100ms"),
        [ReadClock 0; ReadClock 40; Fetch 0; Sleep 10;
         ReadClock 80; Fetch 1; Sleep 10; ReadClock 120]).
Proof. reflexivity. Qed.

(** The edge case of the specification: every job reads "completed"
    while the flag is false, and the wait goes on; it resolves with the
    next answer, whose flag is true although one of its jobs has failed. *)
Lemma waitForBatch_server_flag_witness :
  let w := fakeWorld 10 [] (Rejected serverDown)
             [Resolved {| jobs := [job "completed" None; job "completed" None];
                          completed := false |}]
             (Resolved {| jobs := [job "failed" (Some "boom"); job "completed" None];
                          completed := true |}) in
  waitForBatch 1 w "batch-123" noOptions = None ∧
  is_Some (waitForBatch 2 w "batch-123" noOptions).
Proof.
  intros w.
  assert (∀ k, ∃ resp, batchStatusOf w "batch-123" k = Resolved resp) as Hanswered.
  { intros [|[|k]]; eexists; reflexivity. }
  destruct (waitForBatch_server_flag w "batch-123" noOptions Hanswered)
    as (Hpolling & _ & Hreturns).
  split.
  - apply Hpolling. intros i Hi. assert (i = 0%nat) as -> by lia.
    split; [vm_compute; reflexivity|]. eexists. split; reflexivity.
  - apply (Hreturns 1%nat); [lia|]. right. eexists. split; reflexivity.
Defined.

Example waitForBatch_resolves :
  waitForBatch 2
    (fakeWorld 10 [] (Rejected serverDown)
       [Resolved {| jobs := [job "completed" None; job "completed" None];
                    completed := false |}]
       (Resolved {| jobs := [job "failed" (Some "boom"); job "completed" None];
                    completed := true |}))
    "batch-123" noOptions =
  Some (Resolved [job "failed" (Some "boom"); job "completed" None],
        [ReadClock 0; ReadClock 10; Fetch 0; Sleep 5000; ReadClock 20; Fetch 1]).
Proof. reflexivity. Qed.

Lemma zero_options_mean_defaults_witness :
  let unfinished := {| jobs := [job "completed" None]; completed := false |} in
  let finished := {| jobs := [job "completed" None]; completed := true |} in
  let w := fakeWorld 10 [Resolved (job "processing" None)]
             (Resolved (job "completed" None))
             [Resolved unfinished] (Resolved finished) in
  waitForCompletion 2 w "job-123"
    {| timeout := Some (JS.Num 0); pollInterval := Some (JS.Num 0) |} =
  Some (Resolved (job "completed" None),
        [ReadClock 0; ReadClock 10; Fetch 0; Sleep 2000; ReadClock 20; Fetch 1]) ∧
  waitForBatch 2 w "batch-1"
    {| timeout := Some (JS.Num 0); pollInterval := Some (JS.Num 0) |} =
  Some (Resolved [job "completed" None],
        [ReadClock 0; ReadClock 10; Fetch 0; Sleep 5000; ReadClock 20; Fetch 1]).
Proof.
  intros unfinished finished w. split.
  - destruct (zero_options_mean_defaults 2 w "job-123")
      as (_ & _ & _ & _ & _ & _ & Hreturned & _).
    apply (Hreturned 1%nat); [lia| |done..].
    intros i Hi. assert (i = 0%nat) as -> by lia.
    split; [vm_compute; reflexivity|].
    exists (job "processing" None). by repeat split.
  - destruct (zero_options_mean_defaults 2 w "batch-1")
      as (_ & _ & _ & _ & _ & _ & _ & Hreturned).
    apply (Hreturned 1%nat finished); [lia| |done..].
    intros i Hi. assert (i = 0%nat) as -> by lia.
    split; [vm_compute; reflexivity|].
    exists unfinished. by split.
Defined.

(** ** More on the retry engine *)

Section RetryMore.

Context {T : Type} (fn : nat → outcome T) (config : PartialRetryConfig).

Let cfg := mergeConfig config.

(** The loop reaches an invocation that resolves, when the attempts
    before it fail with errors that are retried. *)
Lemma withRetry_loop_resolves k : ∀ fuel attempt delay calls v,
  (k < fuel)%nat →
  attempt + Z.of_nat k < maxAttempts cfg →
  (∀ i, (i < k)%nat →
        ∃ e, fn (calls + i)%nat = Rejected e ∧ shouldRetry cfg e = true) →
  fn (calls + k)%nat = Resolved v →
  ∃ run,
    withRetry_loop fuel cfg fn attempt delay calls = Some run ∧
    settled run = Resolved v ∧
    invocations run = S (calls + k) ∧
    length (sleeps run) = k.
Proof.
  induction k as [|k IH]; intros fuel attempt delay calls v Hfuel Hmax Hfail Hok;
    (destruct fuel as [|fuel]; [lia|]); cbn [withRetry_loop];
    (destruct (Z.ltb_spec attempt (maxAttempts cfg)); [|lia]).
  - rewrite Nat.add_0_r in Hok |- *. rewrite Hok. eauto.
  - destruct (Hfail 0%nat) as (e & Hfn & Hretry); [lia|].
    rewrite Nat.add_0_r in Hfn. rewrite Hfn, Hretry. cbn [negb orb].
    destruct (Z.leb_spec (maxAttempts cfg) (attempt + 1)); [lia|].
    destruct (IH fuel (attempt + 1)
                (Z.min (default delay (retryAfterDelay e) * backoffFactor cfg)
                       (maxDelay cfg))
                (S calls) v) as (run & -> & Hsettled & Hcalls & Hsleeps).
    + lia.
    + lia.
    + intros i Hi. replace (S calls + i)%nat with (calls + S i)%nat by lia.
      apply Hfail. lia.
    + by replace (S calls + k)%nat with (calls + S k)%nat by lia.
    + eexists. split; [done|]. simpl.
      split_and!; [done|lia|by rewrite Hsleeps].
Qed.

(** [withRetry] resolves with the value of invocation [k] when that
    invocation resolves, it is within [maxAttempts], and every invocation
    before it failed with a retryable error: then [k + 1] invocations were
    made, with one wait between two of them. *)
Theorem withRetry_resolves_at (k : nat) (v : T) :
  Z.of_nat k < maxAttempts cfg →
  (∀ i, (i < k)%nat → ∃ e, fn i = Rejected e ∧ shouldRetry cfg e = true) →
  fn k = Resolved v →
  ∃ run,
    withRetry fn config = Some run ∧
    settled run = Resolved v ∧
    invocations run = S k ∧
    length (sleeps run) = k.
Proof.
  intros Hmax Hfail Hok. unfold withRetry. fold cfg.
  apply (withRetry_loop_resolves k); [lia|lia|done|done].
Qed.

(** With [maxAttempts] at 0 or below the operation is never invoked,
    and [withRetry] rejects with its own "Max retry attempts reached"
    error. *)
Theorem withRetry_no_attempts :
  maxAttempts cfg <= 0 →
  withRetry fn config =
    Some {| settled := Rejected (mkError CanveleteError
                         "Max retry attempts reached" None None);
            invocations := 0; sleeps := [] |}.
Proof.
  intros Hmax. unfold withRetry. fold cfg. cbn [withRetry_loop].
  by destruct (Z.ltb_spec 0 (maxAttempts cfg)); [lia|].
Qed.

(** The first wait, when it is not hinted, is [initialDelay], whether
    or not that exceeds [maxDelay]; every later wait that is not hinted is
    at most [maxDelay]. *)
Theorem withRetry_waits_capped :
  ∃ run,
    withRetry fn config = Some run ∧
    (∀ w e, sleeps run !! 0%nat = Some w → fn 0%nat = Rejected e →
            retryAfterDelay e = None → w = initialDelay cfg) ∧
    (∀ i w e, sleeps run !! S i = Some w → fn (S i) = Rejected e →
              retryAfterDelay e = None → w <= maxDelay cfg).
Proof.
  destruct (withRetry_total fn config) as [run Hrun]. exists run.
  split; [done|]. unfold withRetry in Hrun.
  apply withRetry_loop_waits in Hrun. fold cfg in Hrun. split.
  - intros w e Hw Hfn Hplain.
    destruct (sleeps run) as [|w0 ws]; [done|]. injection Hw as ->.
    destruct Hrun as (e' & Hfn' & -> & _).
    rewrite Hfn in Hfn'. injection Hfn' as <-. by rewrite Hplain.
  - intros i w e Hw Hfn Hplain.
    assert (is_Some (sleeps run !! i)) as [w0 Hw0].
    { apply lookup_lt_is_Some. apply lookup_lt_Some in Hw. lia. }
    destruct (waitsFrom_lookup _ _ _ _ _ _ _ Hrun Hw0) as (_ & _ & _ & Hnext).
    destruct (Hnext _ Hw) as (e' & Hfn' & ->).
    simpl in Hfn'. rewrite Hfn in Hfn'. injection Hfn' as <-.
    rewrite Hplain. simpl. lia.
Qed.

End RetryMore.

Lemma withRetry_resolves_at_witness :
  ∃ run : retryRun string,
    withRetry (mockFn [Rejected (rateLimited None)] (Resolved "success"))
      {| opt_maxAttempts := Some 3; opt_backoffFactor := None;
         opt_initialDelay := Some 10; opt_maxDelay := None; opt_retryOn := None |}
      = Some run ∧
    settled run = Resolved "success" ∧
    invocations run = 2%nat ∧
    length (sleeps run) = 1%nat.
Proof.
  apply (withRetry_resolves_at
           (mockFn [Rejected (rateLimited None)] (Resolved "success"))
           _ 1 "success"); [done| |done].
  intros i Hi. assert (i = 0%nat) as -> by lia.
  exists (rateLimited None). done.
Defined.

Lemma withRetry_no_attempts_witness :
  withRetry (mockFn [] (Resolved "success"))
    {| opt_maxAttempts := Some 0; opt_backoffFactor := None;
       opt_initialDelay := None; opt_maxDelay := None; opt_retryOn := None |} =
  Some {| settled := Rejected (mkError CanveleteError
                       "Max retry attempts reached" None None);
          invocations := 0; sleeps := [] |}.
Proof.
  apply (withRetry_no_attempts (mockFn [] (Resolved "success"))). done.
Defined.

(** An initial delay above the cap is waited in full; the waits after
    it are capped. *)
Lemma withRetry_waits_capped_witness :
  ∃ run : retryRun string,
    withRetry (mockFn [] (Rejected serverDown))
      {| opt_maxAttempts := Some 4; opt_backoffFactor := None;
         opt_initialDelay := Some 100000; opt_maxDelay := None;
         opt_retryOn := None |} = Some run ∧
    sleeps run = [100000; 60000; 60000].
Proof.
  destruct (withRetry_waits_capped
              (mockFn [] (Rejected serverDown : outcome string))
              {| opt_maxAttempts := Some 4; opt_backoffFactor := None;
                 opt_initialDelay := Some 100000; opt_maxDelay := None;
                 opt_retryOn := None |}) as (run & Hrun & _).
  exists run. split; [done|]. vm_compute in Hrun. by injection Hrun as <-.
Defined.

(** [retryOnRateLimit] makes between one and five invocations and
    settles as the last of them did; every invocation before the last
    failed with a RateLimit or a Server error, and was followed by one
    wait. *)
Theorem retryOnRateLimit_attempts {T} (fn : nat → outcome T) :
  ∃ run,
    retryOnRateLimit fn = Some run ∧
    (1 <= invocations run <= 5)%nat ∧
    settled run = fn (invocations run - 1)%nat ∧
    length (sleeps run) = (invocations run - 1)%nat ∧
    (∀ i, (i < invocations run - 1)%nat →
          ∃ e, fn i = Rejected e ∧
               (cls e = RateLimitError ∨ cls e = ServerError)) ∧
    (invocations run < 5 →
     match settled run with
     | Resolved _ => True
     | Rejected e => cls e ≠ RateLimitError ∧ cls e ≠ ServerError
     end)%nat.
Proof.
  unfold retryOnRateLimit.
  destruct (withRetry_total fn
              {| opt_maxAttempts := Some 5; opt_backoffFactor := Some 2;
                 opt_initialDelay := None; opt_maxDelay := None;
                 opt_retryOn := Some [RateLimitError; ServerError] |})
    as [run Hrun].
  exists run. split; [done|]. unfold withRetry in Hrun.
  apply withRetry_loop_spec in Hrun
    as (Hcalls & Hcount & Hlast & Hsleeps & Hall & Hearly); [|done].
  simpl in Hcount, Hearly. rewrite Nat.sub_0_r in *.
  assert (∀ e, shouldRetry
                 (mergeConfig
                    {| opt_maxAttempts := Some 5; opt_backoffFactor := Some 2;
                       opt_initialDelay := None; opt_maxDelay := None;
                       opt_retryOn := Some [RateLimitError; ServerError] |}) e
               = true ↔ cls e = RateLimitError ∨ cls e = ServerError) as Hclass.
  { intros e. unfold shouldRetry, instanceOf. simpl.
    rewrite !orb_true_iff, !bool_decide_eq_true. naive_solver. }
  split; [lia|]. split; [done|]. split; [done|]. split.
  - intros i Hi. destruct (Hall i) as (e & Hfn & Hretry); [lia|].
    exists e. split; [done|]. by apply Hclass.
  - intros Hfew. destruct (settled run) as [v|e]; [done|].
    assert (shouldRetry
              (mergeConfig
                 {| opt_maxAttempts := Some 5; opt_backoffFactor := Some 2;
                    opt_initialDelay := None; opt_maxDelay := None;
                    opt_retryOn := Some [RateLimitError; ServerError] |}) e
            = false) as Hno by (apply Hearly; lia).
    split; intros Hcls; assert (shouldRetry _ e = true) as Hyes
      by (apply Hclass; eauto); congruence.
Qed.

(** ** Webhook events *)

(** [constructWebhookEvent] on a signature made by
    [generateWebhookSignature] under the same secret: it gives what
    [JSON.parse] gives for the payload when the two clocks, in seconds, are
    at most 300 apart, and it rejects with "Invalid webhook signature" when
    they are further apart; the tolerance cannot be changed.  Whatever the
    signature, an event is returned only when the signature verifies. *)
Theorem constructWebhookEvent_generated {Ev} (jsonParse : string → outcome Ev)
    (p k : string) (genMs verMs : Z) :
  (Z.abs (verMs / 1000 - genMs / 1000) <= 300 →
   constructWebhookEvent jsonParse verMs p (generateWebhookSignature genMs p k) k
     = jsonParse p) ∧
  (Z.abs (verMs / 1000 - genMs / 1000) > 300 →
   constructWebhookEvent jsonParse verMs p (generateWebhookSignature genMs p k) k
     = Rejected (newError "Invalid webhook signature")) ∧
  (∀ header ev,
     constructWebhookEvent jsonParse verMs p header k = Resolved ev →
     verifyWebhookSignature verMs
       {| payload := p; signature := header; secret := k; tolerance := None |}
       = true ∧
     jsonParse p = Resolved ev).
Proof.
  assert (verifyWebhookSignature verMs
            {| payload := p; signature := generateWebhookSignature genMs p k;
               secret := k; tolerance := None |} =
          negb (300 <? Z.abs (verMs / 1000 - genMs / 1000))) as Hverify.
  { unfold generateWebhookSignature.
    rewrite verify_standard;
      [|by apply numberToString_chars|by apply numberToString_chars
       |by apply digest_chars|by apply digest_chars
       |apply numberToString_nonempty|apply digest_nonempty].
    rewrite parseInt_numberToString, timingSafeEqual_refl. simpl.
    by rewrite andb_true_r. }
  unfold constructWebhookEvent, parseWebhookPayload. split_and!.
  - intros Hnear. rewrite Hverify.
    by destruct (Z.ltb_spec 300 (Z.abs (verMs / 1000 - genMs / 1000))); [lia|].
  - intros Hfar. rewrite Hverify.
    by destruct (Z.ltb_spec 300 (Z.abs (verMs / 1000 - genMs / 1000))); [|lia].
  - intros header ev.
    by destruct (verifyWebhookSignature verMs
                   {| payload := p; signature := header; secret := k;
                      tolerance := None |}).
Qed.

Lemma constructWebhookEvent_generated_witness :
  let parse := λ s : string, Resolved (String.length s) in
  constructWebhookEvent parse 1700000250999 "hello"
    (generateWebhookSignature 1700000000123 "hello" "whsec_test") "whsec_test"
    = Resolved 5%nat ∧
  constructWebhookEvent parse 1700000301000 "hello"
    (generateWebhookSignature 1700000000123 "hello" "whsec_test") "whsec_test"
    = Rejected (newError "Invalid webhook signature").
Proof.
  intros parse. split.
  - apply (constructWebhookEvent_generated parse "hello" "whsec_test"
             1700000000123 1700000250999).
    vm_compute. discriminate.
  - apply (constructWebhookEvent_generated parse "hello" "whsec_test"
             1700000000123 1700000301000).
    vm_compute. reflexivity.
Defined.

(** ** The client *)

Lemma handleResponseErrors_sdk response e :
  handleResponseErrors response = Some e → instanceOf e CanveleteError = true.
Proof.
  unfold handleResponseErrors.
  destruct (status response <? 400); [done|].
  intros [= <-]. by repeat case_match.
Qed.

Lemma catchRequestError_sdk c thrown :
  instanceOf (Client.catchRequestError c thrown) CanveleteError = true.
Proof.
  destruct thrown as [e|[|msg]]; simpl; [|done..].
  by destruct (negb (bool_decide (cls e = JsError))) eqn:Hcls.
Qed.

(** A rejection of [request] is an instance of [CanveleteError],
    whatever the network does, with one exception: the error that
    [JSON.stringify] throws on the body reaches the caller as it is, and
    nothing has been handed to [fetch] then.  For a body that
    [JSON.stringify] accepts, and without a body, every rejection is an
    instance of [CanveleteError].  A call hands at most one request to
    [fetch]. *)
Theorem request_rejects_with_sdk_error {B T} (stringify : Client.stringifier B)
    (net : Client.network B T)
    (c : Client.CanveleteClient) (method endpoint : string)
    (options : Client.RequestOptions B) (log : list (Client.HttpRequest B)) :
  let result := Client.request stringify net c method endpoint options log in
  (∀ e, result.1 = Rejected e →
        instanceOf e CanveleteError = true ∨
        (Client.json options ≫= stringify = Some e ∧ result.2 = log)) ∧
  (Client.json options ≫= stringify = None →
   ∀ e, result.1 = Rejected e → instanceOf e CanveleteError = true) ∧
  (result.2 = log ∨ ∃ req, result.2 = log ++ [req]).
Proof.
  assert (∀ result : outcome T * list (Client.HttpRequest B),
            (∀ e, result.1 = Rejected e → instanceOf e CanveleteError = true) →
            (result.2 = log ∨ ∃ req, result.2 = log ++ [req]) →
            (∀ e, result.1 = Rejected e →
                  instanceOf e CanveleteError = true ∨
                  (Client.json options ≫= stringify = Some e ∧
                   result.2 = log)) ∧
            (Client.json options ≫= stringify = None →
             ∀ e, result.1 = Rejected e → instanceOf e CanveleteError = true) ∧
            (result.2 = log ∨ ∃ req, result.2 = log ++ [req])) as Hsdk.
  { intros result Hall Hlog. split_and!; [|done..]. intros e He. left. eauto. }
  unfold Client.request, Client.getAuthHeaders.
  destruct (JS.nonempty (Client.apiKey c)).
  2:{ apply Hsdk; [|by left]. by intros e [= <-]. }
  cbv zeta.
  destruct (Client.json options ≫= stringify) as [thrown|] eqn:Hjson.
  { cbn [fst snd]. split_and!; [|done|by left].
    intros e [= <-]. by right. }
  apply Hsdk.
  - destruct (net (length log) _) as [failure|response]; cbn [fst].
    { intros e He.
      replace e with (Client.catchRequestError c (inr failure)) by congruence.
      apply catchRequestError_sdk. }
    destruct (handleResponseErrors (Client.resp response)) as [e0|]; cbn [fst].
    { intros e He.
      replace e with (Client.catchRequestError c (inl e0)) by congruence.
      apply catchRequestError_sdk. }
    destruct (if Client.binary options then _ else _) as [failure|v];
      cbn [fst]; [|done].
    intros e He.
    replace e with (Client.catchRequestError c (inr failure)) by congruence.
    apply catchRequestError_sdk.
  - right. by repeat case_match; eauto.
Qed.

(** A body with a cycle: [JSON.stringify] throws a TypeError, which is
    what the caller gets. *)
Lemma request_rejects_with_sdk_error_witness :
  let cyclic := newError "Converting circular structure to JSON" in
  let c := Client.new {| Client.opt_apiKey := Some "cvt_key";
                         Client.opt_baseUrl := None;
                         Client.opt_timeout := None |} in
  let result :=
    Client.request (λ _ : unit, Some cyclic)
      (λ _ _, inl Client.AbortError : _ + Client.fetchResponse unit)
      c "POST" "/api/designs/d1/elements"
      {| Client.params := None; Client.json := Some tt;
         Client.binary := false |} [] in
  result = (Rejected cyclic, []) ∧
  (instanceOf cyclic CanveleteError = true ∨
   (Some tt ≫= (λ _ : unit, Some cyclic) = Some cyclic ∧ result.2 = [])).
Proof.
  intros cyclic c result. split; [reflexivity|].
  destruct (request_rejects_with_sdk_error (λ _ : unit, Some cyclic)
              (λ _ _, inl Client.AbortError : _ + Client.fetchResponse unit)
              c "POST" "/api/designs/d1/elements"
              {| Client.params := None; Client.json := Some tt;
                 Client.binary := false |} []) as (Hany & _ & _).
  by apply Hany.
Defined.

(** Without an API key (none given, or an empty one) every request
    rejects with the AuthenticationError "No API key provided" and nothing
    is handed to [fetch]. *)
Theorem request_without_api_key {B T} (stringify : Client.stringifier B)
    (net : Client.network B T)
    (options : Client.ClientOptions) (method endpoint : string)
    (ropts : Client.RequestOptions B) (log : list (Client.HttpRequest B)) :
  Client.opt_apiKey options = None ∨ Client.opt_apiKey options = Some "" →
  Client.request stringify net (Client.new options) method endpoint ropts log =
    (Rejected (mkError AuthenticationError "No API key provided" None None),
     log).
Proof.
  intros Hkey. unfold Client.request, Client.getAuthHeaders, Client.new. simpl.
  by destruct Hkey as [-> | ->].
Qed.

Lemma request_without_api_key_witness :
  Client.request (λ _, None)
    (λ _ _, inl Client.AbortError : _ + Client.fetchResponse unit)
    (Client.new {| Client.opt_apiKey := None; Client.opt_baseUrl := None;
                   Client.opt_timeout := None |})
    "GET" "/api/v1/usage/stats"
    {| Client.params := None; Client.json := None : option unit;
       Client.binary := false |} [] =
  (Rejected (mkError AuthenticationError "No API key provided" None None), []).
Proof.
  apply (request_without_api_key (λ _, None)
           (λ _ _, inl Client.AbortError : _ + Client.fetchResponse unit)
           {| Client.opt_apiKey := None; Client.opt_baseUrl := None;
              Client.opt_timeout := None |}).
  by left.
Defined.

(** With an API key and a body that [JSON.stringify] accepts, or no
    body, one request is handed to [fetch], to the base URL followed by
    the endpoint, with the bearer token.  When the response has a status
    of 400 or more, the rejection is the error of the mapper itself, and
    how the body would read does not matter; when [fetch] is aborted, the
    rejection names the client's timeout.  With a body on which
    [JSON.stringify] throws, the call rejects with what is thrown and
    nothing is handed to [fetch]. *)
Theorem request_with_api_key {B T} (stringify : Client.stringifier B)
    (net : Client.network B T)
    (c : Client.CanveleteClient) (method endpoint : string)
    (json : option B) (binary : bool) (log : list (Client.HttpRequest B)) :
  Client.apiKey c ≠ "" →
  let req :=
    {| Client.req_method := method;
       Client.req_url := Client.baseUrl c +:+ endpoint;
       Client.req_headers :=
         [("Content-Type", "application/json");
          ("User-Agent", "canvelete-ts/2.0.0");
          ("Authorization", "Bearer " +:+ Client.apiKey c)];
       Client.req_body := json |} in
  let result :=
    Client.request stringify net c method endpoint
      {| Client.params := None; Client.json := json; Client.binary := binary |}
      log in
  (json ≫= stringify = None →
   result.2 = log ++ [req] ∧
   (∀ response, net (length log) req = inr response →
      400 <= status (Client.resp response) →
      ∃ e, handleResponseErrors (Client.resp response) = Some e ∧
           result.1 = Rejected e) ∧
   (net (length log) req = inl Client.AbortError →
    result.1 = Rejected (mkError CanveleteError
                           ("Request timeout after " +:+
                            JS.numberToString (Client.timeout c) +:+ "ms")
                           None None))) ∧
  (∀ e, json ≫= stringify = Some e → result = (Rejected e, log)).
Proof.
  intros Hkey req result. subst result.
  unfold Client.request, Client.getAuthHeaders.
  destruct (JS.nonempty (Client.apiKey c)) eqn:Hne;
    [|by destruct (Client.apiKey c)].
  cbn [Client.params Client.json Client.binary]. fold req.
  split; [|by intros e ->].
  intros ->. split_and!.
  - by repeat case_match.
  - intros response -> Hstatus.
    destruct (handleResponseErrors (Client.resp response)) as [e|] eqn:Hmap.
    + exists e. split; [done|]. cbn [fst Client.catchRequestError].
      by rewrite (handleResponseErrors_sdk _ _ Hmap).
    + unfold handleResponseErrors in Hmap.
      by destruct (Z.ltb_spec (status (Client.resp response)) 400); [lia|].
  - by intros ->.
Qed.

(** A 404 answer to a request with a body, of a client whose base URL
    was given with a trailing slash. *)
Lemma request_with_api_key_witness :
  let c := Client.new {| Client.opt_apiKey := Some "cvt_key";
                         Client.opt_baseUrl := Some "https://example.com/";
                         Client.opt_timeout := None |} in
  let notFound :=
    {| Client.resp := {| status := 404; retryAfterHeader := None;
                         json := Some {| body_error := Some "no such design";
                                         body_message := None |} |};
       Client.resp_json := inr "unread"; Client.resp_arrayBuffer := inr "unread" |} in
  (Client.request (λ _ : string, None) (λ _ _, inr notFound) c
     "PATCH" "/api/designs/d1/canvas/background"
     {| Client.params := None; Client.json := Some "red";
        Client.binary := false |} []).2 =
  [{| Client.req_method := "PATCH";
      Client.req_url := "https://example.com/api/designs/d1/canvas/background";
      Client.req_headers :=
        [("Content-Type", "application/json");
         ("User-Agent", "canvelete-ts/2.0.0");
         ("Authorization", "Bearer cvt_key")];
      Client.req_body := Some "red" |}].
Proof.
  intros c notFound.
  destruct (request_with_api_key (λ _ : string, None) (λ _ _, inr notFound) c
              "PATCH" "/api/designs/d1/canvas/background" (Some "red") false [])
    as [Hsent _]; [done|].
  by destruct Hsent as [-> _].
Defined.

Lemma dropTrailingSlash_app u : Client.dropTrailingSlash (u +:+ "/") = u.
Proof.
  induction u as [|c u IH]; [done|].
  change (String c u +:+ "/") with (String c (u +:+ "/")).
  cbn [Client.dropTrailingSlash].
  assert (JS.nonempty (u +:+ "/") = true) as -> by by destruct u.
  by rewrite andb_false_r, IH.
Qed.

Lemma dropTrailingSlash_id u :
  (∀ v, u ≠ v +:+ "/") → Client.dropTrailingSlash u = u.
Proof.
  induction u as [|c u IH]; intros Hend; [done|].
  cbn [Client.dropTrailingSlash]. destruct u as [|d u].
  - simpl. destruct (Ascii.eqb_spec c "/") as [->|]; [|done].
    by destruct (Hend "").
  - cbn [JS.nonempty negb]. rewrite andb_false_r. f_equal. apply IH.
    intros v Hv. apply (Hend (String c v)). simpl. by rewrite Hv.
Qed.

(** One trailing slash of the base URL is dropped: a client made with
    the base URL [u/] is the client made with [u], when [u] is not empty
    and does not itself end with a slash. *)
Theorem new_client_trailing_slash (key : option string)
    (ms : option JS.jsnum) (u : string) :
  u ≠ "" → (∀ v, u ≠ v +:+ "/") →
  Client.new {| Client.opt_apiKey := key;
                Client.opt_baseUrl := Some (u +:+ "/");
                Client.opt_timeout := ms |} =
  Client.new {| Client.opt_apiKey := key; Client.opt_baseUrl := Some u;
                Client.opt_timeout := ms |} ∧
  Client.baseUrl
    (Client.new {| Client.opt_apiKey := key; Client.opt_baseUrl := Some u;
                   Client.opt_timeout := ms |}) = u.
Proof.
  intros Hne Hend. unfold Client.new. simpl.
  assert (JS.nonempty (u +:+ "/") = true) as -> by by destruct u.
  assert (JS.nonempty u = true) as -> by by destruct u.
  by rewrite dropTrailingSlash_app, dropTrailingSlash_id.
Qed.

Lemma new_client_trailing_slash_witness :
  Client.new {| Client.opt_apiKey := Some "cvt_key";
                Client.opt_baseUrl := Some "https://example.com/";
                Client.opt_timeout := None |} =
  Client.new {| Client.opt_apiKey := Some "cvt_key";
                Client.opt_baseUrl := Some "https://example.com";
                Client.opt_timeout := None |}.
Proof.
  apply (new_client_trailing_slash (Some "cvt_key") None "https://example.com").
  - done.
  - intros v Hv.
    do 19 (destruct v as [|? v]; simpl in Hv;
           [discriminate Hv | injection Hv as _ Hv]).
    destruct v; discriminate Hv.
Defined.

(** ** The render requests *)

(** Digits and the minus sign are not changed by the form encoding. *)
Lemma formEncode_plain s :
  JS.str_all (λ c, JS.isDigit c || Ascii.eqb c "-") s = true →
  Client.formEncode s = s.
Proof.
  induction s as [|ch s IH]; [done|]. cbn [JS.str_all].
  intros [Hc Hs]%andb_prop. cbn [Client.formEncode]. rewrite (IH Hs).
  assert (Client.formEncodeByte ch = String ch "") as ->; [|done].
  unfold Client.formEncodeByte.
  destruct (Ascii.eqb_spec ch "-") as [->|]; [done|].
  rewrite orb_false_r in Hc. unfold JS.isDigit in Hc. cbv zeta in Hc.
  by rewrite Hc.
Qed.

Lemma numberToString_plain n :
  JS.str_all (λ c, JS.isDigit c || Ascii.eqb c "-") (JS.numberToString n) = true.
Proof.
  unfold JS.numberToString.
  destruct (Z.ltb_spec n 0) as [Hneg|Hpos].
  - destruct (digits_spec (- n) "" 0 false) as (ds & -> & Hall & _); [lia|].
    simpl. eapply str_all_impl; [|exact Hall]. by intros ch ->.
  - destruct (digits_spec n "" 0 false) as (ds & -> & Hall & _); [lia|].
    eapply str_all_impl; [|exact Hall]. by intros ch ->.
Qed.

Lemma formEncode_numberToString n :
  Client.formEncode (JS.numberToString n) = JS.numberToString n.
Proof. apply formEncode_plain, numberToString_plain. Qed.

(** [x || d] is a number other than 0 and NaN. *)
Lemma num_or_truthy x d :
  d ≠ 0 → ∃ z, JS.num_or x d = JS.Num z ∧ z ≠ 0.
Proof.
  intros Hd. destruct x as [[z|]|]; simpl; eauto.
  destruct (Z.eqb_spec z 0); simpl; eauto.
Qed.

Lemma num_or_keeps z d : z ≠ 0 → JS.num_or (Some (JS.Num z)) d = JS.Num z.
Proof. intros Hz. simpl. by destruct (Z.eqb_spec z 0). Qed.

(** What [request] does for a client with a key. *)
Lemma request_sends {B T} (stringify : Client.stringifier B)
    (net : Client.network B T)
    (c : Client.CanveleteClient) (method endpoint : string)
    (options : Client.RequestOptions B) (log : list (Client.HttpRequest B)) :
  Client.apiKey c ≠ "" →
  Client.json options ≫= stringify = None →
  let req :=
    {| Client.req_method := method;
       Client.req_url :=
         match Client.params options with
         | Some ps => (Client.baseUrl c +:+ endpoint) +:+ "?" +:+
                      Client.searchParams ps
         | None => Client.baseUrl c +:+ endpoint
         end;
       Client.req_headers :=
         [("Content-Type", "application/json");
          ("User-Agent", "canvelete-ts/2.0.0");
          ("Authorization", "Bearer " +:+ Client.apiKey c)];
       Client.req_body := Client.json options |} in
  Client.request stringify net c method endpoint options log =
    (match net (length log) req with
     | inl failure => Rejected (Client.catchRequestError c (inr failure))
     | inr response =>
         match handleResponseErrors (Client.resp response) with
         | Some e => Rejected (Client.catchRequestError c (inl e))
         | None =>
             match (if Client.binary options
                    then Client.resp_arrayBuffer response
                    else Client.resp_json response) with
             | inl failure =>
                 Rejected (Client.catchRequestError c (inr failure))
             | inr v => Resolved v
             end
         end
     end, log ++ [req]).
Proof.
  intros Hkey Hjson req. unfold Client.request, Client.getAuthHeaders.
  destruct (JS.nonempty (Client.apiKey c)) eqn:Hne;
    [|by destruct (Client.apiKey c)].
  cbv zeta. rewrite Hjson. fold req. by repeat case_match.
Qed.

Lemma handleResponseErrors_ok response :
  status response < 400 → handleResponseErrors response = None.
Proof.
  intros Hst. unfold handleResponseErrors.
  by destruct (Z.ltb_spec (status response) 400); [|lia].
Qed.

(** The query of a page. *)
Lemma list_sends {B}
    (net : Client.network B (Render.PaginatedResponse RenderRecord))
    (c : Client.CanveleteClient) (P L : Z) (log : list (Client.HttpRequest B))
    (options : Render.ListRenderOptions) :
  Client.apiKey c ≠ "" →
  JS.num_or (Render.page options) 1 = JS.Num P →
  JS.num_or (Render.limit options) 20 = JS.Num L →
  Render.list_ net c options log =
    (match net (length log) (historyRequest c P L) with
     | inl failure => Rejected (Client.catchRequestError c (inr failure))
     | inr response =>
         match handleResponseErrors (Client.resp response) with
         | Some e => Rejected (Client.catchRequestError c (inl e))
         | None =>
             match Client.resp_json response with
             | inl failure =>
                 Rejected (Client.catchRequestError c (inr failure))
             | inr v => Resolved v
             end
         end
     end, log ++ [historyRequest c P L]).
Proof.
  intros Hkey HP HL. unfold Render.list_.
  rewrite request_sends by done. cbv zeta.
  cbn [Client.params Client.json Client.binary].
  assert (Client.searchParams (Render.listParams options) =
          "page=" +:+ JS.numberToString P +:+ "&limit=" +:+ JS.numberToString L)
    as ->.
  { unfold Render.listParams, Client.searchParams. rewrite HP, HL.
    cbn [map Client.join fst snd Render.toString].
    rewrite !formEncode_numberToString.
    change (Client.formEncode "page") with "page".
    change (Client.formEncode "limit") with "limit".
    by rewrite !append_assoc. }
  assert ((Client.baseUrl c +:+ "/api/v1/render/history") +:+ "?" +:+
          "page=" +:+ JS.numberToString P +:+ "&limit=" +:+ JS.numberToString L
          = Client.baseUrl c +:+ "/api/v1/render/history?page=" +:+
            JS.numberToString P +:+ "&limit=" +:+ JS.numberToString L) as ->.
  { by rewrite !append_assoc. }
  done.
Qed.

Section IterateFacts.

Context {B : Type}
  (net : Client.network B (Render.PaginatedResponse RenderRecord))
  (c : Client.CanveleteClient) (L : Z)
  (log : list (Client.HttpRequest B))
  (answers : nat → Render.PaginatedResponse RenderRecord).

Hypothesis Hkey : Client.apiKey c ≠ "".
Hypothesis HL : L ≠ 0.

Lemma historyWalk_length n :
  length (historyWalk c L log n) = (length log + n)%nat.
Proof. unfold historyWalk. by rewrite length_app, length_map, length_seq. Qed.

Lemma historyWalk_S n :
  historyWalk c L log (S n) =
  historyWalk c L log n ++ [historyRequest c (Z.of_nat (S n)) L].
Proof. unfold historyWalk. by rewrite seq_S, map_app, app_assoc. Qed.

(** One page of a walk. *)
Lemma list_page i :
  serves net c L log i (answers i) →
  Render.list_ net c
    {| Render.page := Some (JS.Num (Z.of_nat (S i)));
       Render.limit := Some (JS.Num L) |} (historyWalk c L log i) =
  (Resolved (answers i), historyWalk c L log (S i)).
Proof.
  intros (r & Hnet & Hst & Hjson).
  rewrite (list_sends _ _ (Z.of_nat (S i)) L);
    [|done|apply num_or_keeps; lia|by apply num_or_keeps].
  by rewrite historyWalk_length, Hnet, (handleResponseErrors_ok _ Hst), Hjson,
    historyWalk_S.
Qed.

Lemma ge_hasNext a i :
  hasNext a i →
  Render.ge (Z.of_nat (S i))
    (JS.num_or (Render.pagination a ≫= Render.totalPages) 1) = false.
Proof.
  intros (_ & pages & -> & Hlt). rewrite num_or_keeps by lia. simpl.
  apply Z.leb_gt. lia.
Qed.

Lemma ge_isLast a i :
  isLast a i → pageOf a ≠ [] →
  Render.ge (Z.of_nat (S i))
    (JS.num_or (Render.pagination a ≫= Render.totalPages) 1) = true.
Proof.
  intros [Hempty|Hlast] Hpage; [done|].
  destruct (Render.pagination a ≫= Render.totalPages) as [[z|]|]; simpl;
    try (apply Z.leb_le; lia).
  destruct (Z.eqb_spec z 0); simpl; apply Z.leb_le; [lia|].
  by apply Hlast.
Qed.

(** The loop walks the pages up to the last one. *)
Lemma iterateAll_loop_walk n : ∀ k fuel,
  (n < fuel)%nat →
  (∀ i, (k <= i <= k + n)%nat → serves net c L log i (answers i)) →
  (∀ i, (k <= i < k + n)%nat → hasNext (answers i) i) →
  isLast (answers (k + n)%nat) (k + n) →
  Render.iterateAll_loop fuel net c (Z.of_nat (S k)) (JS.Num L)
    (historyWalk c L log k) =
  Some {| Render.yielded :=
            concat (map (λ i, pageOf (answers i)) (seq k (S n)));
          Render.thrown := None;
          Render.requests := historyWalk c L log (S (k + n)) |}.
Proof.
  induction n as [|n IH]; intros k fuel Hfuel Hserve Hnext Hlast;
    (destruct fuel as [|fuel]; [lia|]); cbn [Render.iterateAll_loop];
    (rewrite list_page by (apply Hserve; lia)); cbv zeta;
    change (default [] (Render.data (answers k))) with (pageOf (answers k)).
  - rewrite Nat.add_0_r in *. cbn [seq map concat]. rewrite app_nil_r.
    destruct (pageOf (answers k)) as [|r rs] eqn:Hpage; [done|].
    cbn [length Nat.eqb]. rewrite <- Hpage.
    by rewrite ge_isLast by (done || by rewrite Hpage).
  - destruct (Hnext k) as [Hpage Hmore]; [lia|].
    destruct (pageOf (answers k)) as [|r rs] eqn:Hrs; [done|].
    cbn [length Nat.eqb]. rewrite <- Hrs.
    rewrite ge_hasNext by (apply Hnext; lia).
    replace (Z.of_nat (S k) + 1) with (Z.of_nat (S (S k))) by lia.
    rewrite (IH (S k) fuel); [|lia|intros; apply Hserve; lia
                              |intros; apply Hnext; lia
                              |by replace (S k + n)%nat with (k + S n)%nat by lia].
    replace (S k + n)%nat with (k + S n)%nat by lia. reflexivity.
Qed.

(** The loop ends with the error of the first request that fails. *)
Lemma iterateAll_loop_fail n e : ∀ k fuel,
  (n < fuel)%nat →
  (∀ i, (k <= i < k + n)%nat →
        serves net c L log i (answers i) ∧ hasNext (answers i) i) →
  (Render.list_ net c
     {| Render.page := Some (JS.Num (Z.of_nat (S (k + n))));
        Render.limit := Some (JS.Num L) |}
     (historyWalk c L log (k + n))).1 = Rejected e →
  Render.iterateAll_loop fuel net c (Z.of_nat (S k)) (JS.Num L)
    (historyWalk c L log k) =
  Some {| Render.yielded := concat (map (λ i, pageOf (answers i)) (seq k n));
          Render.thrown := Some e;
          Render.requests := historyWalk c L log (S (k + n)) |}.
Proof.
  induction n as [|n IH]; intros k fuel Hfuel Hserve Hfail;
    (destruct fuel as [|fuel]; [lia|]); cbn [Render.iterateAll_loop].
  - rewrite Nat.add_0_r in *.
    rewrite (list_sends _ _ (Z.of_nat (S k)) L) in Hfail |- *;
      [|done|apply num_or_keeps; lia|by apply num_or_keeps
       |done|apply num_or_keeps; lia|by apply num_or_keeps].
    cbn [fst] in Hfail. rewrite Hfail. by rewrite historyWalk_S.
  - destruct (Hserve k) as [Hk Hmore]; [lia|].
    rewrite list_page by done. cbv zeta.
    change (default [] (Render.data (answers k))) with (pageOf (answers k)).
    destruct Hmore as [Hpage Hmore'].
    destruct (pageOf (answers k)) as [|r rs] eqn:Hrs; [done|].
    cbn [length Nat.eqb]. rewrite <- Hrs.
    rewrite ge_hasNext by (by split; [rewrite Hrs|]).
    replace (Z.of_nat (S k) + 1) with (Z.of_nat (S (S k))) by lia.
    rewrite (IH (S k) fuel); [|lia|intros; apply Hserve; lia
                              |by replace (S k + n)%nat with (k + S n)%nat by lia].
    replace (S k + n)%nat with (k + S n)%nat by lia. reflexivity.
Qed.

End IterateFacts.

(** [iterateAll] against a server that answers every request: it asks
    for the pages 1, 2, ... with the same limit (50 when none, 0 or NaN is
    given), yields the records of each page in order, and stops after the
    first page that is empty or announces no page after it. *)
Theorem iterateAll_pages {B}
    (net : Client.network B (Render.PaginatedResponse RenderRecord))
    (c : Client.CanveleteClient) (options : Render.ListRenderOptions)
    (log : list (Client.HttpRequest B))
    (answers : nat → Render.PaginatedResponse RenderRecord)
    (L : Z) (n fuel : nat) :
  Client.apiKey c ≠ "" →
  JS.num_or (Render.limit options) 50 = JS.Num L →
  (∀ i, (i <= n)%nat → serves net c L log i (answers i)) →
  (∀ i, (i < n)%nat → hasNext (answers i) i) →
  isLast (answers n) n →
  (n < fuel)%nat →
  Render.iterateAll fuel net c options log =
  Some {| Render.yielded :=
            concat (map (λ i, pageOf (answers i)) (seq 0 (S n)));
          Render.thrown := None;
          Render.requests := historyWalk c L log (S n) |}.
Proof.
  intros Hkey HL Hserve Hnext Hlast Hfuel.
  assert (L ≠ 0) as HL0.
  { destruct (num_or_truthy (Render.limit options) 50) as (z & Hz & Hz0);
      [done|]. congruence. }
  unfold Render.iterateAll. rewrite HL.
  transitivity (Render.iterateAll_loop fuel net c (Z.of_nat 1) (JS.Num L)
                  (historyWalk c L log 0)).
  { unfold historyWalk. simpl. by rewrite app_nil_r. }
  apply (iterateAll_loop_walk net c L log answers Hkey HL0 n 0 fuel);
    [done|intros; apply Hserve; lia|intros; apply Hnext; lia|done].
Qed.

(** When a request of the walk fails, the consumer has been given the
    records of the pages before it and then gets the error of that
    request, as [request] made it. *)
Theorem iterateAll_failure {B}
    (net : Client.network B (Render.PaginatedResponse RenderRecord))
    (c : Client.CanveleteClient) (options : Render.ListRenderOptions)
    (log : list (Client.HttpRequest B))
    (answers : nat → Render.PaginatedResponse RenderRecord)
    (L : Z) (n fuel : nat) (e : error) :
  Client.apiKey c ≠ "" →
  JS.num_or (Render.limit options) 50 = JS.Num L →
  (∀ i, (i < n)%nat →
        serves net c L log i (answers i) ∧ hasNext (answers i) i) →
  (Render.list_ net c
     {| Render.page := Some (JS.Num (Z.of_nat (S n)));
        Render.limit := Some (JS.Num L) |}
     (historyWalk c L log n)).1 = Rejected e →
  (n < fuel)%nat →
  Render.iterateAll fuel net c options log =
  Some {| Render.yielded := concat (map (λ i, pageOf (answers i)) (seq 0 n));
          Render.thrown := Some e;
          Render.requests := historyWalk c L log (S n) |}.
Proof.
  intros Hkey HL Hserve Hfail Hfuel.
  assert (L ≠ 0) as HL0.
  { destruct (num_or_truthy (Render.limit options) 50) as (z & Hz & Hz0);
      [done|]. congruence. }
  unfold Render.iterateAll. rewrite HL.
  transitivity (Render.iterateAll_loop fuel net c (Z.of_nat 1) (JS.Num L)
                  (historyWalk c L log 0)).
  { unfold historyWalk. simpl. by rewrite app_nil_r. }
  apply (iterateAll_loop_fail net c L log answers Hkey HL0 n e 0 fuel);
    [done|intros; apply Hserve; lia|done].
Qed.

(** Two pages of the history, the first announcing two pages. *)
Lemma iterateAll_pages_witness :
  let c := Client.new {| Client.opt_apiKey := Some "cvt_key";
                         Client.opt_baseUrl := None;
                         Client.opt_timeout := None |} in
  let counts := {| Render.pagination_page := None;
                   Render.pagination_limit := None;
                   Render.total := Some (JS.Num 3);
                   Render.totalPages := Some (JS.Num 2) |} in
  let first := {| Render.data := Some [job "completed" None; job "pending" None];
                  Render.pagination := Some counts |} in
  let second := {| Render.data := Some [job "failed" (Some "no font")];
                   Render.pagination := Some counts |} in
  let ok := λ body,
    {| Client.resp := {| status := 200; retryAfterHeader := None; json := None |};
       Client.resp_json := inr body;
       Client.resp_arrayBuffer := inl (Client.OtherError "unread") |} in
  let net : Client.network unit _ :=
    λ k _, match k with
           | O => inr (ok first)
           | 1%nat => inr (ok second)
           | _ => inl Client.AbortError
           end in
  Render.iterateAll 5 net c {| Render.page := None; Render.limit := None |} [] =
  Some {| Render.yielded := [job "completed" None; job "pending" None;
                             job "failed" (Some "no font")];
          Render.thrown := None;
          Render.requests :=
            [historyRequest c 1 50; historyRequest c 2 50] |}.
Proof.
  intros c counts first second ok net.
  apply (iterateAll_pages net c {| Render.page := None; Render.limit := None |}
           [] (λ i, match i with O => first | _ => second end) 50 1 5).
  - done.
  - done.
  - intros [|[|i]] Hi; [| |lia]; eexists; (split; [reflexivity|]); done.
  - intros [|i] Hi; [|lia]. split; [done|]. exists 2. split; [done|lia].
  - right. intros pages [= <-]. lia.
  - lia.
Defined.

(** A server error at the second page, after the first was yielded. *)
Lemma iterateAll_failure_witness :
  let c := Client.new {| Client.opt_apiKey := Some "cvt_key";
                         Client.opt_baseUrl := None;
                         Client.opt_timeout := None |} in
  let counts := {| Render.pagination_page := None;
                   Render.pagination_limit := None;
                   Render.total := Some (JS.Num 3);
                   Render.totalPages := Some (JS.Num 2) |} in
  let first := {| Render.data := Some [job "completed" None; job "pending" None];
                  Render.pagination := Some counts |} in
  let down := {| status := 503; retryAfterHeader := None; json := None |} in
  let net : Client.network unit _ :=
    λ k _, match k with
           | O => inr {| Client.resp := {| status := 200;
                                           retryAfterHeader := None;
                                           json := None |};
                         Client.resp_json := inr first;
                         Client.resp_arrayBuffer :=
                           inl (Client.OtherError "unread") |}
           | _ => inr {| Client.resp := down;
                         Client.resp_json := inl (Client.OtherError "no JSON");
                         Client.resp_arrayBuffer :=
                           inl (Client.OtherError "unread") |}
           end in
  Render.iterateAll 5 net c
    {| Render.page := None; Render.limit := Some (JS.Num 2) |} [] =
  Some {| Render.yielded := [job "completed" None; job "pending" None];
          Render.thrown :=
            Some (mkError ServerError "HTTP 503" (Some 503) (Some down));
          Render.requests := [historyRequest c 1 2; historyRequest c 2 2] |}.
Proof.
  intros c counts first down net.
  apply (iterateAll_failure net c
           {| Render.page := None; Render.limit := Some (JS.Num 2) |}
           [] (λ _, first) 2 1 5).
  - done.
  - done.
  - intros [|i] Hi; [|lia]. split.
    + eexists. split; [reflexivity|]. done.
    + split; [done|]. exists 2. split; [done|lia].
  - reflexivity.
  - lia.
Defined.

(** [list] and [getHistory] make the same request: a GET of
    [/api/v1/render/history?page=P&limit=L] under the base URL, where [P]
    is the page asked for, or 1 when it is missing, 0 or NaN, and [L] the
    limit, or 20; the numbers are sent as they print. *)
Theorem list_request {B}
    (net : Client.network B (Render.PaginatedResponse RenderRecord))
    (c : Client.CanveleteClient) (options : Render.ListRenderOptions)
    (log : list (Client.HttpRequest B)) :
  Client.apiKey c ≠ "" →
  ∃ P L,
    JS.num_or (Render.page options) 1 = JS.Num P ∧ P ≠ 0 ∧
    JS.num_or (Render.limit options) 20 = JS.Num L ∧ L ≠ 0 ∧
    (Render.list_ net c options log).2 = log ++ [historyRequest c P L] ∧
    Render.getHistory net c options log = Render.list_ net c options log.
Proof.
  intros Hkey.
  destruct (num_or_truthy (Render.page options) 1) as (P & HP & HP0); [done|].
  destruct (num_or_truthy (Render.limit options) 20) as (L & HL & HL0); [done|].
  exists P, L. split_and!; [done..| |done].
  by rewrite (list_sends net c P L).
Qed.

Lemma list_request_witness :
  let c := Client.new {| Client.opt_apiKey := Some "cvt_key";
                         Client.opt_baseUrl := Some "https://example.com/";
                         Client.opt_timeout := None |} in
  (Render.list_ (λ _ _, inl Client.AbortError : _ + Client.fetchResponse _) c
     {| Render.page := Some (JS.Num 0); Render.limit := Some JS.NaN |}
     ([] : list (Client.HttpRequest unit))).2 =
  [{| Client.req_method := "GET";
      Client.req_url := "https://example.com/api/v1/render/history?page=1&limit=20";
      Client.req_headers :=
        [("Content-Type", "application/json");
         ("User-Agent", "canvelete-ts/2.0.0");
         ("Authorization", "Bearer cvt_key")];
      Client.req_body := None |}].
Proof.
  intros c.
  destruct (list_request
              (λ _ _, inl Client.AbortError : _ + Client.fetchResponse _) c
              {| Render.page := Some (JS.Num 0); Render.limit := Some JS.NaN |}
              ([] : list (Client.HttpRequest unit)))
    as (P & L & HP & _ & HL & _ & Hlog & _); [done|].
  injection HP as <-. injection HL as <-. by rewrite Hlog.
Defined.

(** ** The render bodies *)

(** A conditional assignment leaves the object alone or adds the key
    with a truthy value. *)
Lemma setString_cases key x data :
  Render.setString key x data = data ∨
  ∃ s, x = Some s ∧ JS.nonempty s = true ∧
       Render.setString key x data = data ++ [(key, Render.VStr s)].
Proof.
  destruct x as [s|]; simpl; [|by left].
  destruct (JS.nonempty s) eqn:Hs; [right; eauto|by left].
Qed.

Lemma setNumber_cases key x data :
  Render.setNumber key x data = data ∨
  ∃ n, x = Some n ∧ JS.truthy n = true ∧
       Render.setNumber key x data = data ++ [(key, Render.VNum n)].
Proof.
  destruct x as [n|]; simpl; [|by left].
  destruct (JS.truthy n) eqn:Hn; [right; eauto|by left].
Qed.

Lemma setObject_cases key x data :
  Render.setObject key x data = data ∨
  ∃ o, x = Some o ∧
       Render.setObject key x data = data ++ [(key, Render.VObj o)].
Proof. destruct x as [o|]; simpl; [right; eauto|by left]. Qed.

Lemma num_or_is_truthy x d : d ≠ 0 → JS.truthy (JS.num_or x d) = true.
Proof.
  intros Hd. destruct (num_or_truthy x d) as (z & -> & Hz); [done|].
  simpl. by destruct (Z.eqb_spec z 0).
Qed.

Lemma or_else_nonempty x d :
  JS.nonempty d = true → JS.nonempty (JS.or_else x d) = true.
Proof.
  intros Hd. destruct x as [s|]; simpl; [|done].
  by destruct (JS.nonempty s) eqn:Hs.
Qed.

Lemma setString_keys key x data ks :
  data.*1 `sublist_of` ks →
  (Render.setString key x data).*1 `sublist_of` ks ++ [key].
Proof.
  intros Hsub. destruct (setString_cases key x data) as [->|(s & _ & _ & ->)].
  - by apply sublist_inserts_r.
  - rewrite fmap_app. by apply sublist_app.
Qed.

Lemma setNumber_keys key x data ks :
  data.*1 `sublist_of` ks →
  (Render.setNumber key x data).*1 `sublist_of` ks ++ [key].
Proof.
  intros Hsub. destruct (setNumber_cases key x data) as [->|(s & _ & _ & ->)].
  - by apply sublist_inserts_r.
  - rewrite fmap_app. by apply sublist_app.
Qed.

Lemma setObject_keys key x data ks :
  data.*1 `sublist_of` ks →
  (Render.setObject key x data).*1 `sublist_of` ks ++ [key].
Proof.
  intros Hsub. destruct (setObject_cases key x data) as [->|(s & _ & ->)].
  - by apply sublist_inserts_r.
  - rewrite fmap_app. by apply sublist_app.
Qed.

Lemma setString_truthy key x data :
  Forall (λ kv, toBoolean kv.2 = true) data →
  Forall (λ kv, toBoolean kv.2 = true) (Render.setString key x data).
Proof.
  intros Hall. destruct (setString_cases key x data) as [->|(s & _ & Hs & ->)];
    [done|].
  apply Forall_app. split; [done|]. by apply Forall_singleton.
Qed.

Lemma setNumber_truthy key x data :
  Forall (λ kv, toBoolean kv.2 = true) data →
  Forall (λ kv, toBoolean kv.2 = true) (Render.setNumber key x data).
Proof.
  intros Hall. destruct (setNumber_cases key x data) as [->|(s & _ & Hs & ->)];
    [done|].
  apply Forall_app. split; [done|]. by apply Forall_singleton.
Qed.

Lemma setObject_truthy key x data :
  Forall (λ kv, toBoolean kv.2 = true) data →
  Forall (λ kv, toBoolean kv.2 = true) (Render.setObject key x data).
Proof.
  intros Hall. destruct (setObject_cases key x data) as [->|(s & _ & ->)];
    [done|].
  apply Forall_app. split; [done|]. by apply Forall_singleton.
Qed.

(** The bodies of [create] and [createAsync] set no key twice and carry
    no falsy value: no undefined, 0, NaN or empty string, whatever the
    options are.  A format or quality that is falsy is replaced, any other
    falsy option is left out. *)
Theorem render_body_truthy (options : Render.RenderOptions) :
  NoDup (Render.createData options).*1 ∧
  Forall (λ kv, toBoolean kv.2 = true) (Render.createData options) ∧
  NoDup (Render.createAsyncData options).*1 ∧
  Forall (λ kv, toBoolean kv.2 = true) (Render.createAsyncData options).
Proof.
  unfold Render.createData, Render.createAsyncData. cbv zeta.
  pose proof (num_or_is_truthy (Render.quality options) 90 ltac:(done)) as Hq.
  pose proof (or_else_nonempty (Render.format options) "png" eq_refl) as Hf.
  split_and!.
  - eapply sublist_NoDup;
      [|do 2 apply setNumber_keys; do 2 apply setObject_keys;
        do 2 apply setString_keys; reflexivity].
    refine (bool_decide_unpack _ _). vm_compute. exact I.
  - do 2 apply setNumber_truthy. do 2 apply setObject_truthy.
    do 2 apply setString_truthy. by repeat constructor.
  - eapply sublist_NoDup;
      [|do 2 apply setNumber_keys; apply setObject_keys;
        do 2 apply setString_keys; reflexivity].
    refine (bool_decide_unpack _ _). vm_compute. exact I.
  - do 2 apply setNumber_truthy. apply setObject_truthy.
    do 2 apply setString_truthy. by repeat constructor.
Qed.

Lemma filter_setString (P : string * Render.value → Prop)
    `{!∀ kv, Decision (P kv)} key x data :
  (∀ v, P (key, v)) →
  filter P (Render.setString key x data) = Render.setString key x (filter P data).
Proof.
  intros HP. destruct x as [s|]; cbn [Render.setString]; [|done].
  destruct (JS.nonempty s); [|done].
  by rewrite filter_app, filter_cons_True, filter_nil.
Qed.

Lemma filter_setNumber (P : string * Render.value → Prop)
    `{!∀ kv, Decision (P kv)} key x data :
  (∀ v, P (key, v)) →
  filter P (Render.setNumber key x data) = Render.setNumber key x (filter P data).
Proof.
  intros HP. destruct x as [n|]; cbn [Render.setNumber]; [|done].
  destruct (JS.truthy n); [|done].
  by rewrite filter_app, filter_cons_True, filter_nil.
Qed.

Lemma filter_setObject (P : string * Render.value → Prop)
    `{!∀ kv, Decision (P kv)} key x data :
  (∀ v, P (key, v)) →
  filter P (Render.setObject key x data) = Render.setObject key x (filter P data).
Proof.
  intros HP. destruct x as [o|]; cbn [Render.setObject]; [|done].
  by rewrite filter_app, filter_cons_True, filter_nil.
Qed.

Lemma filter_setObject_out (P : string * Render.value → Prop)
    `{!∀ kv, Decision (P kv)} key x data :
  (∀ v, ¬ P (key, v)) →
  filter P (Render.setObject key x data) = filter P data.
Proof.
  intros HP. destruct x as [o|]; cbn [Render.setObject]; [|done].
  by rewrite filter_app, filter_cons_False, filter_nil, app_nil_r.
Qed.

(** The body of [createAsync] is the body of [create] with the key
    [async] set to true and without [dynamicElements], which
    [createAsync] never sends; the other keys are the same, in the same
    order. *)
Theorem createAsync_body (options : Render.RenderOptions) :
  filter (λ kv, kv.1 ≠ "async") (Render.createAsyncData options) =
  filter (λ kv, kv.1 ≠ "dynamicElements") (Render.createData options) ∧
  ("async", Render.VBool true) ∈ Render.createAsyncData options ∧
  (∀ v, ("dynamicElements", v) ∉ Render.createAsyncData options).
Proof.
  assert (filter (λ kv, kv.1 ≠ "async") (Render.createAsyncData options) =
          filter (λ kv, kv.1 ≠ "dynamicElements") (Render.createData options))
    as Hsame.
  { unfold Render.createAsyncData, Render.createData. cbv zeta.
    rewrite !filter_setNumber by done.
    rewrite (filter_setObject_out _ "dynamicElements") by (intros v Hne; by apply Hne).
    rewrite !filter_setObject by done.
    by rewrite !filter_setString by done. }
  split_and!; [done| |].
  - unfold Render.createAsyncData. cbv zeta.
    repeat match goal with
    | |- _ ∈ Render.setNumber ?k ?x ?d =>
        destruct (setNumber_cases k x d) as [->|(? & _ & _ & ->)]
    | |- _ ∈ Render.setString ?k ?x ?d =>
        destruct (setString_cases k x d) as [->|(? & _ & _ & ->)]
    | |- _ ∈ Render.setObject ?k ?x ?d =>
        destruct (setObject_cases k x d) as [->|(? & _ & ->)]
    | |- _ ∈ _ ++ _ => apply elem_of_app; left
    end; set_solver.
  - intros v Hin.
    assert (("dynamicElements", v) ∈
            filter (λ kv, kv.1 ≠ "async") (Render.createAsyncData options)) as Hf
      by (by apply list_elem_of_filter).
    rewrite Hsame in Hf. apply list_elem_of_filter in Hf as [Hne _]. by apply Hne.
Qed.

Lemma elem_of_setString kv key x data :
  kv ∈ Render.setString key x data →
  kv ∈ data ∨ kv = (key, Render.optString x).
Proof.
  destruct (setString_cases key x data) as [->|(s & -> & _ & ->)]; [by left|].
  intros [?|?%list_elem_of_singleton]%elem_of_app; eauto.
Qed.

Lemma elem_of_setNumber kv key x data :
  kv ∈ Render.setNumber key x data →
  kv ∈ data ∨ kv = (key, Render.optNumber x).
Proof.
  destruct (setNumber_cases key x data) as [->|(s & -> & _ & ->)]; [by left|].
  intros [?|?%list_elem_of_singleton]%elem_of_app; eauto.
Qed.

Lemma elem_of_setObject kv key x data :
  kv ∈ Render.setObject key x data →
  kv ∈ data ∨ kv = (key, Render.optObject x).
Proof.
  destruct (setObject_cases key x data) as [->|(s & -> & ->)]; [by left|].
  intros [?|?%list_elem_of_singleton]%elem_of_app; eauto.
Qed.

(** What an item of a batch has in common with a single render. *)
Lemma batchItem_agrees r :
  ∃ fields, Render.batchItem r = Render.VObj fields ∧
    ∀ kv, kv ∈ Render.createData r → kv.1 ≠ "dynamicElements" → kv ∈ fields.
Proof.
  eexists. split; [reflexivity|]. intros kv Hin Hkey.
  unfold Render.createData in Hin. cbv zeta in Hin.
  apply elem_of_setNumber in Hin as [Hin| ->]; [|set_solver].
  apply elem_of_setNumber in Hin as [Hin| ->]; [|set_solver].
  apply elem_of_setObject in Hin as [Hin| ->]; [|done].
  apply elem_of_setObject in Hin as [Hin| ->]; [|set_solver].
  apply elem_of_setString in Hin as [Hin| ->]; [|set_solver].
  apply elem_of_setString in Hin as [Hin| ->]; [|set_solver].
  set_solver.
Qed.



(** ** The render and its output file *)



(** ** Validation *)

Lemma Qle_bool_inject a b : Qle_bool (inject_Z a) (inject_Z b) = (a <=? b).
Proof. unfold Qle_bool. simpl. by rewrite !Z.mul_1_r. Qed.

Lemma prefix_append a b : String.prefix a (a +:+ b) = true.
Proof.
  induction a as [|ch a IH]; simpl; [by destruct b|].
  by destruct (Ascii.ascii_dec ch ch).
Qed.

Lemma push_nil cond msg errors :
  Validation.push cond msg errors = [] ↔ cond = false ∧ errors = [].
Proof.
  unfold Validation.push. destruct cond.
  - split; [|by intros [? _]]. by destruct errors.
  - naive_solver.
Qed.

Lemma throwIfAny_None what errors :
  Validation.throwIfAny what errors = None ↔ errors = [].
Proof. unfold Validation.throwIfAny. by destruct errors. Qed.

Lemma throwIfAny_Some what errors e :
  Validation.throwIfAny what errors = Some e →
  e = mkError ValidationError
        (what +:+ " validation failed: " +:+ Client.join "; " errors) None None.
Proof.
  unfold Validation.throwIfAny. destruct (0 <? length errors)%nat; [|done].
  by intros [= <-].
Qed.

Lemma dimensionOk_checks v :
  dimensionOk v ↔
  Validation.notNumber v || Validation.lessEq (Validation.toNumber v) (Validation.ofZ 0)
    = false ∧
  Validation.greater (Validation.toNumber v) (Validation.ofZ 10000) = false.
Proof.
  unfold dimensionOk. destruct v as [[q| | |]|]; simpl.
  - unfold Validation.greater. simpl. rewrite negb_false_iff, Qle_bool_iff.
    rewrite <- not_true_iff_false, Qle_bool_iff. split.
    + intros (n & [= <-] & [?|(q' & [= <-] & Hpos & Hmax)]); [done|].
      split; [|done]. by apply Qlt_not_le.
    + intros [Hpos Hmax]. eexists. split; [done|]. right.
      eexists. split; [done|]. split; [|done]. by apply Qnot_le_lt.
  - split; [|by intros [_ ?]].
    by intros (n & [= <-] & [?|(q' & ? & _)]).
  - split; [|by intros [? _]].
    by intros (n & [= <-] & [?|(q' & ? & _)]).
  - split; [done|]. intros _. eexists. split; [done|]. by left.
  - split; [|by intros [? _]]. by intros (n & ? & _).
Qed.

(** [validateCanvasDimensions] returns exactly when each of the width
    and the height is a number that is NaN or is above 0 and at most
    10000: a missing dimension, 0, a negative one, one above 10000 and
    an infinite one make it throw, NaN does not.  What it throws is a
    ValidationError without a status code. *)
Theorem validateCanvasDimensions_accepts
    (width height : option Validation.number) :
  (Validation.validateCanvasDimensions width height = None ↔
   dimensionOk width ∧ dimensionOk height) ∧
  (∀ e, Validation.validateCanvasDimensions width height = Some e →
        cls e = ValidationError ∧ statusCode e = None ∧
        String.prefix "Canvas validation failed: " (message e) = true).
Proof.
  unfold Validation.validateCanvasDimensions. cbv zeta. split.
  - rewrite throwIfAny_None, !push_nil, !dimensionOk_checks. naive_solver.
  - intros e ->%throwIfAny_Some. split_and!; [done..|].
    cbn [message mkError]. rewrite <- append_assoc.
    apply (prefix_append "Canvas validation failed: ").
Qed.

Lemma setString_lookup key x data i :
  (i < length data)%nat → Render.setString key x data !! i = data !! i.
Proof.
  intros Hi. destruct (setString_cases key x data) as [->|(s & _ & _ & ->)];
    [done|by apply lookup_app_l].
Qed.

Lemma setNumber_lookup key x data i :
  (i < length data)%nat → Render.setNumber key x data !! i = data !! i.
Proof.
  intros Hi. destruct (setNumber_cases key x data) as [->|(s & _ & _ & ->)];
    [done|by apply lookup_app_l].
Qed.

Lemma setObject_lookup key x data i :
  (i < length data)%nat → Render.setObject key x data !! i = data !! i.
Proof.
  intros Hi. destruct (setObject_cases key x data) as [->|(s & _ & ->)];
    [done|by apply lookup_app_l].
Qed.

Lemma setString_length key x data :
  (length data <= length (Render.setString key x data))%nat.
Proof.
  destruct (setString_cases key x data) as [->|(s & _ & _ & ->)]; [done|].
  rewrite length_app. lia.
Qed.

Lemma setNumber_length key x data :
  (length data <= length (Render.setNumber key x data))%nat.
Proof.
  destruct (setNumber_cases key x data) as [->|(s & _ & _ & ->)]; [done|].
  rewrite length_app. lia.
Qed.

Lemma setObject_length key x data :
  (length data <= length (Render.setObject key x data))%nat.
Proof.
  destruct (setObject_cases key x data) as [->|(s & _ & ->)]; [done|].
  rewrite length_app. lia.
Qed.

(** The first two keys of the body of [create]. *)
Lemma createData_head options i :
  (i < 2)%nat →
  Render.createData options !! i =
  [("format", Render.VStr (JS.or_else (Render.format options) "png"));
   ("quality", Render.VNum (JS.num_or (Render.quality options) 90))] !! i.
Proof.
  intros Hi. unfold Render.createData. cbv zeta.
  repeat match goal with
  | |- Render.setNumber ?k ?x ?d !! _ = _ =>
      rewrite (setNumber_lookup k x d); [|]
  | |- Render.setString ?k ?x ?d !! _ = _ =>
      rewrite (setString_lookup k x d); [|]
  | |- Render.setObject ?k ?x ?d !! _ = _ =>
      rewrite (setObject_lookup k x d); [|]
  end; [done|..];
  repeat match goal with
  | |- (_ < length (Render.setNumber ?k ?x ?d))%nat =>
      eapply Nat.lt_le_trans; [|apply setNumber_length]
  | |- (_ < length (Render.setString ?k ?x ?d))%nat =>
      eapply Nat.lt_le_trans; [|apply setString_length]
  | |- (_ < length (Render.setObject ?k ?x ?d))%nat =>
      eapply Nat.lt_le_trans; [|apply setObject_length]
  end; simpl; lia.
Qed.

(** With a design or a template, [create] hands to [fetch] what
    [request] does. *)
Lemma create_requests {T} (net : Client.network Render.object T)
    (pf : Render.platform T) (c : Client.CanveleteClient)
    (options : Render.RenderOptions)
    (log : list (Client.HttpRequest Render.object))
    (written : list (string * T)) :
  negb (JS.nonempty_opt (Render.designId options)) &&
  negb (JS.nonempty_opt (Render.templateId options)) = false →
  (Render.create net pf c options log written).1.2 =
  (Client.request Render.stringify net c "POST" "/api/v1/render"
     {| Client.params := None; Client.json := Some (Render.createData options);
        Client.binary := true |} log).2.
Proof.
  intros Htarget. unfold Render.create. rewrite Htarget.
  destruct (Client.request Render.stringify net c "POST" "/api/v1/render" _
              log)
    as [[v|e] log1]; [|done].
  destruct (Render.outputFile options) as [path|]; [|done].
  destruct (JS.nonempty path); [|done].
  by destruct (Render.writeFile pf path v written) as [[e|] written'].
Qed.

Lemma includes_elem_of array s :
  Validation.arrayIncludes array s = true → s ∈ array.
Proof.
  unfold Validation.arrayIncludes. intros (s' & Hin & Heq)%existsb_exists.
  apply String.eqb_eq in Heq as ->. by apply list_elem_of_In.
Qed.



(** ** The color patterns *)

Lemma append_eq_nil (a b : string) : a +:+ b = "" → a = "" ∧ b = "".
Proof. by destruct a. Qed.

Lemma nullable_lang r : Validation.nullable r = true ↔ lang r "".
Proof.
  split.
  - induction r as [| |p|r1 IH1 r2 IH2|r1 IH1 r2 IH2|r IH]; simpl; try done.
    + intros _. constructor.
    + intros [H1 H2]%andb_prop.
      apply (lang_Seq r1 r2 "" ""); auto.
    + intros [H1|H2]%orb_prop; [apply lang_AltL|apply lang_AltR]; auto.
    + intros _. constructor.
  - intros Hlang. remember "" as s eqn:Hs.
    induction Hlang as [|p c Hc|r1 r2 a b _ IH1 _ IH2|r1 r2 s _ IH|r1 r2 s _ IH
                        |r|r a b _ _ _ _]; simpl; try done.
    + apply append_eq_nil in Hs as [-> ->]. by rewrite IH1, IH2.
    + by rewrite IH.
    + rewrite IH by done. apply orb_true_r.
Qed.

Lemma derive_lang r c s :
  lang (Validation.derive c r) s ↔ lang r (String c s).
Proof.
  split.
  - revert s.
    induction r as [| |p|r1 IH1 r2 IH2|r1 IH1 r2 IH2|r IH]; intros s; simpl.
    + inversion 1.
    + inversion 1.
    + destruct (p c) eqn:Hc; inversion 1; subst. by constructor.
    + destruct (Validation.nullable r1) eqn:Hnull.
      * inversion 1 as [| | | ? ? ? Hl | ? ? ? Hr | |]; subst.
        -- inversion Hl as [| | ? ? a b Ha Hb | | | |]; subst.
           apply (lang_Seq r1 r2 (String c a) b); auto.
        -- apply (lang_Seq r1 r2 "" (String c s)); [|auto].
           by apply nullable_lang.
      * inversion 1 as [| | ? ? a b Ha Hb | | | |]; subst.
        apply (lang_Seq r1 r2 (String c a) b); auto.
    + inversion 1; subst; [apply lang_AltL|apply lang_AltR]; auto.
    + inversion 1 as [| | ? ? a b Ha Hb | | | |]; subst.
      apply (lang_StarCons r (String c a) b); auto.
  - intros Hlang. remember (String c s) as t eqn:Ht. revert s Ht.
    induction Hlang as [|p c' Hc|r1 r2 a b Ha IH1 Hb IH2|r1 r2 t _ IH
                        |r1 r2 t _ IH|r|r a b Ha IH1 Hb IH2]; intros s Ht;
      simpl.
    + done.
    + injection Ht as -> <-. rewrite Hc. constructor.
    + destruct a as [|c' a]; simpl in Ht.
      * subst b. apply nullable_lang in Ha. rewrite Ha.
        apply lang_AltR. by apply IH2.
      * injection Ht as -> <-.
        destruct (Validation.nullable r1);
          [apply lang_AltL|]; apply lang_Seq; auto.
    + apply lang_AltL. by apply IH.
    + apply lang_AltR. by apply IH.
    + done.
    + destruct a as [|c' a]; simpl in Ht.
      * by apply IH2.
      * injection Ht as -> <-. apply lang_Seq; auto.
Qed.

(** The matcher decides the language of the pattern. *)
Lemma test_lang r s : Validation.test r s = true ↔ lang r s.
Proof.
  revert r. induction s as [|c s IH]; intros r; simpl.
  - apply nullable_lang.
  - by rewrite IH, derive_lang.
Qed.

Lemma canStart_lang r c s : lang r (String c s) → canStart r c = true.
Proof.
  intros Hlang. remember (String c s) as t eqn:Ht. revert s Ht.
  induction Hlang as [|p c' Hc|r1 r2 a b Ha IH1 Hb IH2|r1 r2 t _ IH
                      |r1 r2 t _ IH|r|r a b Ha IH1 Hb IH2]; intros s Ht;
    simpl.
  - done.
  - by injection Ht as -> <-.
  - destruct a as [|c' a]; simpl in Ht.
    + subst b. apply nullable_lang in Ha. rewrite Ha, (IH2 s) by done.
      apply orb_true_r.
    + injection Ht as -> <-. by rewrite (IH1 a).
  - by rewrite (IH s).
  - rewrite (IH s) by done. apply orb_true_r.
  - done.
  - destruct a as [|c' a]; simpl in Ht.
    + by apply (IH2 s).
    + injection Ht as -> <-. by apply (IH1 a).
Qed.

Lemma test_cannot_start r c s :
  canStart r c = false → Validation.test r (String c s) = false.
Proof.
  intros Hno. apply not_true_is_false. intros Hyes%test_lang.
  apply canStart_lang in Hyes. congruence.
Qed.

Lemma lang_Seq_inv r1 r2 s :
  lang (Validation.Seq r1 r2) s →
  ∃ a b, s = a +:+ b ∧ lang r1 a ∧ lang r2 b.
Proof. inversion 1; subst; eauto. Qed.

Lemma lang_Alt_inv r1 r2 s :
  lang (Validation.Alt r1 r2) s → lang r1 s ∨ lang r2 s.
Proof. inversion 1; subst; eauto. Qed.

Lemma lang_Class_inv p s :
  lang (Validation.Class p) s → ∃ c, s = String c "" ∧ p c = true.
Proof. inversion 1; subst; eauto. Qed.

Lemma lang_Empty_inv s : lang Validation.Empty s → s = "".
Proof. by inversion 1. Qed.

(** [r{n}] on a class. *)
Lemma lang_times p n s :
  lang (Validation.times n (Validation.Class p)) s ↔
  String.length s = n ∧ JS.str_all p s = true.
Proof.
  revert s. induction n as [|n IH]; intros s; simpl.
  - split.
    + by intros ->%lang_Empty_inv.
    + intros [Hlen _]. destruct s; [constructor|done].
  - split.
    + intros (a & b & -> & Ha & Hb)%lang_Seq_inv.
      apply lang_Class_inv in Ha as (c & -> & Hc).
      apply IH in Hb as [<- Hall]. simpl.
      by rewrite Hc, Hall.
    + intros [Hlen Hall]. destruct s as [|c s]; [done|].
      simpl in Hlen, Hall. apply andb_prop in Hall as [Hc Hall].
      apply (lang_Seq _ _ (String c "") s); [by constructor|].
      apply IH. split; [lia|done].
Qed.

(** [r+] and [r*] on a class. *)
Lemma lang_star_class p s :
  JS.str_all p s = true → lang (Validation.Star (Validation.Class p)) s.
Proof.
  induction s as [|c s IH]; simpl; [constructor|].
  intros [Hc Hall]%andb_prop.
  apply (lang_StarCons _ (String c "") s); [by constructor|auto].
Qed.

Lemma lang_plus_class p s :
  JS.nonempty s = true → JS.str_all p s = true →
  lang (Validation.Plus (Validation.Class p)) s.
Proof.
  destruct s as [|c s]; [done|]. simpl. intros _ [Hc Hall]%andb_prop.
  apply (lang_Seq _ _ (String c "") s); [by constructor|].
  by apply lang_star_class.
Qed.

Lemma lang_char c : lang (Validation.char c) (String c "").
Proof. constructor. apply Ascii.eqb_refl. Qed.

Lemma lang_opt_none r : lang (Validation.Opt r) "".
Proof. apply lang_AltR. constructor. Qed.

Lemma lang_opt_some r s : lang r s → lang (Validation.Opt r) s.
Proof. apply lang_AltL. Qed.

Lemma lang_spaces_none : lang (Validation.Star Validation.space) "".
Proof. constructor. Qed.

Lemma lang_spaces_one : lang (Validation.Star Validation.space) " ".
Proof.
  apply (lang_StarCons _ " " ""); [|constructor].
  apply lang_AltL. by constructor.
Qed.

Lemma toLowerCase_hash s :
  Validation.lowerCase (String "#" s) = String "#" (Validation.lowerCase s).
Proof. by destruct s as [|c2 [|c3 s]]. Qed.

(** A string that starts with [#] is a color exactly when 3, 6 or 8
    hexadecimal digits, in either case, follow the [#]: no other form of
    color starts with it. *)
Theorem validateColor_hex (h : string) :
  Validation.validateColor (String "#" h) = true ↔
  JS.str_all Validation.isHexDigit h = true ∧
  (String.length h = 3 ∨ String.length h = 6 ∨ String.length h = 8)%nat.
Proof.
  unfold Validation.validateColor.
  rewrite (test_cannot_start Validation.rgbColor) by done.
  rewrite (test_cannot_start Validation.hslColor) by done.
  rewrite toLowerCase_hash.
  change (Validation.arrayIncludes Validation.namedColors
            (String "#" (Validation.lowerCase h))) with false.
  assert (Validation.test Validation.hexColor (String "#" h) = true ↔
          JS.str_all Validation.isHexDigit h = true ∧
          (String.length h = 3 ∨ String.length h = 6 ∨ String.length h = 8)%nat)
    as <-.
  { rewrite test_lang. unfold Validation.hexColor. split.
    - intros (a & b & Hs & Ha & Hb)%lang_Seq_inv.
      apply lang_Class_inv in Ha as (c & -> & Hc).
      simpl in Hs. injection Hs as _ <-.
      apply lang_Alt_inv in Hb as [H3|[H6|H8]%lang_Alt_inv].
      + apply lang_times in H3 as [? ?]. auto.
      + apply lang_times in H6 as [? ?]. auto.
      + apply lang_times in H8 as [? ?]. auto.
    - intros [Hall Hlen].
      apply (lang_Seq _ _ "#" h); [apply lang_char|].
      destruct Hlen as [Hlen|[Hlen|Hlen]];
        [apply lang_AltL|apply lang_AltR, lang_AltL|apply lang_AltR, lang_AltR];
        by apply lang_times. }
  by destruct (Validation.test Validation.hexColor (String "#" h)).
Qed.

Lemma lang_cast r s t : lang r s → s = t → lang r t.
Proof. by intros ? <-. Qed.

(** The optional group for the alpha. *)
Lemma lang_alpha (alpha : option string) :
  (∀ al, alpha = Some al →
         JS.nonempty al = true ∧ JS.str_all Validation.digitOrDot al = true) →
  lang (Validation.Opt
          (Validation.seqs
             [Validation.char ","; Validation.Star Validation.space;
              Validation.Plus (Validation.Class Validation.digitOrDot)]))
       (match alpha with Some al => ", " +:+ al | None => "" end).
Proof.
  intros Halpha. destruct alpha as [al|]; [|apply lang_opt_none].
  destruct (Halpha al eq_refl) as [Hne Hall].
  apply lang_opt_some. cbn [Validation.seqs foldr].
  eapply lang_cast.
  - apply (lang_Seq _ _ ","); [apply lang_char|].
    apply (lang_Seq _ _ " "); [apply lang_spaces_one|].
    apply (lang_Seq _ _ al); [by apply lang_plus_class|constructor].
  - simpl. by rewrite append_nil_r.
Qed.

(** The functional notations.  Any three runs of digits are taken as
    components, without a range: [rgb(999, 999, 999)] is a color.  The
    alpha is any run of digits and dots, and is optional whether or not
    the name ends with [a]. *)
Theorem validateColor_functional (a : bool) (r g b : string)
    (alpha : option string) :
  JS.nonempty r = true → JS.str_all JS.isDigit r = true →
  JS.nonempty g = true → JS.str_all JS.isDigit g = true →
  JS.nonempty b = true → JS.str_all JS.isDigit b = true →
  (∀ al, alpha = Some al →
         JS.nonempty al = true ∧ JS.str_all Validation.digitOrDot al = true) →
  let name := if a then "a(" else "(" in
  let tail := match alpha with Some al => ", " +:+ al | None => "" end in
  Validation.validateColor
    ("rgb" +:+ name +:+ r +:+ ", " +:+ g +:+ ", " +:+ b +:+ tail +:+ ")")
    = true ∧
  Validation.validateColor
    ("hsl" +:+ name +:+ r +:+ ", " +:+ g +:+ "%, " +:+ b +:+ "%" +:+ tail +:+ ")")
    = true.
Proof.
  intros Hr Hr' Hg Hg' Hb Hb' Halpha name tail.
  pose proof (lang_alpha alpha Halpha) as Htail. fold tail in Htail.
  assert (lang (Validation.Opt (Validation.char "a")) (if a then "a" else ""))
    as Ha.
  { destruct a; [apply lang_opt_some, lang_char|apply lang_opt_none]. }
  split.
  - assert (Validation.test Validation.rgbColor
              ("rgb" +:+ name +:+ r +:+ ", " +:+ g +:+ ", " +:+ b +:+ tail +:+ ")")
            = true) as Hrgb.
    { apply test_lang. unfold Validation.rgbColor.
      cbn [Validation.seqs foldr]. eapply lang_cast.
      - apply (lang_Seq _ _ "r"); [apply lang_char|].
        apply (lang_Seq _ _ "g"); [apply lang_char|].
        apply (lang_Seq _ _ "b"); [apply lang_char|].
        apply (lang_Seq _ _ (if a then "a" else "")); [exact Ha|].
        apply (lang_Seq _ _ "("); [apply lang_char|].
        apply (lang_Seq _ _ ""); [apply lang_spaces_none|].
        apply (lang_Seq _ _ r); [by apply lang_plus_class|].
        apply (lang_Seq _ _ ""); [apply lang_spaces_none|].
        apply (lang_Seq _ _ ","); [apply lang_char|].
        apply (lang_Seq _ _ " "); [apply lang_spaces_one|].
        apply (lang_Seq _ _ g); [by apply lang_plus_class|].
        apply (lang_Seq _ _ ""); [apply lang_spaces_none|].
        apply (lang_Seq _ _ ","); [apply lang_char|].
        apply (lang_Seq _ _ " "); [apply lang_spaces_one|].
        apply (lang_Seq _ _ b); [by apply lang_plus_class|].
        apply (lang_Seq _ _ tail); [exact Htail|].
        apply (lang_Seq _ _ ""); [apply lang_spaces_none|].
        apply (lang_Seq _ _ ")"); [apply lang_char|constructor].
      - subst name. by destruct a. }
    unfold Validation.validateColor. rewrite Hrgb.
    by destruct (Validation.test Validation.hexColor _).
  - assert (Validation.test Validation.hslColor
              ("hsl" +:+ name +:+ r +:+ ", " +:+ g +:+ "%, " +:+ b +:+ "%" +:+
               tail +:+ ")") = true) as Hhsl.
    { apply test_lang. unfold Validation.hslColor.
      cbn [Validation.seqs foldr]. eapply lang_cast.
      - apply (lang_Seq _ _ "h"); [apply lang_char|].
        apply (lang_Seq _ _ "s"); [apply lang_char|].
        apply (lang_Seq _ _ "l"); [apply lang_char|].
        apply (lang_Seq _ _ (if a then "a" else "")); [exact Ha|].
        apply (lang_Seq _ _ "("); [apply lang_char|].
        apply (lang_Seq _ _ ""); [apply lang_spaces_none|].
        apply (lang_Seq _ _ r); [by apply lang_plus_class|].
        apply (lang_Seq _ _ ""); [apply lang_spaces_none|].
        apply (lang_Seq _ _ ","); [apply lang_char|].
        apply (lang_Seq _ _ " "); [apply lang_spaces_one|].
        apply (lang_Seq _ _ g); [by apply lang_plus_class|].
        apply (lang_Seq _ _ "%"); [apply lang_char|].
        apply (lang_Seq _ _ ""); [apply lang_spaces_none|].
        apply (lang_Seq _ _ ","); [apply lang_char|].
        apply (lang_Seq _ _ " "); [apply lang_spaces_one|].
        apply (lang_Seq _ _ b); [by apply lang_plus_class|].
        apply (lang_Seq _ _ "%"); [apply lang_char|].
        apply (lang_Seq _ _ tail); [exact Htail|].
        apply (lang_Seq _ _ ""); [apply lang_spaces_none|].
        apply (lang_Seq _ _ ")"); [apply lang_char|constructor].
      - subst name. by destruct a. }
    unfold Validation.validateColor. rewrite Hhsl.
    by repeat case_match.
Qed.

Lemma validateColor_functional_witness :
  Validation.validateColor "rgb(999, 999, 999)" = true ∧
  Validation.validateColor "hsl(999, 999%, 999%)" = true.
Proof.
  apply (validateColor_functional false "999" "999" "999" None); done.
Defined.

Lemma validateColor_hex_witness :
  Validation.validateColor "#1a2B3c" = true.
Proof.
  apply (validateColor_hex "1a2B3c"). split; [done|]. right. by left.
Defined.

(** ** Requests under retry *)

Lemma logAfter_length {B T} (stringify : Client.stringifier B)
    (net : Client.network B T)
    (c : Client.CanveleteClient) (method endpoint : string)
    (options : Client.RequestOptions B) (log : list (Client.HttpRequest B)) k :
  Client.apiKey c ≠ "" →
  Client.json options ≫= stringify = None →
  length (logAfter stringify net c method endpoint options log k) =
  (length log + k)%nat.
Proof.
  intros Hkey Hjson. induction k as [|k IH]; simpl; [lia|].
  rewrite request_sends by done. cbn [snd]. rewrite length_app, IH. simpl. lia.
Qed.

(** A rate limit with a readable hint, as the mapper makes it. *)
Lemma handleResponseErrors_hinted response n :
  status response = 429 → 0 <= n →
  retryAfterHeader response = Some (JS.numberToString n) →
  handleResponseErrors response =
    Some (newRateLimitError (errorMessage response) (Some (JS.Num n))
            (Some 429) (Some response)).
Proof.
  intros Hst Hn Hheader. unfold handleResponseErrors. rewrite Hst, Hheader.
  cbn [Z.ltb Z.eqb Z.compare Pos.compare Pos.compare_cont Pos.eqb
       JS.nonempty_opt default from_option id].
  unfold Datatypes.id.
  by rewrite numberToString_nonempty, parseInt_auto_numberToString.
Qed.

(** A request, with a body that [JSON.stringify] accepts or without
    one, that is answered 429 with [Retry-After: n], [n] a positive number
    of seconds, and then answered with success: [retryOnRateLimit] around
    it makes the two requests, waits [n * 1000] ms between them, and
    resolves with the second answer. *)
Theorem retried_request_follows_hint {B T} (stringify : Client.stringifier B)
    (net : Client.network B T)
    (c : Client.CanveleteClient) (method endpoint : string)
    (body : option B) (log : list (Client.HttpRequest B))
    (limited : Client.fetchResponse T) (answer : Client.fetchResponse T)
    (n : Z) (v : T) :
  let req :=
    {| Client.req_method := method;
       Client.req_url := Client.baseUrl c +:+ endpoint;
       Client.req_headers :=
         [("Content-Type", "application/json");
          ("User-Agent", "canvelete-ts/2.0.0");
          ("Authorization", "Bearer " +:+ Client.apiKey c)];
       Client.req_body := body |} in
  Client.apiKey c ≠ "" →
  body ≫= stringify = None →
  0 < n →
  net (length log) req = inr limited →
  status (Client.resp limited) = 429 →
  retryAfterHeader (Client.resp limited) = Some (JS.numberToString n) →
  net (S (length log)) req = inr answer →
  status (Client.resp answer) < 400 →
  Client.resp_json answer = inr v →
  retryOnRateLimit
    (requestAttempt stringify net c method endpoint
       {| Client.params := None; Client.json := body; Client.binary := false |}
       log) =
  Some {| settled := Resolved v; invocations := 2; sleeps := [n * 1000] |}.
Proof.
  intros req Hkey Hbody Hn Hnet0 Hst0 Hheader Hnet1 Hst1 Hjson.
  assert (requestAttempt stringify net c method endpoint
            {| Client.params := None; Client.json := body;
               Client.binary := false |} log 0 =
          Rejected (newRateLimitError (errorMessage (Client.resp limited))
                      (Some (JS.Num n)) (Some 429)
                      (Some (Client.resp limited)))) as Hfirst.
  { unfold requestAttempt. cbn [logAfter]. rewrite request_sends by done.
    cbv zeta. cbn [Client.params Client.json Client.binary fst]. fold req.
    rewrite Hnet0.
    by rewrite (handleResponseErrors_hinted _ n) by (done || lia). }
  assert (requestAttempt stringify net c method endpoint
            {| Client.params := None; Client.json := body;
               Client.binary := false |} log 1 = Resolved v) as Hsecond.
  { unfold requestAttempt. rewrite request_sends by done.
    cbv zeta. cbn [Client.params Client.json Client.binary fst]. fold req.
    rewrite logAfter_length by done.
    replace (length log + 1)%nat with (S (length log)) by lia.
    by rewrite Hnet1, (handleResponseErrors_ok _ Hst1), Hjson. }
  assert (retryAfterDelay
            (newRateLimitError (errorMessage (Client.resp limited))
               (Some (JS.Num n)) (Some 429) (Some (Client.resp limited)))
          = Some (n * 1000)) as Hhint.
  { unfold retryAfterDelay. simpl. by destruct (Z.eqb_spec n 0); [lia|]. }
  unfold retryOnRateLimit, withRetry. cbv zeta.
  set (cfg := mergeConfig _).
  change (S (Z.to_nat (maxAttempts cfg))) with 6%nat.
  change (initialDelay cfg) with 1000.
  cbn [withRetry_loop]. change (maxAttempts cfg) with 5.
  rewrite Hfirst. cbv zeta. rewrite Hhint.
  assert (∀ msg after code r,
            shouldRetry cfg (newRateLimitError msg after code r) = true)
    as -> by done.
  change (0 <? 5) with true. change (5 <=? 0 + 1) with false.
  change (0 + 1 <? 5) with true. cbn [negb orb].
  by rewrite Hsecond.
Qed.

(** A 429 with [Retry-After: 7], then a 200. *)
Lemma retried_request_follows_hint_witness :
  let c := Client.new {| Client.opt_apiKey := Some "cvt_key";
                         Client.opt_baseUrl := None;
                         Client.opt_timeout := None |} in
  let limited :=
    {| Client.resp := {| status := 429; retryAfterHeader := Some "7";
                         json := Some {| body_error := Some "slow down";
                                         body_message := None |} |};
       Client.resp_json := inl (Client.OtherError "unread");
       Client.resp_arrayBuffer := inl (Client.OtherError "unread") |} in
  let answer :=
    {| Client.resp := {| status := 200; retryAfterHeader := None;
                         json := None |};
       Client.resp_json := inr "resized";
       Client.resp_arrayBuffer := inl (Client.OtherError "unread") |} in
  let net : Client.network string string :=
    λ k _, match k with O => inr limited | _ => inr answer end in
  retryOnRateLimit
    (requestAttempt (λ _, None) net c "PATCH" "/api/designs/d1/canvas/resize"
       {| Client.params := None; Client.json := Some "800x600";
          Client.binary := false |}
       []) =
  Some {| settled := Resolved "resized"; invocations := 2; sleeps := [7000] |}.
Proof.
  intros c limited answer net.
  apply (retried_request_follows_hint (λ _, None) net c "PATCH"
           "/api/designs/d1/canvas/resize" (Some "800x600") []
           limited answer 7 "resized"); done.
Defined.

(** ** Failed status requests *)

(** Neither wait retries a status request.  When the request of poll
    [k] rejects, after [k] polls that ended nothing and before the
    deadline, the wait rejects with the error of that request, having
    slept [k] times: one failed request ends a wait, however much of the
    timeout is left. *)
Theorem wait_propagates_request_error (w : world) (target : string)
    (options : WaitOptions) (fuel k : nat) (e : error) :
  (k < fuel)%nat →
  (let limit := msOr (timeout options) 300000 in
   let interval := msOr (pollInterval options) 2000 in
   (∀ i, (i < k)%nat →
         elapsed w i < limit ∧
         ∃ st, statusOf w target i = Resolved st ∧ pending st) →
   elapsed w k < limit →
   statusOf w target k = Rejected e →
   waitForCompletion fuel w target options =
     Some (Rejected e,
           ReadClock (clock w 0) :: rounds w interval 0 k ++
           [ReadClock (clock w (S k)); Fetch k])) ∧
  (let limit := msOr (timeout options) 600000 in
   let interval := msOr (pollInterval options) 5000 in
   (∀ i, (i < k)%nat →
         elapsed w i < limit ∧
         ∃ resp, batchStatusOf w target i = Resolved resp ∧
                 completed resp = false) →
   elapsed w k < limit →
   batchStatusOf w target k = Rejected e →
   waitForBatch fuel w target options =
     Some (Rejected e,
           ReadClock (clock w 0) :: rounds w interval 0 k ++
           [ReadClock (clock w (S k)); Fetch k])).
Proof.
  intros Hfuel. split.
  - intros limit interval Hpending Hin Hfail. unfold waitForCompletion.
    fold limit interval. cbv zeta.
    replace fuel with (k + S (fuel - S k))%nat by lia.
    rewrite waitForCompletion_loop_rounds
      by (intros i ?; apply Hpending; lia).
    cbn [Nat.add waitForCompletion_loop]. unfold elapsed in Hin.
    destruct (Z.ltb_spec (clock w (S k) - clock w 0) limit); [|lia].
    rewrite Hfail. unfold after. by simpl.
  - intros limit interval Hpending Hin Hfail. unfold waitForBatch.
    fold limit interval. cbv zeta.
    replace fuel with (k + S (fuel - S k))%nat by lia.
    rewrite waitForBatch_loop_rounds
      by (intros i ?; apply Hpending; lia).
    cbn [Nat.add waitForBatch_loop]. unfold elapsed in Hin.
    destruct (Z.ltb_spec (clock w (S k) - clock w 0) limit); [|lia].
    rewrite Hfail. unfold after. by simpl.
Qed.

(** One pending status, then a server error, with most of the five
    minutes left. *)
Lemma wait_propagates_request_error_witness :
  waitForCompletion 10
    (fakeWorld 100 [Resolved (job "processing" None)] (Rejected serverDown)
       [] (Rejected serverDown))
    "job-123" noOptions =
  Some (Rejected serverDown,
        [ReadClock 0; ReadClock 100; Fetch 0; Sleep 2000;
         ReadClock 200; Fetch 1]).
Proof.
  destruct (wait_propagates_request_error
              (fakeWorld 100 [Resolved (job "processing" None)]
                 (Rejected serverDown) [] (Rejected serverDown))
              "job-123" noOptions 10 1 serverDown) as [Hwait _]; [lia|].
  apply Hwait.
  - intros i Hi. assert (i = 0%nat) as -> by lia. split; [done|].
    eexists. split; [reflexivity|]. by split.
  - done.
  - done.
Defined.
